(** * column: the transaction and query engine (transaction.go)

    A shallow embedding of [Txn], [Selector] and [Cursor] of package
    [column], with the bitmap, column and collection surface they consume,
    and the properties of filters, mutation queueing, commit and rollback. *)

From Stdlib Require Import ZArith Lia Bool.
From stdpp Require Import base numbers list sets strings option sorting.

Local Open Scope Z_scope.

(** ** The bitmap primitive *)

Module bitmap.

(** Modelled from the spec: the bitmap primitive (package
    [github.com/kelindar/bitmap]) is an external collaborator, described as a
    dense 64-bit word bitmap with set algebra, iteration and grow.  A bitmap
    is the Go slice [[]uint64]; bit [x] lives in word [x >> 6] at position
    [x % 64], as the literals of [z_numbers_test.go] show
    ([Bitmap{0xffffffffffffffff}], bit 9 being [0b1000000000]). *)
Abbreviation Bitmap := (list Z).

(** Modelled from the spec: the word and the position in the word of bit
    [x], [x >> 6] and [x % 64]. *)
Definition blkAt (x : N) : nat := N.to_nat (N.shiftr x 6).
Definition bitAt (x : N) : Z := Z.of_N (x mod 64).

(** Modelled from the spec: [dst[k]], reading zero past the end of the
    slice. *)
Definition word (b : Bitmap) (k : nat) : Z := default 0 (b !! k).

(** Modelled from the spec: [grow] extends the slice with zero words until
    word [blk] exists. *)
Definition grow (b : Bitmap) (blk : nat) : Bitmap :=
  if decide (length b ≤ blk)%nat then resize (S blk) 0 b else b.

(** Modelled from the spec: [Set] sets bit [x], growing the bitmap when
    needed. *)
Definition Set_ (b : Bitmap) (x : N) : Bitmap :=
  let b' := grow b (blkAt x) in
  <[blkAt x := Z.lor (word b' (blkAt x)) (Z.shiftl 1 (bitAt x))]> b'.

(** Modelled from the spec: [Remove] clears bit [x] and never shrinks. *)
Definition Remove (b : Bitmap) (x : N) : Bitmap :=
  if decide (blkAt x < length b)%nat
  then <[blkAt x := Z.ldiff (word b (blkAt x)) (Z.shiftl 1 (bitAt x))]> b
  else b.

(** Modelled from the spec: [Contains] tests bit [x]; a bit past the end of
    the slice is unset. *)
Definition Contains (b : Bitmap) (x : N) : bool :=
  if decide (length b ≤ blkAt x)%nat then false
  else bool_decide (0 < Z.land (word b (blkAt x)) (Z.shiftl 1 (bitAt x))).

(** Modelled from the spec: [Clear] zeroes the words and resizes the slice to
    length zero, keeping its capacity. *)
Definition Clear (b : Bitmap) : Bitmap := [].

(** Modelled from the spec: [Clone] writes a true copy of the receiver into
    the destination. *)
Definition Clone (src into : Bitmap) : Bitmap := src.

(** Modelled from the spec: [And] intersects in place; the result is as long
    as the shorter operand. *)
Definition And (dst other : Bitmap) : Bitmap := zip_with Z.land dst other.

(** Modelled from the spec: [AndNot] is the in-place difference; words the
    other bitmap does not have are left alone. *)
Definition AndNot (dst other : Bitmap) : Bitmap :=
  zip_with Z.ldiff dst (resize (length dst) 0 other).

(** Modelled from the spec: [Or] is the in-place union; the destination grows
    to the length of the longer operand. *)
Definition Or (dst other : Bitmap) : Bitmap :=
  let n := (length dst `max` length other)%nat in
  zip_with Z.lor (resize n 0 dst) (resize n 0 other).

(** Modelled from the spec: the bits of word number [i], in ascending
    order. *)
Definition word_bits (i : nat) (w : Z) : list N :=
  (λ k : nat, N.of_nat (64 * i + k)) <$>
  filter (λ k : nat, Z.testbit w (Z.of_nat k) = true) (seq 0 64).

(** Modelled from the spec: the set bits in the order the iteration visits
    them. *)
Definition elems (b : Bitmap) : list N := mjoin (imap word_bits b).

(** Modelled from the spec: [Count] is the population count. *)
Definition Count (b : Bitmap) : nat := length (elems b).

(** Modelled from the spec: [Max] is the largest set bit, with [false] when
    there is none. *)
Definition Max (b : Bitmap) : N * bool :=
  match list.last (elems b) with
  | Some x => (x, true)
  | None => (0%N, false)
  end.

(** Modelled from the spec: the loop of [Range]; the callback is called on the set bits in ascending
    order and threads the state [S] of its closure; the loop stops as soon as
    the callback returns [false]. *)
Fixpoint iterate {S : Type} (fn : N → S → bool * S) (l : list N) (s : S) : S :=
  match l with
  | [] => s
  | x :: l' =>
      let '(continue, s') := fn x s in
      if continue then iterate fn l' s' else s'
  end.

(** Modelled from the spec: [Range] iterates over the set bits. *)
Definition Range {S : Type} (b : Bitmap) (fn : N → S → bool * S) (s : S) : S :=
  iterate fn (elems b) s.

(** Modelled from the spec: the loop of [Filter] over a predicate that can
    fault ([None]). *)
Fixpoint filter_loop (f : N → option bool) (l : list N) (b : Bitmap)
  : option Bitmap :=
  match l with
  | [] => Some b
  | x :: l' =>
      match f x with
      | None => None
      | Some true => filter_loop f l' b
      | Some false => filter_loop f l' (Remove b x)
      end
  end.

(** Modelled from the spec: [Filter] calls the predicate on every set bit and
    clears the bits on which it returns [false].  A predicate that panics
    aborts the loop. *)
Definition Filter (b : Bitmap) (f : N → option bool) : option Bitmap :=
  filter_loop f (elems b) b.

End bitmap.

Import bitmap.

(** ** Values and update records *)

(** The values that travel through [interface{}]: untyped nil, booleans,
    integers and strings.  Floating-point columns, and with them [WithFloat],
    [FloatAt] and [Cursor.Float], are left out of the embedding. *)
Inductive any : Type :=
  | anyNil
  | anyBool (b : bool)
  | anyInt64 (z : Z)
  | anyString (s : string).

(** The type assertion [v.(string)] in its one-result form: it panics
    ([None]) when the dynamic type is not [string]. *)
Definition assert_string (v : any) : option string :=
  match v with
  | anyString s => Some s
  | _ => None
  end.

(** The two-result form [out, _ = v.(string)]: the zero string on a
    mismatch. *)
Definition assert_string_ok (v : any) : string * bool :=
  match v with
  | anyString s => (s, true)
  | _ => (EmptyString, false)
  end.

Inductive UpdateKind : Type :=
  | UpdatePut  (* Put stores a value regardless of a previous value *)
  | UpdateAdd. (* Add increments the current stored value by the amount *)

Record Update : Type := mkUpdate {
  Kind : UpdateKind;   (* The type of an update operation *)
  Index : N;           (* The index to update/delete *)
  Value : any          (* The value to update to *)
}.

Definition int64 (z : Z) : Z := (z + 2 ^ 63) mod 2 ^ 64 - 2 ^ 63.
Definition uint64 (z : Z) : Z := z mod 2 ^ 64.
Definition int16 (z : Z) : Z := (z + 2 ^ 15) mod 2 ^ 16 - 2 ^ 15.

(** ** Columns *)

(** Modelled from the spec: the [Column] implementations are not part of
    transaction.go.  A column is a typed sequence indexed by row position
    that carries its own presence bitmap; [col_numerical] records whether it
    has the optional numeric capability. *)
Record Column : Type := mkColumn {
  col_numerical : bool;
  col_fill : Bitmap;
  col_data : list any
}.

(** Modelled from the spec: the zero value of the element type. *)
Definition Column_zero (c : Column) : any :=
  if col_numerical c then anyInt64 0 else anyNil.

(** Modelled from the spec: [contains(idx)] reads the presence bit. *)
Definition Column_Contains (c : Column) (idx : N) : bool :=
  Contains (col_fill c) idx.

(** Modelled from the spec: [value(idx)] is the stored value and [true] when
    the row is present, and the zero value and [false] otherwise (as
    [z_numbers_test.go] checks after a delete). *)
Definition Column_Value (c : Column) (idx : N) : any * bool :=
  if Contains (col_fill c) idx
  then (default (Column_zero c) (col_data c !! N.to_nat idx), true)
  else (Column_zero c, false).

(** Modelled from the spec: the numeric capability converts a stored numeric
    value to [int64] or [uint64]. *)
Definition Column_Int64 (c : Column) (idx : N) : Z * bool :=
  match Column_Value c idx with
  | (anyInt64 z, true) => (int64 z, true)
  | _ => (0, false)
  end.

(** Modelled from the spec: the [uint64] conversion of the numeric
    capability. *)
Definition Column_Uint64 (c : Column) (idx : N) : Z * bool :=
  match Column_Value c idx with
  | (anyInt64 z, true) => (uint64 z, true)
  | _ => (0, false)
  end.

(** Modelled from the spec: the type assertion [p.(numerical)], which holds
    for the columns with the numeric capability. *)
Definition as_numerical (c : Column) : option Column :=
  if col_numerical c then Some c else None.

(** Modelled from the spec: [Intersect], [Difference] and [Union] combine the
    column's presence bits into the bitmap of the caller (AND, AND-NOT, OR). *)
Definition Column_Intersect (c : Column) (dst : Bitmap) : Bitmap :=
  And dst (col_fill c).
(** Modelled from the spec: [Difference] is AND-NOT. *)
Definition Column_Difference (c : Column) (dst : Bitmap) : Bitmap :=
  AndNot dst (col_fill c).
(** Modelled from the spec: [Union] is OR. *)
Definition Column_Union (c : Column) (dst : Bitmap) : Bitmap :=
  Or dst (col_fill c).

(** Modelled from the spec: [grow(max_idx)] makes room for row [max_idx]. *)
Definition Column_Grow (c : Column) (idx : N) : Column :=
  let n := S (N.to_nat idx) in
  {| col_numerical := col_numerical c;
     col_fill := grow (col_fill c) (blkAt idx);
     col_data := if decide (length (col_data c) < n)%nat
                 then resize n (Column_zero c) (col_data c) else col_data c |}.

(** Modelled from the spec: [delete_many(bm)] removes the rows of [bm]. *)
Definition Column_DeleteMany (c : Column) (items : Bitmap) : Column :=
  {| col_numerical := col_numerical c;
     col_fill := AndNot (col_fill c) items;
     col_data := col_data c |}.

(** Modelled from the spec: [Add] increments the current stored value by the
    amount; the sum wraps as [int64]. *)
Definition any_add (old amount : any) : any :=
  match old, amount with
  | anyInt64 a, anyInt64 b => anyInt64 (int64 (a + b))
  | _, _ => amount
  end.

(** Modelled from the spec: one record of an update list; the row becomes
    present, [Put] stores the value, [Add] increments the stored value by
    the amount. *)
Definition Column_Update (c : Column) (u : Update) : Column :=
  let c' := Column_Grow c (Index u) in
  let i := N.to_nat (Index u) in
  let v := match Kind u with
           | UpdatePut => Value u
           | UpdateAdd => any_add (fst (Column_Value c (Index u))) (Value u)
           end in
  {| col_numerical := col_numerical c;
     col_fill := Set_ (col_fill c') (Index u);
     col_data := <[i := v]> (col_data c') |}.

(** Modelled from the spec: [update_many] applies an ordered update list. *)
Definition Column_UpdateMany (c : Column) (updates : list Update) : Column :=
  foldl Column_Update c updates.

(** ** The collection *)

(** Modelled from the spec: a [Column] held by the registry or by a
    transaction is a pointer to a shared object, an address in the column
    store of the collection. *)
Definition ColRef := nat.

(** Modelled from the spec: an entry of the registry, a name with the base
    column and any computed columns registered under it. *)
Record columnEntry : Type := mkEntry {
  entry_name : string;
  entry_cols : list ColRef   (* the base column, then the computed ones *)
}.

(** Modelled from the spec: the collection owns the column registry and the
    [fill] bitmap of live rows.  [store] holds the column objects the
    registry points to; the lock is not modelled (one goroutine). *)
Record Collection : Type := mkCollection {
  store : list Column;
  cols : list columnEntry;
  fill : Bitmap
}.

(** Modelled from the spec: reading and writing the column object behind a
    pointer, and writing [fill]. *)
Definition nilColumn : Column := mkColumn false [] [].

Definition deref (owner : Collection) (r : ColRef) : Column :=
  default nilColumn (store owner !! r).

Definition assign (owner : Collection) (r : ColRef) (c : Column) : Collection :=
  {| store := <[r := c]> (store owner); cols := cols owner; fill := fill owner |}.

Definition set_fill (owner : Collection) (b : Bitmap) : Collection :=
  {| store := store owner; cols := cols owner; fill := b |}.

(** Modelled from the spec: the registry is searched by name. *)
Definition lookup_entry (owner : Collection) (columnName : string)
  : option columnEntry :=
  List.find (λ e, bool_decide (entry_name e = columnName)) (cols owner).

(** Modelled from the spec: [column_load(name)] looks up a single column. *)
Definition cols_Load (owner : Collection) (columnName : string)
  : option ColRef :=
  e ← lookup_entry owner columnName; head (entry_cols e).

(** Modelled from the spec: [column_load_with_index(name)] returns the base
    column together with the computed columns registered under the name. *)
Definition cols_LoadWithIndex (owner : Collection) (columnName : string)
  : list ColRef * bool :=
  match lookup_entry owner columnName with
  | Some e => (entry_cols e, true)
  | None => ([], false)
  end.

(** Modelled from the spec: [columns_range(fn)] visits every registered
    column. *)
Definition cols_Range (owner : Collection) : list ColRef :=
  e ← cols owner; entry_cols e.

(** Modelled from the spec: the reserved name of the TTL column. *)
Definition expireColumn : string := "expire".

(** ** Transactions *)

(** Update queue represents a queue per column that contains the pending
    updates. *)
Record updateQueue : Type := mkQueue {
  uq_name : string;         (* The column name *)
  uq_update : list Update   (* The update queue *)
}.

(** columnCache caches a column by its name. *)
Record columnCache : Type := mkCache {
  cc_name : string;   (* The column name *)
  cc_col : ColRef     (* The columns and its computed *)
}.

(** Txn represents a transaction which supports filtering and projection.
    The [owner] pointer is passed to every operation as the current state of
    the collection. *)
Record Txn : Type := mkTxn {
  index : Bitmap;               (* The filtering index *)
  deletes : Bitmap;             (* The delete queue *)
  inserts : Bitmap;             (* The insert queue *)
  updates : list updateQueue;   (* The update queue *)
  columns : list columnCache    (* The column mapping *)
}.

Definition set_index (txn : Txn) (b : Bitmap) : Txn :=
  mkTxn b (deletes txn) (inserts txn) (updates txn) (columns txn).
Definition set_deletes (txn : Txn) (b : Bitmap) : Txn :=
  mkTxn (index txn) b (inserts txn) (updates txn) (columns txn).
Definition set_inserts (txn : Txn) (b : Bitmap) : Txn :=
  mkTxn (index txn) (deletes txn) b (updates txn) (columns txn).
Definition set_updates (txn : Txn) (u : list updateQueue) : Txn :=
  mkTxn (index txn) (deletes txn) (inserts txn) u (columns txn).
Definition set_columns (txn : Txn) (c : list columnCache) : Txn :=
  mkTxn (index txn) (deletes txn) (inserts txn) (updates txn) c.

(** What the pool allocates: empty buffers (with capacity). *)
Definition newTxn : Txn := mkTxn [] [] [] [] [].

(** aquireTxn takes a transaction [txn] out of the pool and binds it to
    [owner]. *)
Definition aquireTxn (owner : Collection) (txn : Txn) : Txn :=
  mkTxn (Clone (fill owner) (index txn)) (deletes txn) (inserts txn)
        (updates txn) [].

(** columnAt loads and caches the column for the transaction. *)
Definition columnAt (owner : Collection) (txn : Txn) (columnName : string)
  : option ColRef * Txn :=
  match List.find (λ v, bool_decide (cc_name v = columnName)) (columns txn) with
  | Some v => (Some (cc_col v), txn)
  | None =>
      match cols_Load owner columnName with
      | None => (None, txn)
      | Some column =>
          (Some column,
           set_columns txn (columns txn ++ [mkCache columnName column]))
      end
  end.

(** One column of [With]: intersect, or clear when the column is missing. *)
Definition with_column (owner : Collection) (txn : Txn) (column : string)
  : Txn :=
  match columnAt owner txn column with
  | (Some idx, txn') =>
      set_index txn' (Column_Intersect (deref owner idx) (index txn'))
  | (None, txn') => set_index txn' (Clear (index txn'))
  end.

(** With applies a logical AND operation to the current query and the
    specified index. *)
Definition With (owner : Collection) (txn : Txn) (column : string)
  (extra : list string) : Txn :=
  foldl (with_column owner) (with_column owner txn column) extra.

Definition without_column (owner : Collection) (txn : Txn) (column : string)
  : Txn :=
  match columnAt owner txn column with
  | (Some idx, txn') =>
      set_index txn' (Column_Difference (deref owner idx) (index txn'))
  | (None, txn') => txn'
  end.

(** Without applies a logical AND NOT operation to the current query and the
    specified index. *)
Definition Without (owner : Collection) (txn : Txn) (column : string)
  (extra : list string) : Txn :=
  foldl (without_column owner) (without_column owner txn column) extra.

Definition union_column (owner : Collection) (txn : Txn) (column : string)
  : Txn :=
  match columnAt owner txn column with
  | (Some idx, txn') =>
      set_index txn' (Column_Union (deref owner idx) (index txn'))
  | (None, txn') => txn'
  end.

(** Union computes a union between the current query and the specified
    index. *)
Definition Union (owner : Collection) (txn : Txn) (column : string)
  (extra : list string) : Txn :=
  foldl (union_column owner) (union_column owner txn column) extra.

(** WithValue applies a filter predicate over values for a specific
    properties.  The predicate is a Go function and can panic ([None]); the
    panic leaves [WithValue]. *)
Definition WithValue (owner : Collection) (txn : Txn) (column : string)
  (predicate : any → option bool) : option Txn :=
  match columnAt owner txn column with
  | (Some p, txn') =>
      b ← Filter (index txn')
            (λ x, let '(v, ok) := Column_Value (deref owner p) x in
                  if ok then predicate v else Some false);
      Some (set_index txn' b)
  | (None, txn') => Some txn'
  end.

(** WithInt filters down the values based on the specified predicate. *)
Definition WithInt (owner : Collection) (txn : Txn) (column : string)
  (predicate : Z → option bool) : option Txn :=
  match columnAt owner txn column with
  | (Some p, txn') =>
      match as_numerical (deref owner p) with
      | Some n =>
          b ← Filter (index txn')
                (λ x, let '(v, ok) := Column_Int64 n x in
                      if ok then predicate v else Some false);
          Some (set_index txn' b)
      | None => Some txn'
      end
  | (None, txn') => Some txn'
  end.

(** WithUint filters down the values based on the specified predicate. *)
Definition WithUint (owner : Collection) (txn : Txn) (column : string)
  (predicate : Z → option bool) : option Txn :=
  match columnAt owner txn column with
  | (Some p, txn') =>
      match as_numerical (deref owner p) with
      | Some n =>
          b ← Filter (index txn')
                (λ x, let '(v, ok) := Column_Uint64 n x in
                      if ok then predicate v else Some false);
          Some (set_index txn' b)
      | None => Some txn'
      end
  | (None, txn') => Some txn'
  end.

(** WithString filters down the values based on the specified predicate:
    [WithValue] over the closure [predicate(v.(string))]. *)
Definition WithString (owner : Collection) (txn : Txn) (column : string)
  (predicate : string → option bool) : option Txn :=
  WithValue owner txn column (λ v, s ← assert_string v; predicate s).

(** Count returns the number of objects matching the query. *)
Definition Count (txn : Txn) : Z := Z.of_nat (bitmap.Count (index txn)).

(** Selector represents a iteration Selector.  Its two pointers are kept as
    flags: a selector that has its transaction points to the transaction the
    model passes alongside, one that has its collection points to the
    collection. *)
Record Selector : Type := mkSelector {
  idx : N;          (* The current index *)
  sel_txn : bool;   (* The (optional) transaction: whether [txn != nil] *)
  sel_col : bool    (* The (optional) collection: whether [col != nil] *)
}.

(** ReadAt returns a selector for a specified index together with a boolean
    value that indicates whether an element is present; [Selector{}]
    otherwise. *)
Definition ReadAt (txn : Txn) (i : N) : Selector * bool :=
  if negb (Contains (index txn) i) then (mkSelector 0 false false, false)
  else (mkSelector i true false, true).

(** DeleteAt attempts to delete an item at the specified index for this
    transaction. *)
Definition DeleteAt (txn : Txn) (i : N) : bool * Txn :=
  if negb (Contains (index txn) i) then (false, txn)
  else (true, set_deletes txn (Set_ (deletes txn) i)).

(** DeleteAll marks all of the items currently selected by this transaction
    for deletion. *)
Definition DeleteAll (txn : Txn) : Txn :=
  set_deletes txn (Or (deletes txn) (index txn)).

(** ** Selectors and cursors *)

(** Cursor represents a iteration Selector that is bound to a specific
    column. *)
Record Cursor : Type := mkCursor {
  cur_sel : Selector;
  cur_update : Z;              (* The index of the update queue (int16) *)
  cur_column : option ColRef   (* The selected column, nil in [Cursor{}] *)
}.

Definition cur_idx (cur : Cursor) : N := idx (cur_sel cur).

(** [cur.idx = x] *)
Definition set_idx (cur : Cursor) (x : N) : Cursor :=
  mkCursor (mkSelector x (sel_txn (cur_sel cur)) (sel_col (cur_sel cur)))
           (cur_update cur) (cur_column cur).

(** columnAt loads the column based on whether the selector has a transaction
    or not.  Without a transaction it loads directly from the collection,
    and faults ([None]) when the selector has no collection either. *)
Definition Selector_columnAt (owner : Collection) (txn : Txn) (sel : Selector)
  (column : string) : option (option ColRef * Txn) :=
  if sel_txn sel then Some (columnAt owner txn column)
  else if sel_col sel then Some (cols_Load owner column, txn)
  else None.

(** ValueAt reads a value for a current row at a given column. *)
Definition Selector_ValueAt (owner : Collection) (txn : Txn) (sel : Selector)
  (column : string) : option (any * Txn) :=
  r ← Selector_columnAt owner txn sel column;
  match r with
  | (Some c, txn') => Some (fst (Column_Value (deref owner c) (idx sel)), txn')
  | (None, txn') => Some (anyNil, txn')
  end.

(** StringAt reads a string value for a current row at a given column. *)
Definition Selector_StringAt (owner : Collection) (txn : Txn) (sel : Selector)
  (column : string) : option (string * Txn) :=
  r ← Selector_columnAt owner txn sel column;
  match r with
  | (Some c, txn') =>
      match Column_Value (deref owner c) (idx sel) with
      | (v, true) => Some (fst (assert_string_ok v), txn')
      | (_, false) => Some (EmptyString, txn')
      end
  | (None, txn') => Some (EmptyString, txn')
  end.

(** IntAt reads an int64 value for a current row at a given column. *)
Definition Selector_IntAt (owner : Collection) (txn : Txn) (sel : Selector)
  (column : string) : option (Z * Txn) :=
  r ← Selector_columnAt owner txn sel column;
  match r with
  | (Some c, txn') =>
      match as_numerical (deref owner c) with
      | Some n => Some (fst (Column_Int64 n (idx sel)), txn')
      | None => Some (0, txn')
      end
  | (None, txn') => Some (0, txn')
  end.

(** UintAt reads a uint64 value for a current row at a given column. *)
Definition Selector_UintAt (owner : Collection) (txn : Txn) (sel : Selector)
  (column : string) : option (Z * Txn) :=
  r ← Selector_columnAt owner txn sel column;
  match r with
  | (Some c, txn') =>
      match as_numerical (deref owner c) with
      | Some n => Some (fst (Column_Uint64 n (idx sel)), txn')
      | None => Some (0, txn')
      end
  | (None, txn') => Some (0, txn')
  end.

(** BoolAt reads a boolean value for a current row at a given column. *)
Definition Selector_BoolAt (owner : Collection) (txn : Txn) (sel : Selector)
  (column : string) : option (bool * Txn) :=
  r ← Selector_columnAt owner txn sel column;
  match r with
  | (Some c, txn') => Some (Column_Contains (deref owner c) (idx sel), txn')
  | (None, txn') => Some (false, txn')
  end.

(** Value reads a value for a current row at the bound column; calling the
    method of the column on a cursor without a column faults. *)
Definition Cursor_Value (owner : Collection) (cur : Cursor) : option any :=
  c ← cur_column cur; Some (fst (Column_Value (deref owner c) (cur_idx cur))).

(** String reads a string value for a current row at the bound column. *)
Definition Cursor_String (owner : Collection) (cur : Cursor) : option string :=
  c ← cur_column cur;
  match Column_Value (deref owner c) (cur_idx cur) with
  | (v, true) => Some (fst (assert_string_ok v))
  | (_, false) => Some EmptyString
  end.

(** Int reads an int64 value for a current row at the bound column; the
    assertion [cur.column.(numerical)] fails softly, also on a cursor without
    a column. *)
Definition Cursor_Int (owner : Collection) (cur : Cursor) : Z :=
  match cur_column cur with
  | Some c =>
      match as_numerical (deref owner c) with
      | Some n => fst (Column_Int64 n (cur_idx cur))
      | None => 0
      end
  | None => 0
  end.

(** Uint reads a uint64 value for a current row at the bound column. *)
Definition Cursor_Uint (owner : Collection) (cur : Cursor) : Z :=
  match cur_column cur with
  | Some c =>
      match as_numerical (deref owner c) with
      | Some n => fst (Column_Uint64 n (cur_idx cur))
      | None => 0
      end
  | None => 0
  end.

(** Bool reads a boolean value for a current row at the bound column. *)
Definition Cursor_Bool (owner : Collection) (cur : Cursor) : option bool :=
  c ← cur_column cur; Some (Column_Contains (deref owner c) (cur_idx cur)).

(** Delete deletes the current item; [cur.txn] is dereferenced, which faults
    on a cursor without a transaction. *)
Definition Cursor_Delete (cur : Cursor) (txn : Txn) : option Txn :=
  if sel_txn (cur_sel cur)
  then Some (set_deletes txn (Set_ (deletes txn) (cur_idx cur)))
  else None.

(** [cur.txn.updates[cur.update].update = append(..., u)]: indexing outside
    the slice panics, and so does a cursor without a transaction. *)
Definition enqueue (cur : Cursor) (u : Update) (txn : Txn) : option Txn :=
  if sel_txn (cur_sel cur) then
    if decide (0 ≤ cur_update cur) then
      let i := Z.to_nat (cur_update cur) in
      q ← updates txn !! i;
      Some (set_updates txn
              (<[i := mkQueue (uq_name q) (uq_update q ++ [u])]> (updates txn)))
    else None
  else None.

(** Update updates a column value for the current item. *)
Definition Cursor_Update (cur : Cursor) (value : any) (txn : Txn)
  : option Txn :=
  enqueue cur (mkUpdate UpdatePut (cur_idx cur) value) txn.

(** Add atomically increments/decrements the current value by the specified
    amount. *)
Definition Cursor_Add (cur : Cursor) (amount : any) (txn : Txn) : option Txn :=
  enqueue cur (mkUpdate UpdateAdd (cur_idx cur) amount) txn.

(** The body shared by [UpdateAt] and [AddAt]: append to the first queue of
    that name, or create a new update queue. *)
Definition enqueueAt (column : string) (u : Update) (txn : Txn) : Txn :=
  match list_find (λ c, uq_name c = column) (updates txn) with
  | Some (i, c) =>
      set_updates txn
        (<[i := mkQueue (uq_name c) (uq_update c ++ [u])]> (updates txn))
  | None => set_updates txn (updates txn ++ [mkQueue column [u]])
  end.

(** UpdateAt updates a specified column value for the current item. *)
Definition Cursor_UpdateAt (cur : Cursor) (column : string) (value : any)
  (txn : Txn) : option Txn :=
  if sel_txn (cur_sel cur)
  then Some (enqueueAt column (mkUpdate UpdatePut (cur_idx cur) value) txn)
  else None.

(** AddAt increments/decrements the column value by the specified amount. *)
Definition Cursor_AddAt (cur : Cursor) (column : string) (amount : any)
  (txn : Txn) : option Txn :=
  if sel_txn (cur_sel cur)
  then Some (enqueueAt column (mkUpdate UpdateAdd (cur_idx cur) amount) txn)
  else None.

(** ** Callbacks *)

(** What a callback does with the handle it is given.  A read resolves its
    column through the selector; the writes are the methods of [Cursor]. *)
Inductive Action : Type :=
  | ActRead (column : string)
  | ActDelete
  | ActUpdate (value : any)
  | ActAdd (amount : any)
  | ActUpdateAt (column : string) (value : any)
  | ActAddAt (column : string) (amount : any).

(** A callback on a selector reads columns and returns a boolean; a callback
    on a cursor also writes.  Both see the collection and the transaction and
    thread the state [S] their closure has captured. *)
Definition SelectorFn (S : Type) : Type :=
  Selector → Collection → Txn → S → list string * bool * S.
Definition CursorFn (S : Type) : Type :=
  Cursor → Collection → Txn → S → list Action * bool * S.

(** The reads of a callback, each through [Selector.columnAt]. *)
Fixpoint read_columns (owner : Collection) (sel : Selector)
  (txn : Txn) (reads : list string) : option Txn :=
  match reads with
  | [] => Some txn
  | c :: reads' =>
      r ← Selector_columnAt owner txn sel c;
      read_columns owner sel r.2 reads'
  end.

Definition act (owner : Collection) (cur : Cursor) (txn : Txn) (a : Action)
  : option Txn :=
  match a with
  | ActRead c => r ← Selector_columnAt owner txn (cur_sel cur) c; Some r.2
  | ActDelete => Cursor_Delete cur txn
  | ActUpdate v => Cursor_Update cur v txn
  | ActAdd v => Cursor_Add cur v txn
  | ActUpdateAt c v => Cursor_UpdateAt cur c v txn
  | ActAddAt c v => Cursor_AddAt cur c v txn
  end.

Fixpoint acts (owner : Collection) (cur : Cursor) (txn : Txn)
  (l : list Action) : option Txn :=
  match l with
  | [] => Some txn
  | a :: l' => txn' ← act owner cur txn a; acts owner cur txn' l'
  end.

(** ** Iteration *)

(** Select iterates over the result set and allows to read any column.  The
    result is [None] when a method of the selector panics inside the
    callback. *)
Definition Select {S : Type} (owner : Collection) (txn : Txn)
  (fn : SelectorFn S) (s : S) : option (Txn * S) :=
  bitmap.Range (index txn)
    (λ x st,
       match st with
       | None => (false, None)
       | Some (t, s) =>
           let v := mkSelector x true false in
           let '(reads, continue, s') := fn v owner t s in
           match read_columns owner v t reads with
           | Some t' => (continue, Some (t', s'))
           | None => (false, None)
           end
       end)
    (Some (txn, s)).

(** DeleteIf iterates over the result set and marks for deletion the elements
    on which the function returns true. *)
Definition DeleteIf {S : Type} (owner : Collection) (txn : Txn)
  (fn : SelectorFn S) (s : S) : option (Txn * S) :=
  bitmap.Range (index txn)
    (λ x st,
       match st with
       | None => (false, None)
       | Some (t, s) =>
           let v := mkSelector x true false in
           let '(reads, del, s') := fn v owner t s in
           match read_columns owner v t reads with
           | Some t' =>
               (true,
                Some (if del then set_deletes t' (Set_ (deletes t') x) else t',
                      s'))
           | None => (false, None)
           end
       end)
    (Some (txn, s)).

Definition error := string.

Definition Errorf (columnName : string) : error :=
  "column: specified column '" +:+ columnName +:+ "' does not exist".

(** cursorFor returns a cursor for a specified column. *)
Definition cursorFor (owner : Collection) (txn : Txn) (columnName : string)
  : Cursor * option error * Txn :=
  match columnAt owner txn columnName with
  | (None, txn') =>
      (mkCursor (mkSelector 0 false false) 0 None,
       Some (Errorf columnName), txn')
  | (Some c, txn') =>
      let '(updateQueueIndex, txn'') :=
        match list_find (λ q, uq_name q = columnName) (updates txn') with
        | Some (i, _) => (Z.of_nat i, txn')
        | None =>
            (Z.of_nat (length (updates txn')),
             set_updates txn' (updates txn' ++ [mkQueue columnName []]))
        end in
      (mkCursor (mkSelector 0 true false) (int16 updateQueueIndex) (Some c),
       None, txn'')
  end.

(** Range selects and iterates over a results for a specific column.  The
    result is [None] when a cursor method panics inside the callback. *)
Definition Range {S : Type} (owner : Collection) (txn : Txn) (column : string)
  (fn : CursorFn S) (s : S) : option (option error * Txn * S) :=
  match cursorFor owner txn column with
  | (_, Some err, txn') => Some (Some err, txn', s)
  | (cur, None, txn') =>
      r ← bitmap.Range (index txn')
            (λ x st,
               match st with
               | None => (false, None)
               | Some (t, s) =>
                   let cur := set_idx cur x in
                   let '(l, continue, s') := fn cur owner t s in
                   match acts owner cur t l with
                   | Some t' => (continue, Some (t', s'))
                   | None => (false, None)
                   end
               end)
            (Some (txn', s));
      Some (None, r.1, r.2)
  end.

(** ** Commit and rollback *)

(** deletePending removes all of the entries marked as to be deleted. *)
Definition deletePending (owner : Collection) (txn : Txn)
  : Collection * Txn :=
  if decide (length (deletes txn) = 0)%nat then (owner, txn)
  else
    let owner1 :=
      foldl (λ o column,
               assign o column (Column_DeleteMany (deref o column) (deletes txn)))
            owner (cols_Range owner) in
    let owner2 := set_fill owner1 (AndNot (fill owner1) (deletes txn)) in
    (owner2, set_deletes txn (Clear (deletes txn))).

(** The inner loop of [updatePending]: apply the queue to a column and its
    computed columns. *)
Definition applyUpdates (txn : Txn) (u : updateQueue) (owner : Collection)
  (columns : list ColRef) : Collection :=
  foldl (λ o v,
           let c := deref o v in
           let c' := match Max (inserts txn) with
                     | (max, true) => Column_Grow c max
                     | (_, false) => c
                     end in
           assign o v (Column_UpdateMany c' (uq_update u)))
        owner columns.

(** One iteration of the loop of [updatePending] on the queue [u]; the
    result is the collection and the queue as the iteration leaves it. *)
Definition updateQueuePending (txn : Txn) (owner : Collection)
  (u : updateQueue) : Collection * updateQueue :=
  if decide (length (uq_update u) = 0)%nat then (owner, u)
  else
    match cols_LoadWithIndex owner (uq_name u) with
    | (columns, exists_) =>
        if negb exists_ || bool_decide (length columns = 0)%nat
        then (owner, u)
        else (applyUpdates txn u owner columns, mkQueue (uq_name u) [])
    end.

Fixpoint updateQueues (txn : Txn) (owner : Collection) (l : list updateQueue)
  : Collection * list updateQueue :=
  match l with
  | [] => (owner, [])
  | u :: l' =>
      let '(owner1, u') := updateQueuePending txn owner u in
      let '(owner2, l'') := updateQueues txn owner1 l' in
      (owner2, u' :: l'')
  end.

(** updatePending updates the pending entries that were modified during the
    query. *)
Definition updatePending (owner : Collection) (txn : Txn)
  : Collection * Txn :=
  let '(owner', l) := updateQueues txn owner (updates txn) in
  (owner', set_updates txn l).

(** insertPending inserts all of the entries marked as to be inserted. *)
Definition insertPending (owner : Collection) (txn : Txn)
  : Collection * Txn :=
  if decide (0 < length (inserts txn))%nat
  then (set_fill owner (Or (fill owner) (inserts txn)),
        set_inserts txn (Clear (inserts txn)))
  else (owner, txn).

(** Commit commits the transaction by applying all pending updates and
    deletes to the collection. *)
Definition Commit (owner : Collection) (txn : Txn) : Collection * Txn :=
  let '(owner1, txn1) := deletePending owner txn in
  let '(owner2, txn2) := updatePending owner1 txn1 in
  insertPending owner2 txn2.

(** Rollback empties the pending update and delete queues and does not apply
    any of the pending updates/deletes. *)
Definition Rollback (txn : Txn) : Txn :=
  mkTxn (index txn) (Clear (deletes txn)) (Clear (inserts txn))
        ((λ q, mkQueue (uq_name q) []) <$> updates txn) (columns txn).

(** ** Inserts and the operations of a transaction *)

(** An object is a Go map; the list gives its entries in the order the
    [range] loop happens to visit them. *)
Abbreviation Object := (list (string * any)).

(** The user-facing operations of a transaction. *)
Inductive Op (S : Type) : Type :=
  | OpWith (column : string) (extra : list string)
  | OpWithout (column : string) (extra : list string)
  | OpUnion (column : string) (extra : list string)
  | OpWithValue (column : string) (predicate : any → option bool)
  | OpWithInt (column : string) (predicate : Z → option bool)
  | OpWithUint (column : string) (predicate : Z → option bool)
  | OpWithString (column : string) (predicate : string → option bool)
  | OpCount
  | OpReadAt (i : N)
  | OpDeleteAt (i : N)
  | OpDeleteIf (fn : SelectorFn S)
  | OpDeleteAll
  | OpInsert (object : Object)
  | OpInsertWithTTL (object : Object) (ttl now : Z)
  | OpSelect (fn : SelectorFn S)
  | OpRange (column : string) (fn : CursorFn S)
  | OpCommit
  | OpRollback.

(** What an operation hands back to its caller. *)
Inductive Result : Type :=
  | ResTxn                                (* the transaction, for chaining *)
  | ResInt (n : Z)
  | ResSelector (v : Selector) (ok : bool)
  | ResBool (b : bool)
  | ResIndex (j : N)
  | ResNone
  | ResError (err : option error).

Record World (S : Type) : Type := mkWorld {
  w_owner : Collection;
  w_txn : Txn;
  w_closure : S
}.

Arguments mkWorld {S}.
Arguments w_owner {S}.
Arguments w_txn {S}.
Arguments w_closure {S}.

Arguments OpWith {S}.
Arguments OpWithout {S}.
Arguments OpUnion {S}.
Arguments OpWithValue {S}.
Arguments OpWithInt {S}.
Arguments OpWithUint {S}.
Arguments OpWithString {S}.
Arguments OpCount {S}.
Arguments OpReadAt {S}.
Arguments OpDeleteAt {S}.
Arguments OpDeleteIf {S}.
Arguments OpDeleteAll {S}.
Arguments OpInsert {S}.
Arguments OpInsertWithTTL {S}.
Arguments OpSelect {S}.
Arguments OpRange {S}.
Arguments OpCommit {S}.
Arguments OpRollback {S}.

Definition with_txn {S : Type} (w : World S) (txn : Txn) : World S :=
  mkWorld (w_owner w) txn (w_closure w).

Section Allocator.

(** [Collection.next] is not part of transaction.go: the allocator of row
    indices is a parameter, returning the reserved index and the collection
    as the call leaves it. *)
Variable next : Collection → N * Collection.

(** insert inserts an object at a new index and returns the index for this
    object. *)
Definition insert (owner : Collection) (txn : Txn) (object : Object)
  (expireAt : Z) : option (N * Collection * Txn) :=
  let '(j, owner') := next owner in
  let slot := mkCursor (mkSelector j true false) 0 None in
  let txn1 := set_inserts txn (Set_ (inserts txn) (cur_idx slot)) in
  txn2 ← foldl (λ r kv,
                  t ← r;
                  match columnAt owner' t kv.1 with
                  | (Some _, t') => Cursor_UpdateAt slot kv.1 kv.2 t'
                  | (None, t') => Some t'
                  end)
               (Some txn1) object;
  txn3 ← (if bool_decide (expireAt ≠ 0)
          then Cursor_UpdateAt slot expireColumn (anyInt64 expireAt) txn2
          else Some txn2);
  Some (cur_idx slot, owner', txn3).

(** Insert inserts an object at a new index. *)
Definition Insert (owner : Collection) (txn : Txn) (object : Object)
  : option (N * Collection * Txn) :=
  insert owner txn object 0.

(** InsertWithTTL also sets the time-to-live of the object; [now] is the
    reading of the clock, in Unix nanoseconds. *)
Definition InsertWithTTL (owner : Collection) (txn : Txn) (object : Object)
  (ttl now : Z) : option (N * Collection * Txn) :=
  insert owner txn object (int64 (now + ttl)).

(** Run one operation; [None] is a panic. *)
Definition exec {S : Type} (op : Op S) (w : World S)
  : option (Result * World S) :=
  let owner := w_owner w in
  let txn := w_txn w in
  match op with
  | OpWith c e => Some (ResTxn, with_txn w (With owner txn c e))
  | OpWithout c e => Some (ResTxn, with_txn w (Without owner txn c e))
  | OpUnion c e => Some (ResTxn, with_txn w (Union owner txn c e))
  | OpWithValue c p => t ← WithValue owner txn c p; Some (ResTxn, with_txn w t)
  | OpWithInt c p => t ← WithInt owner txn c p; Some (ResTxn, with_txn w t)
  | OpWithUint c p => t ← WithUint owner txn c p; Some (ResTxn, with_txn w t)
  | OpWithString c p =>
      t ← WithString owner txn c p; Some (ResTxn, with_txn w t)
  | OpCount => Some (ResInt (Count txn), w)
  | OpReadAt i => let '(v, ok) := ReadAt txn i in Some (ResSelector v ok, w)
  | OpDeleteAt i =>
      let '(ok, t) := DeleteAt txn i in Some (ResBool ok, with_txn w t)
  | OpDeleteIf fn =>
      r ← DeleteIf owner txn fn (w_closure w);
      Some (ResNone, mkWorld owner r.1 r.2)
  | OpDeleteAll => Some (ResNone, with_txn w (DeleteAll txn))
  | OpInsert o =>
      r ← Insert owner txn o;
      Some (ResIndex r.1.1, mkWorld r.1.2 r.2 (w_closure w))
  | OpInsertWithTTL o ttl now =>
      r ← InsertWithTTL owner txn o ttl now;
      Some (ResIndex r.1.1, mkWorld r.1.2 r.2 (w_closure w))
  | OpSelect fn =>
      r ← Select owner txn fn (w_closure w);
      Some (ResNone, mkWorld owner r.1 r.2)
  | OpRange c fn =>
      r ← Range owner txn c fn (w_closure w);
      Some (ResError r.1.1, mkWorld owner r.1.2 r.2)
  | OpCommit =>
      let '(owner', t) := Commit owner txn in
      Some (ResNone, mkWorld owner' t (w_closure w))
  | OpRollback => Some (ResNone, with_txn w (Rollback txn))
  end.

(** Run a sequence of operations, left to right. *)
Fixpoint run {S : Type} (ops : list (Op S)) (w : World S)
  : option (World S) :=
  match ops with
  | [] => Some w
  | op :: ops' => r ← exec op w; run ops' r.2
  end.

End Allocator.

(** Modelled from the spec: [next() → u32] returns an index that is not
    currently set in [fill]; this allocator reuses the lowest such position.
    It is given the collection only and so cannot tell the rows that pending
    inserts have reserved: it instantiates the allocator in the examples,
    which insert at most once between two commits, where the lowest free
    position is not reserved. *)
Definition nextFree (owner : Collection) : N * Collection :=
  let n := (64 * length (fill owner))%nat in
  match list_find (λ k, Contains (fill owner) (N.of_nat k) = false) (seq 0 (S n)) with
  | Some (_, k) => (N.of_nat k, owner)
  | None => (N.of_nat n, owner)
  end.

(** ** Vocabulary of the properties *)

(** The column cache of a transaction agrees with the registry of the
    collection: every cached entry is what [cols.Load] returns for its name.
    [aquireTxn] empties the cache and [columnAt] only appends what it has
    loaded, so this holds as long as the registry is not changed. *)
Definition cache_ok (owner : Collection) (txn : Txn) : Prop :=
  ∀ v, v ∈ columns txn → cols_Load owner (cc_name v) = Some (cc_col v).

(** E(c): the existence bitmap of the column registered under a name. *)
Definition E (owner : Collection) (column : string) : Bitmap :=
  match cols_Load owner column with
  | Some r => col_fill (deref owner r)
  | None => []
  end.

(** The pending updates of a column: the body of the first queue of that
    name. *)
Fixpoint queue_of (column : string) (l : list updateQueue) : list Update :=
  match l with
  | [] => []
  | q :: l' =>
      if decide (uq_name q = column) then uq_update q else queue_of column l'
  end.

(** Whether a column is registered under the name. *)
Definition registered (owner : Collection) (column : string) : bool :=
  bool_decide (is_Some (cols_Load owner column)).

(** The [Put] records an object contributes to the queue of a column. *)
Definition puts (j : N) (column : string) (object : Object) : list Update :=
  (λ kv, mkUpdate UpdatePut j kv.2) <$> filter (λ kv, kv.1 = column) object.

(** What the loop of [updatePending] leaves of a queue. *)
Definition pending_after (owner : Collection) (u : updateQueue) : updateQueue :=
  if decide ((cols_LoadWithIndex owner (uq_name u)).1 = []) then u
  else mkQueue (uq_name u) [].

(** deletes ⊆ index ∪ inserts *)
Definition deletes_covered (txn : Txn) : Prop :=
  ∀ x, Contains (deletes txn) x = true →
       Contains (index txn) x || Contains (inserts txn) x = true.

(** The filters that can only shrink the working bitmap. *)
Definition narrowing {S : Type} (op : Op S) : bool :=
  match op with
  | OpWith _ _ | OpWithout _ _ | OpWithValue _ _ | OpWithInt _ _
  | OpWithUint _ _ | OpWithString _ _ => true
  | _ => false
  end.

(** No row is staged for deletion. *)
Definition none_staged (txn : Txn) : bool :=
  bool_decide (elems (deletes txn) = []).

(** Along a sequence of operations run from [w], every narrowing filter is
    applied while no row is staged for deletion. *)
Fixpoint filters_unstaged {S : Type} (next : Collection → N * Collection)
  (ops : list (Op S)) (w : World S) : bool :=
  match ops with
  | [] => true
  | op :: ops' =>
      (negb (narrowing op) || none_staged (w_txn w)) &&
      match exec next op w with
      | Some (_, w1) => filters_unstaged next ops' w1
      | None => true
      end
  end.

(** The collection of the filter-chain scenario: [active] present at rows
    1, 2, 3, 5, [adult] at 2, 3, 4, 5, and [name] holding a string at rows
    1 to 5, of which rows 2 and 5 start with an A; and a numeric column
    [age] at rows 1 to 5. *)
Definition people : Collection :=
  mkCollection
    [ mkColumn false [46] [];
      mkColumn false [60] [];
      mkColumn false [62]
        [anyNil; anyString "Bob"; anyString "Alice"; anyString "Carol";
         anyString "Dave"; anyString "Anna"];
      mkColumn true [62]
        [anyInt64 0; anyInt64 30; anyInt64 25; anyInt64 41; anyInt64 17;
         anyInt64 52] ]
    [ mkEntry "active" [0%nat]; mkEntry "adult" [1%nat]; mkEntry "name" [2%nat];
      mkEntry "age" [3%nat] ]
    [62].

Definition starts_with_A (s : string) : option bool :=
  match s with
  | String c _ => Some (bool_decide (String c EmptyString = "A"))
  | EmptyString => Some false
  end.

(** A callback that queues an update for a column nobody registered, on the
    first row it is given, and stops. *)
Definition update_ghost : CursorFn unit :=
  λ _ _ _ s, ([ActUpdateAt "ghost" (anyInt64 1)], false, s).

(** The callback of the Add-versus-Put scenario: add 3, put 0, add 2. *)
Definition add_put_add : CursorFn unit :=
  λ _ _ _ s,
    ([ActAdd (anyInt64 3); ActUpdate (anyInt64 0); ActAdd (anyInt64 2)],
     false, s).

(** An empty collection with columns [x] and [y]. *)
Definition empty_xy : Collection :=
  mkCollection [mkColumn true [] []; mkColumn false [] []]
               [mkEntry "x" [0%nat]; mkEntry "y" [1%nat]] [].

(** A collection with one numeric column [n] holding 5 at row 0. *)
Definition counter : Collection :=
  mkCollection [mkColumn true [1] [anyInt64 5]] [mkEntry "n" [0%nat]] [1].

(** A collection without columns whose rows 0 to 99 are live. *)
Definition hundred : Collection :=
  mkCollection [] [] [2 ^ 64 - 1; 2 ^ 36 - 1].

(** A row is staged both for deletion and for insertion at index 0, which
    another transaction has already removed from [fill]. *)
Definition replaced_owner : Collection := mkCollection [] [] [0].
Definition replaced_txn : Txn := mkTxn [1] [1] [1] [] [].

(** ** Vocabulary of the further properties *)

(** What a value filter keeps of a row: the predicate on the value the
    column holds there, and nothing when the row is absent from the column. *)
Definition keeps_value (owner : Collection) (column : string)
  (p : any → bool) (x : N) : bool :=
  match cols_Load owner column with
  | Some r =>
      match Column_Value (deref owner r) x with
      | (v, true) => p v
      | (_, false) => false
      end
  | None => true
  end.

(** What a numeric filter keeps of a row, [conv] being [Column_Int64] or
    [Column_Uint64]: every row when the column is missing or not numerical. *)
Definition keeps_number (owner : Collection) (column : string)
  (conv : Column → N → Z * bool) (p : Z → bool) (x : N) : bool :=
  match cols_Load owner column with
  | Some r =>
      if col_numerical (deref owner r) then
        match conv (deref owner r) x with
        | (v, true) => p v
        | (_, false) => false
        end
      else true
  | None => true
  end.

(** The callback [fn] traced: beside the state of its closure it records
    the selectors it is called on and what it answers. *)
Definition traced {S : Type} (fn : SelectorFn S)
  : SelectorFn (S * list (Selector * bool)) :=
  λ v owner txn st,
    let '(reads, b, s') := fn v owner txn st.1 in
    (reads, b, (s', st.2 ++ [(v, b)])).

(** A callback that reads the column [name] and goes on, and one that
    reads the column [n]. *)
Definition read_name : SelectorFn unit :=
  λ _ _ _ s, (["name"], true, s).

Definition read_n : SelectorFn unit :=
  λ _ _ _ s, (["n"], true, s).

(** A callback that reads the column [name] and answers whether the row is
    even. *)
Definition read_name_even : SelectorFn unit :=
  λ v _ _ s, (["name"], N.even (idx v), s).

(** No deletes, no inserts, and every update queue empty. *)
Definition nothing_pending (txn : Txn) : Prop :=
  deletes txn = [] ∧ inserts txn = [] ∧
  Forall (λ q, uq_update q = []) (updates txn).

(** At most one update queue per column name. *)
Definition queue_names_unique (txn : Txn) : Prop :=
  NoDup (uq_name <$> updates txn).

Definition is_union {S : Type} (op : Op S) : bool :=
  match op with
  | OpUnion _ _ => true
  | _ => false
  end.

(** 32768 update queues, none of them for the column [name]. *)
Definition many_queues : Txn :=
  mkTxn [62] [] [] (replicate (2 ^ 15) (mkQueue "q" [])) [].

(** The rows of the second working bitmap are rows of the first. *)
Definition index_within (txn txn' : Txn) : Prop :=
  ∀ x, Contains (index txn') x = true → Contains (index txn) x = true.

(** The predicate of the examples on values: the string "Bob". *)
Definition is_bob (v : any) : bool :=
  match v with
  | anyString s => bool_decide (s = "Bob")
  | _ => false
  end.

(** The predicate of the examples on numbers: at least 18. *)
Definition is_adult (v : Z) : bool := bool_decide (18 ≤ v).

(** * Properties *)

(** ** Facts about the bitmap *)

Lemma bitAt_range x : 0 ≤ bitAt x < 64.
Proof.
  unfold bitAt. split; [apply N2Z.is_nonneg|].
  change 64 with (Z.of_N 64). apply N2Z.inj_lt. by apply N.mod_upper_bound.
Qed.

Lemma blkAt_bitAt_inj x y : blkAt x = blkAt y → bitAt x = bitAt y → x = y.
Proof.
  unfold blkAt, bitAt. intros Hb Hk.
  rewrite !N.shiftr_div_pow2 in Hb. apply N2Nat.inj in Hb.
  apply N2Z.inj in Hk.
  change (2 ^ 6)%N with 64%N in Hb.
  rewrite (N.div_mod x 64), (N.div_mod y 64) by done.
  by rewrite Hb, Hk.
Qed.

Lemma land_bit_pos w k : 0 ≤ k → 0 < Z.land w (Z.shiftl 1 k) ↔ Z.testbit w k = true.
Proof.
  intros Hk. rewrite Z.shiftl_1_l.
  assert (Z.land w (2 ^ k) = if Z.testbit w k then 2 ^ k else 0) as ->.
  { apply Z.bits_inj'. intros n Hn. rewrite Z.land_spec.
    destruct (decide (n = k)) as [->|Hne].
    - destruct (Z.testbit w k) eqn:E; rewrite ?E, ?Z.pow2_bits_true, ?Z.bits_0 by lia; done.
    - rewrite Z.pow2_bits_false by lia. rewrite andb_false_r.
      destruct (Z.testbit w k); by rewrite ?Z.pow2_bits_false, ?Z.bits_0 by lia. }
  destruct (Z.testbit w k); [|split; [lia|done]].
  split; [done|]. intros _. apply Z.pow_pos_nonneg; lia.
Qed.

Lemma word_ge (b : Bitmap) k : (length b ≤ k)%nat → word b k = 0.
Proof. intros H. unfold word. by rewrite lookup_ge_None_2. Qed.

Lemma Contains_testbit b x :
  Contains b x = Z.testbit (word b (blkAt x)) (bitAt x).
Proof.
  unfold Contains. case_decide as Hlen.
  - rewrite word_ge by done. by rewrite Z.bits_0.
  - pose proof (bitAt_range x).
    destruct (Z.testbit _ _) eqn:E.
    + apply bool_decide_eq_true. apply land_bit_pos; [lia|done].
    + apply bool_decide_eq_false. rewrite land_bit_pos by lia. congruence.
Qed.

Lemma Contains_nil x : Contains [] x = false.
Proof. done. Qed.

Lemma word_zip_with (f : Z → Z → Z) (a b : Bitmap) k :
  length a = length b → f 0 0 = 0 →
  word (zip_with f a b) k = f (word a k) (word b k).
Proof.
  intros Hlen Hf. unfold word. rewrite lookup_zip_with.
  destruct (a !! k) as [x|] eqn:Ea; simpl.
  - destruct (b !! k) as [y|] eqn:Eb; simpl; [done|].
    apply lookup_lt_Some in Ea. apply lookup_ge_None in Eb. lia.
  - destruct (b !! k) as [y|] eqn:Eb; simpl; [|done].
    apply lookup_lt_Some in Eb. apply lookup_ge_None in Ea. lia.
Qed.

Lemma word_resize (b : Bitmap) n k :
  (length b ≤ n)%nat → word (resize n 0 b) k = word b k.
Proof.
  intros Hn. unfold word.
  destruct (decide (k < length b)%nat).
  - by rewrite lookup_resize by lia.
  - rewrite (lookup_ge_None_2 b) by lia.
    destruct (decide (k < n)%nat).
    + by rewrite lookup_resize_new by lia.
    + by rewrite lookup_ge_None_2 by (rewrite length_resize; lia).
Qed.

Lemma word_resize_lt (b : Bitmap) n k :
  (k < n)%nat → word (resize n 0 b) k = word b k.
Proof.
  intros Hn. unfold word.
  destruct (decide (k < length b)%nat).
  - by rewrite lookup_resize by lia.
  - rewrite (lookup_ge_None_2 b) by lia.
    by rewrite lookup_resize_new by lia.
Qed.

Lemma word_grow b blk k : word (grow b blk) k = word b k.
Proof.
  unfold grow. case_decide; [|done]. apply word_resize. lia.
Qed.

Lemma length_grow b blk : (blk < length (grow b blk))%nat.
Proof.
  unfold grow. case_decide; [rewrite length_resize|]; lia.
Qed.

Lemma word_insert (b : Bitmap) i w k :
  (i < length b)%nat →
  word (<[i := w]> b) k = if decide (k = i) then w else word b k.
Proof.
  intros Hi. unfold word. case_decide as E.
  - subst. by rewrite list_lookup_insert_eq.
  - by rewrite list_lookup_insert_ne.
Qed.

Lemma word_Set b i k :
  word (Set_ b i) k =
  if decide (k = blkAt i) then Z.lor (word b k) (Z.shiftl 1 (bitAt i))
  else word b k.
Proof.
  unfold Set_. rewrite word_insert by apply length_grow.
  case_decide; subst; by rewrite word_grow.
Qed.

Lemma word_Remove b i k :
  word (Remove b i) k =
  if decide (k = blkAt i) then Z.ldiff (word b k) (Z.shiftl 1 (bitAt i))
  else word b k.
Proof.
  unfold Remove. case_decide as Hlen.
  - rewrite word_insert by done. by case_decide; subst.
  - case_decide; [subst|done]. rewrite word_ge by lia. by rewrite Z.ldiff_0_l.
Qed.

Lemma word_And a b k : word (And a b) k = Z.land (word a k) (word b k).
Proof.
  unfold And, word. rewrite lookup_zip_with.
  destruct (a !! k); simpl; [|done].
  destruct (b !! k); simpl; [done|]. by rewrite Z.land_0_r.
Qed.

Lemma word_AndNot a b k : word (AndNot a b) k = Z.ldiff (word a k) (word b k).
Proof.
  unfold AndNot.
  rewrite word_zip_with by (by rewrite ?length_resize).
  destruct (decide (k < length a)%nat).
  - by rewrite word_resize_lt.
  - rewrite (word_ge a) by lia. by rewrite !Z.ldiff_0_l.
Qed.

Lemma word_Or a b k : word (Or a b) k = Z.lor (word a k) (word b k).
Proof.
  unfold Or. rewrite word_zip_with by (by rewrite ?length_resize).
  by rewrite !word_resize by lia.
Qed.

Lemma testbit_bit k i :
  0 ≤ k → 0 ≤ i → Z.testbit (Z.shiftl 1 i) k = bool_decide (k = i).
Proof.
  intros Hk Hi. rewrite Z.shiftl_1_l. case_bool_decide; subst.
  - by apply Z.pow2_bits_true.
  - apply Z.pow2_bits_false. lia.
Qed.

Lemma Contains_Set b i x :
  Contains (Set_ b i) x = bool_decide (x = i) || Contains b x.
Proof.
  rewrite !Contains_testbit, word_Set.
  pose proof (bitAt_range x). pose proof (bitAt_range i).
  case_decide as Hblk.
  - rewrite Z.lor_spec, testbit_bit by lia.
    rewrite orb_comm. f_equal.
    apply bool_decide_ext. split; [|by intros ->].
    intros Hbit. by apply blkAt_bitAt_inj.
  - rewrite bool_decide_eq_false_2; [done|]. by intros ->.
Qed.

Lemma Contains_Remove b i x :
  Contains (Remove b i) x = negb (bool_decide (x = i)) && Contains b x.
Proof.
  rewrite !Contains_testbit, word_Remove.
  pose proof (bitAt_range x). pose proof (bitAt_range i).
  case_decide as Hblk.
  - rewrite Z.ldiff_spec, testbit_bit by lia.
    rewrite andb_comm. do 2 f_equal.
    apply bool_decide_ext. split; [|by intros ->].
    intros Hbit. by apply blkAt_bitAt_inj.
  - rewrite bool_decide_eq_false_2; [done|]. by intros ->.
Qed.

Lemma Contains_And a b x : Contains (And a b) x = Contains a x && Contains b x.
Proof. by rewrite !Contains_testbit, word_And, Z.land_spec. Qed.

Lemma Contains_AndNot a b x :
  Contains (AndNot a b) x = Contains a x && negb (Contains b x).
Proof. by rewrite !Contains_testbit, word_AndNot, Z.ldiff_spec. Qed.

Lemma Contains_Or a b x : Contains (Or a b) x = Contains a x || Contains b x.
Proof. by rewrite !Contains_testbit, word_Or, Z.lor_spec. Qed.

Lemma Contains_grow b blk x : Contains (grow b blk) x = Contains b x.
Proof. by rewrite !Contains_testbit, word_grow. Qed.

Lemma blkAt_of_nat i k : (k < 64)%nat → blkAt (N.of_nat (64 * i + k)) = i.
Proof.
  intros Hk. unfold blkAt. rewrite N.shiftr_div_pow2.
  change (2 ^ 6)%N with 64%N.
  assert (N.of_nat (64 * i + k) `div` 64 = N.of_nat i)%N as ->; [|lia].
  symmetry. apply (N.div_unique _ _ _ (N.of_nat k)); lia.
Qed.

Lemma bitAt_of_nat i k : (k < 64)%nat → bitAt (N.of_nat (64 * i + k)) = Z.of_nat k.
Proof.
  intros Hk. unfold bitAt.
  assert (N.of_nat (64 * i + k) `mod` 64 = N.of_nat k)%N as ->; [|lia].
  symmetry. apply (N.mod_unique _ _ (N.of_nat i)); lia.
Qed.

Lemma blkAt_bitAt_eq x : x = N.of_nat (64 * blkAt x + Z.to_nat (bitAt x)).
Proof.
  pose proof (bitAt_range x).
  apply blkAt_bitAt_inj.
  - rewrite blkAt_of_nat; [done|lia].
  - rewrite bitAt_of_nat; lia.
Qed.

Lemma elem_of_word_bits x i w :
  x ∈ word_bits i w ↔ blkAt x = i ∧ Z.testbit w (bitAt x) = true.
Proof.
  unfold word_bits. rewrite list_elem_of_fmap. split.
  - intros (k & -> & Hk). apply list_elem_of_filter in Hk as [Hbit Hk].
    apply elem_of_seq in Hk.
    rewrite blkAt_of_nat, bitAt_of_nat by lia. done.
  - intros [<- Hbit]. pose proof (bitAt_range x).
    exists (Z.to_nat (bitAt x)). split; [apply blkAt_bitAt_eq|].
    apply list_elem_of_filter. split.
    + by rewrite Z2Nat.id by lia.
    + apply elem_of_seq. lia.
Qed.

Lemma elem_of_elems b x : x ∈ elems b ↔ Contains b x = true.
Proof.
  unfold elems. rewrite Contains_testbit, list_elem_of_join. split.
  - intros (l & Hx & Hl). apply elem_of_lookup_imap in Hl as (i & w & -> & Hw).
    apply elem_of_word_bits in Hx as [<- Hbit].
    unfold word. by rewrite Hw.
  - intros Hbit. unfold word in Hbit.
    destruct (b !! blkAt x) as [w|] eqn:Hw; simpl in Hbit.
    + exists (word_bits (blkAt x) w). split.
      * by apply elem_of_word_bits.
      * apply elem_of_lookup_imap. eauto.
    + by rewrite Z.bits_0 in Hbit.
Qed.

Lemma not_elem_of_elems b x : x ∉ elems b ↔ Contains b x = false.
Proof. rewrite elem_of_elems. by destruct (Contains b x). Qed.

Lemma Count_0 b : bitmap.Count b = 0%nat ↔ ∀ x, Contains b x = false.
Proof.
  unfold bitmap.Count. rewrite length_zero_iff_nil. split.
  - intros Hnil x. apply not_elem_of_elems. rewrite Hnil. apply not_elem_of_nil.
  - intros Hall. destruct (elems b) as [|x l] eqn:E; [done|].
    specialize (Hall x). apply not_elem_of_elems in Hall.
    rewrite E in Hall. set_solver.
Qed.

Lemma filter_loop_Some f l b :
  (∀ x, x ∈ l → is_Some (f x)) → is_Some (filter_loop f l b).
Proof.
  revert b. induction l as [|x l IH]; intros b Hf; simpl; [by eexists|].
  destruct (Hf x) as [[] ->]; [by left| |]; apply IH; set_solver.
Qed.

Lemma filter_loop_None f l b x :
  x ∈ l → f x = None → filter_loop f l b = None.
Proof.
  revert b. induction l as [|y l IH]; intros b Hx Hf;
    [by apply elem_of_nil in Hx|].
  simpl. apply elem_of_cons in Hx as [->|Hx]; [by rewrite Hf|].
  destruct (f y) as [[]|] eqn:E; [| |done]; by apply IH.
Qed.

Lemma filter_loop_inv f l b b' :
  filter_loop f l b = Some b' → ∀ x, x ∈ l → is_Some (f x).
Proof.
  intros Hb x Hx. destruct (f x) eqn:E; [by eexists|].
  by rewrite (filter_loop_None f l b x) in Hb.
Qed.

Lemma filter_loop_Contains f l b b' x :
  filter_loop f l b = Some b' →
  Contains b' x =
  Contains b x && negb (bool_decide (x ∈ l ∧ f x = Some false)).
Proof.
  revert b. induction l as [|y l IH]; intros b Hb; simpl in Hb.
  - simplify_eq. rewrite bool_decide_eq_false_2; [by rewrite andb_true_r|].
    intros [Hx _]. by apply elem_of_nil in Hx.
  - destruct (f y) as [[]|] eqn:E; [| |done].
    + rewrite (IH _ Hb). do 2 f_equal. apply bool_decide_ext.
      split; [intros [Hx Hf]; split; [by right|done]|].
      intros [Hx Hf]. split; [|done].
      apply elem_of_cons in Hx as [->|]; [congruence|done].
    + rewrite (IH _ Hb), Contains_Remove.
      destruct (decide (x = y)) as [->|Hne].
      * rewrite bool_decide_eq_true_2 by done. simpl.
        rewrite (bool_decide_eq_true_2 (_ ∧ _)); [by rewrite andb_false_r|].
        split; [by left|done].
      * rewrite (bool_decide_eq_false_2 (x = y)) by done. simpl.
        do 2 f_equal. apply bool_decide_ext.
        rewrite elem_of_cons. split; [intros [Hx Hf]; by auto|].
        by intros [[?|?] ?].
Qed.

Lemma Filter_Contains b f b' x :
  Filter b f = Some b' →
  Contains b' x = Contains b x && bool_decide (f x = Some true).
Proof.
  intros Hb. rewrite (filter_loop_Contains _ _ _ _ x Hb).
  destruct (Contains b x) eqn:Hx; [simpl|done].
  apply elem_of_elems in Hx.
  destruct (filter_loop_inv _ _ _ _ Hb x Hx) as [[] Hf]; rewrite Hf.
  - rewrite bool_decide_eq_false_2 by (intros [_ ?]; congruence).
    by rewrite bool_decide_eq_true_2.
  - rewrite bool_decide_eq_true_2 by done.
    by rewrite bool_decide_eq_false_2.
Qed.

Lemma Filter_Some b f :
  (∀ x, Contains b x = true → is_Some (f x)) → is_Some (Filter b f).
Proof.
  intros Hf. apply filter_loop_Some. intros x Hx. apply Hf.
  by apply elem_of_elems.
Qed.

Lemma Filter_None b f x :
  Contains b x = true → f x = None → Filter b f = None.
Proof.
  intros Hx. apply filter_loop_None. by apply elem_of_elems.
Qed.

(** ** Frame lemmas for the column store *)

Lemma fill_assign owner r c : fill (assign owner r c) = fill owner.
Proof. done. Qed.

Lemma cols_assign owner r c : cols (assign owner r c) = cols owner.
Proof. done. Qed.

Lemma foldl_assign_frame {A} (f : Collection → A → ColRef * Column) l owner :
  let owner' := foldl (λ o a, assign o (f o a).1 (f o a).2) owner l in
  fill owner' = fill owner ∧ cols owner' = cols owner.
Proof.
  revert owner. induction l as [|a l IH]; intros owner; simpl; [done|].
  destruct (IH (assign owner (f owner a).1 (f owner a).2)) as [-> ->]. done.
Qed.

Lemma deletePending_index owner txn :
  index (deletePending owner txn).2 = index txn.
Proof. unfold deletePending. by case_decide. Qed.

Lemma deletePending_deletes owner txn : deletes (deletePending owner txn).2 = [].
Proof.
  unfold deletePending. case_decide as H; simpl; [|done].
  by apply length_zero_iff_nil.
Qed.

Lemma deletePending_inserts owner txn :
  inserts (deletePending owner txn).2 = inserts txn.
Proof. unfold deletePending. by case_decide. Qed.

Lemma deletePending_updates owner txn :
  updates (deletePending owner txn).2 = updates txn.
Proof. unfold deletePending. by case_decide. Qed.

Lemma deletePending_columns owner txn :
  columns (deletePending owner txn).2 = columns txn.
Proof. unfold deletePending. by case_decide. Qed.

Lemma deletePending_cols owner txn :
  cols (deletePending owner txn).1 = cols owner.
Proof.
  unfold deletePending. case_decide; simpl; [done|].
  apply (foldl_assign_frame
           (λ o r, (r, Column_DeleteMany (deref o r) (deletes txn)))).
Qed.

Lemma deletePending_fill owner txn x :
  Contains (fill (deletePending owner txn).1) x =
  Contains (fill owner) x && negb (Contains (deletes txn) x).
Proof.
  unfold deletePending. case_decide as H; simpl.
  - apply length_zero_iff_nil in H. rewrite H. simpl. by rewrite andb_true_r.
  - rewrite Contains_AndNot. do 2 f_equal.
    apply (foldl_assign_frame
             (λ o r, (r, Column_DeleteMany (deref o r) (deletes txn)))).
Qed.

Lemma applyUpdates_frame txn u owner l :
  fill (applyUpdates txn u owner l) = fill owner ∧
  cols (applyUpdates txn u owner l) = cols owner.
Proof.
  apply (foldl_assign_frame
    (λ o v, (v, Column_UpdateMany
                  match Max (inserts txn) with
                  | (max, true) => Column_Grow (deref o v) max
                  | (_, false) => deref o v
                  end (uq_update u)))).
Qed.

Lemma updateQueuePending_frame txn owner u :
  fill (updateQueuePending txn owner u).1 = fill owner ∧
  cols (updateQueuePending txn owner u).1 = cols owner.
Proof.
  unfold updateQueuePending. case_decide; [done|].
  destruct (cols_LoadWithIndex owner (uq_name u)) as [l ex].
  destruct (negb ex || bool_decide (length l = 0%nat)); [done|].
  apply applyUpdates_frame.
Qed.

Lemma updateQueues_frame txn owner l :
  fill (updateQueues txn owner l).1 = fill owner ∧
  cols (updateQueues txn owner l).1 = cols owner.
Proof.
  revert owner. induction l as [|u l IH]; intros owner; simpl; [done|].
  destruct (updateQueuePending txn owner u) as [o1 u'] eqn:E1.
  destruct (updateQueues txn o1 l) as [o2 l'] eqn:E2. simpl.
  specialize (IH o1). rewrite E2 in IH. simpl in IH.
  pose proof (updateQueuePending_frame txn owner u) as H. rewrite E1 in H.
  simpl in H. destruct IH as [-> ->]. done.
Qed.

Lemma updatePending_fill owner txn :
  fill (updatePending owner txn).1 = fill owner.
Proof.
  unfold updatePending.
  pose proof (updateQueues_frame txn owner (updates txn)) as [H _].
  by destruct (updateQueues txn owner (updates txn)).
Qed.

Lemma updatePending_cols owner txn :
  cols (updatePending owner txn).1 = cols owner.
Proof.
  unfold updatePending.
  pose proof (updateQueues_frame txn owner (updates txn)) as [_ H].
  by destruct (updateQueues txn owner (updates txn)).
Qed.

Lemma updatePending_txn owner txn :
  (updatePending owner txn).2 =
  set_updates txn (updateQueues txn owner (updates txn)).2.
Proof.
  unfold updatePending. by destruct (updateQueues txn owner (updates txn)).
Qed.

Lemma insertPending_fill owner txn x :
  Contains (fill (insertPending owner txn).1) x =
  Contains (fill owner) x || Contains (inserts txn) x.
Proof.
  unfold insertPending. case_decide as H; simpl.
  - by rewrite Contains_Or.
  - destruct (inserts txn); [by rewrite orb_false_r|simpl in H; lia].
Qed.

Lemma insertPending_inserts owner txn : inserts (insertPending owner txn).2 = [].
Proof.
  unfold insertPending. case_decide as H; simpl; [done|].
  destruct (inserts txn); [done|simpl in H; lia].
Qed.

Lemma insertPending_frame owner txn :
  let txn' := (insertPending owner txn).2 in
  index txn' = index txn ∧ deletes txn' = deletes txn ∧
  updates txn' = updates txn ∧ columns txn' = columns txn.
Proof. unfold insertPending. by case_decide. Qed.

Lemma insertPending_cols owner txn :
  cols (insertPending owner txn).1 = cols owner.
Proof. unfold insertPending. by case_decide. Qed.

(** The three phases, one after the other. *)
Lemma Commit_phases owner txn :
  Commit owner txn =
  insertPending
    (updatePending (deletePending owner txn).1 (deletePending owner txn).2).1
    (updatePending (deletePending owner txn).1 (deletePending owner txn).2).2.
Proof.
  unfold Commit. destruct (deletePending owner txn) as [o1 t1]. simpl.
  by destruct (updatePending o1 t1) as [o2 t2].
Qed.

Lemma Commit_index owner txn : index (Commit owner txn).2 = index txn.
Proof.
  rewrite Commit_phases.
  destruct (insertPending_frame
    (updatePending (deletePending owner txn).1 (deletePending owner txn).2).1
    (updatePending (deletePending owner txn).1 (deletePending owner txn).2).2)
    as (-> & _).
  rewrite updatePending_txn. simpl. apply deletePending_index.
Qed.

Lemma Commit_deletes owner txn : deletes (Commit owner txn).2 = [].
Proof.
  rewrite Commit_phases.
  destruct (insertPending_frame
    (updatePending (deletePending owner txn).1 (deletePending owner txn).2).1
    (updatePending (deletePending owner txn).1 (deletePending owner txn).2).2)
    as (_ & -> & _).
  rewrite updatePending_txn. simpl. apply deletePending_deletes.
Qed.

Lemma Commit_inserts owner txn : inserts (Commit owner txn).2 = [].
Proof. rewrite Commit_phases. apply insertPending_inserts. Qed.

Lemma Commit_columns owner txn : columns (Commit owner txn).2 = columns txn.
Proof.
  rewrite Commit_phases.
  destruct (insertPending_frame
    (updatePending (deletePending owner txn).1 (deletePending owner txn).2).1
    (updatePending (deletePending owner txn).1 (deletePending owner txn).2).2)
    as (_ & _ & _ & ->).
  rewrite updatePending_txn. simpl. apply deletePending_columns.
Qed.

Lemma Commit_cols owner txn : cols (Commit owner txn).1 = cols owner.
Proof.
  rewrite Commit_phases, insertPending_cols, updatePending_cols.
  apply deletePending_cols.
Qed.

Lemma Commit_fill owner txn x :
  Contains (fill (Commit owner txn).1) x =
  Contains (fill owner) x && negb (Contains (deletes txn) x)
  || Contains (inserts txn) x.
Proof.
  rewrite Commit_phases, insertPending_fill, updatePending_fill.
  rewrite deletePending_fill, updatePending_txn. simpl.
  by rewrite deletePending_inserts.
Qed.

(** ** Commit *)

(** The state of [replaced_owner] and [replaced_txn] arises from the
    operations themselves: two transactions snapshot a collection holding
    row 0; the second deletes the row and commits; the first then deletes
    row 0 of its snapshot and inserts an object, for which the allocator
    reuses the freed index. *)
Example replaced_row_reached :
  let owner0 := mkCollection [] [] [1] in
  let a := aquireTxn owner0 newTxn in
  let b := aquireTxn owner0 newTxn in
  let '(owner1, _) := Commit owner0 (DeleteAt b 0%N).2 in
  Insert nextFree owner1 (DeleteAt a 0%N).2 [] =
    Some (0%N, replaced_owner, replaced_txn).
Proof. vm_compute. done. Qed.

(** C1, counterexample: a staged delete can be present in [fill] after the
    commit.  Row 0 is in the deletes bitmap and in the inserts bitmap before
    the commit, and in [fill] after it. *)
Lemma Commit_staged_delete_in_fill :
  Contains (deletes replaced_txn) 0%N = true ∧
  Contains (inserts replaced_txn) 0%N = true ∧
  Contains (fill (Commit replaced_owner replaced_txn).1) 0%N = true.
Proof. vm_compute. done. Qed.

(** C1 (as amended): [Commit] runs deletePending, updatePending and
    insertPending in that order; with D and N the deletes and inserts bitmaps
    before the call, afterwards the owner's fill is (fill \ D) ∪ N: every
    staged insert is in fill, every staged delete that is not also a staged
    insert is absent from fill, and the deletes and inserts bitmaps of the
    transaction are empty. *)
Theorem Commit_publishes (owner : Collection) (txn : Txn) :
  let d := deletePending owner txn in
  let u := updatePending d.1 d.2 in
  let owner' := (Commit owner txn).1 in
  let txn' := (Commit owner txn).2 in
  Commit owner txn = insertPending u.1 u.2 ∧
  (∀ x, Contains (fill owner') x =
        Contains (fill owner) x && negb (Contains (deletes txn) x)
        || Contains (inserts txn) x) ∧
  (∀ x, Contains (inserts txn) x = true → Contains (fill owner') x = true) ∧
  (∀ x, Contains (deletes txn) x = true → Contains (inserts txn) x = false →
        Contains (fill owner') x = false) ∧
  deletes txn' = [] ∧ inserts txn' = [].
Proof.
  cbv zeta. split; [apply Commit_phases|].
  split; [apply Commit_fill|].
  repeat split.
  - intros x Hx. by rewrite Commit_fill, Hx, orb_true_r.
  - intros x Hd Hn. by rewrite Commit_fill, Hd, Hn, andb_false_r.
  - apply Commit_deletes.
  - apply Commit_inserts.
Qed.

(** C10: [Commit] leaves the working bitmap of the transaction as it was, so
    a row staged for deletion is still in the working bitmap after the
    commit, and [Count], [ReadAt] and the rows [Select] visits are the same
    as before. *)
Theorem Commit_keeps_index (owner : Collection) (txn : Txn) :
  let txn' := (Commit owner txn).2 in
  index txn' = index txn ∧
  (∀ x, Contains (deletes txn) x && Contains (index txn) x = true →
        Contains (index txn') x = true) ∧
  Count txn' = Count txn ∧
  (∀ i, ReadAt txn' i = ReadAt txn i) ∧
  elems (index txn') = elems (index txn).
Proof.
  cbv zeta. pose proof (Commit_index owner txn) as H.
  unfold Count, ReadAt. rewrite H. split_and!; try done.
  intros x Hx. by apply andb_true_iff in Hx as [_ ->].
Qed.

(** ** DeleteAt *)

(** C9: [DeleteAt i] returns whether [i] is in the working bitmap; when it
    is, bit [i] is set in the deletes bitmap and no other bit changes; when
    it is not, the transaction is unchanged, also when [i] is in the inserts
    bitmap. *)
Theorem DeleteAt_spec (txn : Txn) (i : N) :
  let ok := (DeleteAt txn i).1 in
  let txn' := (DeleteAt txn i).2 in
  ok = Contains (index txn) i ∧
  (∀ x, Contains (deletes txn') x =
        ok && bool_decide (x = i) || Contains (deletes txn) x) ∧
  (ok = true → Contains (deletes txn') i = true) ∧
  (ok = false → txn' = txn) ∧
  (Contains (inserts txn) i = true → Contains (index txn) i = false →
   ok = false ∧ deletes txn' = deletes txn) ∧
  index txn' = index txn ∧ inserts txn' = inserts txn ∧
  updates txn' = updates txn.
Proof.
  cbv zeta. unfold DeleteAt.
  destruct (Contains (index txn) i) eqn:Hi; simpl.
  - repeat split; try done.
    + intros x. apply Contains_Set.
    + intros _. rewrite Contains_Set. by rewrite bool_decide_eq_true_2.
  - repeat split; done.
Qed.

(** ** Rollback *)

(** C6: [Rollback] empties the deletes bitmap, the inserts bitmap and the
    body of every update queue, keeps the queues with their names in their
    order, and leaves the working bitmap (and the column cache) unchanged;
    a second rollback changes nothing. *)
Theorem Rollback_spec (txn : Txn) :
  let txn' := Rollback txn in
  deletes txn' = [] ∧ inserts txn' = [] ∧
  uq_name <$> updates txn' = uq_name <$> updates txn ∧
  (∀ q, q ∈ updates txn' → uq_update q = []) ∧
  index txn' = index txn ∧ columns txn' = columns txn ∧
  Rollback (Rollback txn) = Rollback txn.
Proof.
  cbv zeta. unfold Rollback. simpl. repeat split.
  - rewrite <- list_fmap_compose. by apply list_fmap_ext.
  - intros q Hq. apply list_elem_of_fmap in Hq as (q' & -> & _). done.
  - f_equal. rewrite <- list_fmap_compose. by apply list_fmap_ext.
Qed.

(** ** The column cache *)

Lemma columnAt_frame owner txn c :
  let txn' := (columnAt owner txn c).2 in
  index txn' = index txn ∧ deletes txn' = deletes txn ∧
  inserts txn' = inserts txn ∧ updates txn' = updates txn.
Proof.
  unfold columnAt. destruct (List.find _ _); [done|].
  by destruct (cols_Load owner c).
Qed.

Lemma columnAt_None owner txn c :
  (columnAt owner txn c).1 = None → (columnAt owner txn c).2 = txn.
Proof.
  unfold columnAt. destruct (List.find _ _); [done|].
  by destruct (cols_Load owner c).
Qed.

Lemma columnAt_cache owner txn c :
  cache_ok owner txn →
  (columnAt owner txn c).1 = cols_Load owner c ∧
  cache_ok owner (columnAt owner txn c).2.
Proof.
  intros Hok. unfold columnAt.
  destruct (List.find _ _) as [v|] eqn:Hfind.
  - apply find_some in Hfind as [Hin Hname].
    apply bool_decide_eq_true in Hname. subst c. simpl. split; [|done].
    symmetry. apply Hok. by apply list_elem_of_In.
  - destruct (cols_Load owner c) as [r|] eqn:Hload; simpl; [|done].
    split; [done|]. intros v Hv. simpl in Hv.
    apply elem_of_app in Hv as [Hv|Hv]; [by apply Hok|].
    apply list_elem_of_singleton in Hv. by subst v.
Qed.

Lemma cache_ok_cols owner owner' txn :
  cols owner' = cols owner → cache_ok owner txn → cache_ok owner' txn.
Proof.
  intros Hc Hok v Hv. specialize (Hok v Hv).
  unfold cols_Load, lookup_entry in *. by rewrite Hc.
Qed.

Lemma cache_ok_columns owner txn txn' :
  columns txn' = columns txn → cache_ok owner txn → cache_ok owner txn'.
Proof. intros Hc Hok v Hv. apply Hok. by rewrite <- Hc. Qed.

Lemma cache_ok_nil owner txn : columns txn = [] → cache_ok owner txn.
Proof. intros H v Hv. rewrite H in Hv. by apply elem_of_nil in Hv. Qed.

Lemma cache_ok_aquire owner txn : cache_ok owner (aquireTxn owner txn).
Proof. intros v Hv. simpl in Hv. by apply elem_of_nil in Hv. Qed.

(** ** With *)

Lemma with_column_spec owner txn c :
  cache_ok owner txn →
  let txn' := with_column owner txn c in
  cache_ok owner txn' ∧
  (∀ x, Contains (index txn') x =
        Contains (index txn) x && Contains (E owner c) x) ∧
  (cols_Load owner c = None → index txn' = []) ∧
  (index txn = [] → index txn' = []) ∧
  deletes txn' = deletes txn ∧ inserts txn' = inserts txn ∧
  updates txn' = updates txn.
Proof.
  intros Hok. cbv zeta. unfold with_column, E.
  destruct (columnAt_cache owner txn c Hok) as [Hc Hok'].
  destruct (columnAt_frame owner txn c) as (Hi & Hd & Hn & Hu).
  destruct (columnAt owner txn c) as [[r|] t]; simpl in *; rewrite <- Hc.
  - split_and!; try done.
    + intros x. unfold Column_Intersect. by rewrite Contains_And, Hi.
    + intros Hnil. unfold Column_Intersect. by rewrite Hi, Hnil.
  - split_and!; try done. intros x. by rewrite andb_false_r.
Qed.

Lemma foldl_with_column owner l txn :
  cache_ok owner txn →
  let txn' := foldl (with_column owner) txn l in
  cache_ok owner txn' ∧
  (∀ x, Contains (index txn') x =
        Contains (index txn) x && forallb (λ c, Contains (E owner c) x) l) ∧
  (index txn = [] ∨ (∃ c, c ∈ l ∧ cols_Load owner c = None) →
   index txn' = []) ∧
  deletes txn' = deletes txn ∧ inserts txn' = inserts txn ∧
  updates txn' = updates txn.
Proof.
  revert txn. induction l as [|c l IH]; intros txn Hok; cbv zeta; simpl.
  - split_and!; try done.
    + intros x. by rewrite andb_true_r.
    + intros [?|(c & Hc & _)]; [done|]. by apply elem_of_nil in Hc.
  - pose proof (with_column_spec owner txn c Hok) as H1. cbv zeta in H1.
    destruct H1 as (Hok1 & Hx1 & Hmiss & Hnil & Hd & Hn & Hu).
    specialize (IH _ Hok1). cbv zeta in IH.
    destruct IH as (Hok2 & Hx2 & Hnil2 & Hd2 & Hn2 & Hu2).
    split_and!; try done; try congruence.
    + intros x. by rewrite Hx2, Hx1, andb_assoc.
    + intros [H|(c' & Hc' & Hload)]; apply Hnil2.
      * left. by apply Hnil.
      * apply elem_of_cons in Hc' as [->|Hc']; [left; by apply Hmiss|].
        right. eauto.
Qed.

(** C2: under a cache that agrees with the registry, [With] leaves
    I ∩ E(column) ∩ ⋂ E(extra_i) in the working bitmap when every named
    column is registered, and the empty bitmap, hence a count of 0, when any
    of them is not; the queues are not touched. *)
Theorem With_spec (owner : Collection) (txn : Txn) (column : string)
  (extra : list string) :
  cache_ok owner txn →
  let txn' := With owner txn column extra in
  ((∀ c, c ∈ column :: extra → is_Some (cols_Load owner c)) →
   ∀ x, Contains (index txn') x =
        Contains (index txn) x &&
        forallb (λ c, Contains (E owner c) x) (column :: extra)) ∧
  ((∃ c, c ∈ column :: extra ∧ cols_Load owner c = None) →
   index txn' = [] ∧ Count txn' = 0) ∧
  deletes txn' = deletes txn ∧ inserts txn' = inserts txn ∧
  updates txn' = updates txn.
Proof.
  intros Hok. cbv zeta. unfold With.
  pose proof (foldl_with_column owner (column :: extra) txn Hok) as H.
  cbv zeta in H. simpl in H. destruct H as (_ & Hx & Hnil & Hd & Hn & Hu).
  split; [intros _ x; apply Hx|].
  split; [|done].
  intros Hmiss. assert (index (foldl (with_column owner)
    (with_column owner txn column) extra) = []) as Hi by (apply Hnil; by right).
  unfold Count. by rewrite Hi.
Qed.

(** Scenario 6 of the specification: a collection with column [active] and
    no column [b]. *)
Lemma With_spec_witness :
  let txn := aquireTxn people newTxn in
  cache_ok people txn ∧
  index (With people txn "active" ["b"]) = [] ∧
  Count (With people txn "active" ["b"]) = 0.
Proof.
  cbv zeta.
  assert (cache_ok people (aquireTxn people newTxn)) as Hok
    by apply cache_ok_aquire.
  split; [exact Hok|].
  apply (With_spec people (aquireTxn people newTxn) "active" ["b"] Hok).
  exists "b". split; [|reflexivity].
  apply elem_of_cons. right. apply list_elem_of_singleton. reflexivity.
Defined.

(** Scenario 1 of the specification: the filter chain leaves rows 2 and 5. *)
Example filter_chain :
  let txn := aquireTxn people newTxn in
  index <$> WithString people (With people (With people txn "active" []) "adult" [])
              "name" starts_with_A
  = Some [36].
Proof. vm_compute. done. Qed.

(** ** Update queues *)

Lemma enqueueAt_frame c u txn :
  let txn' := enqueueAt c u txn in
  index txn' = index txn ∧ deletes txn' = deletes txn ∧
  inserts txn' = inserts txn ∧ columns txn' = columns txn.
Proof.
  unfold enqueueAt. by destruct (list_find _ _) as [[i q]|].
Qed.

Lemma queue_of_enqueue_list c u name l :
  queue_of name
    match list_find (λ q, uq_name q = c) l with
    | Some (i, q) => <[i := mkQueue (uq_name q) (uq_update q ++ [u])]> l
    | None => l ++ [mkQueue c [u]]
    end
  = queue_of name l ++ (if decide (c = name) then [u] else []).
Proof.
  induction l as [|q l IH]; simpl.
  - by case_decide.
  - destruct (decide (uq_name q = c)) as [Hq|Hq]; simpl.
    + subst c. case_decide; [done|]. symmetry. apply app_nil_r.
    + destruct (decide (uq_name q = name)) as [Hn|Hn].
      * rewrite decide_False by congruence. rewrite app_nil_r.
        destruct (list_find _ l) as [[i q']|]; simpl; by rewrite decide_True.
      * destruct (list_find _ l) as [[i q']|]; simpl in *;
          by rewrite decide_False.
Qed.

Lemma queue_of_enqueueAt c u txn name :
  queue_of name (updates (enqueueAt c u txn)) =
  queue_of name (updates txn) ++ (if decide (c = name) then [u] else []).
Proof.
  rewrite <- queue_of_enqueue_list. unfold enqueueAt.
  by destruct (list_find _ _) as [[i q]|].
Qed.

Lemma puts_cons j name k v object :
  puts j name ((k, v) :: object) =
  (if decide (k = name) then [mkUpdate UpdatePut j v] else [])
  ++ puts j name object.
Proof.
  unfold puts. rewrite filter_cons. simpl. by case_decide.
Qed.

Lemma puts_not_key j name (object : Object) :
  name ∉ object.*1 → puts j name object = [].
Proof.
  induction object as [|[k v] object IH]; intros Hk; [done|].
  rewrite fmap_cons, not_elem_of_cons in Hk. destruct Hk as [Hk Hin].
  rewrite puts_cons. rewrite decide_False by (intros ->; by apply Hk).
  by apply IH.
Qed.

(** An object is a map: a key that occurs once contributes one record. *)
Lemma puts_key j k v (object : Object) :
  NoDup object.*1 → (k, v) ∈ object →
  puts j k object = [mkUpdate UpdatePut j v].
Proof.
  induction object as [|[k' v'] object IH]; intros Hnd Hin;
    [by apply elem_of_nil in Hin|].
  rewrite fmap_cons in Hnd. apply list.NoDup_cons in Hnd as [Hk' Hnd].
  rewrite puts_cons. apply elem_of_cons in Hin as [Heq|Hin].
  - simplify_eq. rewrite decide_True by done.
    by rewrite puts_not_key.
  - rewrite decide_False; [by apply IH|].
    intros ->. apply Hk'. simpl. apply list_elem_of_fmap. by exists (k, v).
Qed.

(** ** Insert *)

Section Insert.

Variable next : Collection → N * Collection.

(** The slot of [insert] has its transaction: the loop never faults, and
    each [UpdateAt] is the shared body at row [j]. *)
Lemma insert_fold owner j (object : Object) txn :
  foldl (λ r kv,
           t ← r;
           match columnAt owner t kv.1 with
           | (Some _, t') =>
               Cursor_UpdateAt (mkCursor (mkSelector j true false) 0 None)
                               kv.1 kv.2 t'
           | (None, t') => Some t'
           end)
        (Some txn) object =
  Some (foldl (λ t kv,
                 match columnAt owner t kv.1 with
                 | (Some _, t') => enqueueAt kv.1 (mkUpdate UpdatePut j kv.2) t'
                 | (None, t') => t'
                 end)
              txn object).
Proof.
  revert txn. induction object as [|[k v] object IH]; intros txn; [done|].
  simpl. destruct (columnAt owner txn k) as [[c|] t']; apply IH.
Qed.

(** [insert] always returns: the index and the collection the allocator
    hands back, and the transaction with bit [j] set in the inserts bitmap
    and the records of the object and of the TTL queued. *)
Lemma insert_Some owner txn object expireAt :
  insert next owner txn object expireAt =
  Some ((next owner).1, (next owner).2,
        let j := (next owner).1 in
        let txn2 :=
          foldl (λ t kv,
                   match columnAt (next owner).2 t kv.1 with
                   | (Some _, t') =>
                       enqueueAt kv.1 (mkUpdate UpdatePut j kv.2) t'
                   | (None, t') => t'
                   end)
                (set_inserts txn (Set_ (inserts txn) j)) object in
        if bool_decide (expireAt ≠ 0)
        then enqueueAt expireColumn (mkUpdate UpdatePut j (anyInt64 expireAt))
                       txn2
        else txn2).
Proof.
  unfold insert. destruct (next owner) as [j owner']. cbv zeta.
  change (cur_idx (mkCursor (mkSelector j true false) 0 None)) with j.
  rewrite insert_fold. simpl. by case_bool_decide.
Qed.

(** The loop of [insert] over the entries of the object. *)
Lemma insert_loop owner j (object : Object) txn :
  cache_ok owner txn →
  let txn' :=
    foldl (λ t kv,
             match columnAt owner t kv.1 with
             | (Some _, t') => enqueueAt kv.1 (mkUpdate UpdatePut j kv.2) t'
             | (None, t') => t'
             end) txn object in
  cache_ok owner txn' ∧ index txn' = index txn ∧ deletes txn' = deletes txn ∧
  inserts txn' = inserts txn ∧
  ∀ name, queue_of name (updates txn') =
          queue_of name (updates txn) ++
          (if registered owner name then puts j name object else []).
Proof.
  revert txn. induction object as [|[k v] object IH]; intros txn Hok;
    cbv zeta; simpl.
  - split_and!; try done. intros name. destruct (registered owner name);
      by rewrite app_nil_r.
  - destruct (columnAt_cache owner txn k Hok) as [Hc Hok1].
    destruct (columnAt_frame owner txn k) as (Hi & Hd & Hn & Hu).
    destruct (columnAt owner txn k) as [[r|] t] eqn:Hat; simpl in *.
    + pose proof (enqueueAt_frame k (mkUpdate UpdatePut j v) t) as Hf.
      pose proof (queue_of_enqueueAt k (mkUpdate UpdatePut j v) t) as Hq1.
      cbv zeta in Hf. destruct Hf as (Hi' & Hd' & Hn' & Hc').
      specialize (IH (enqueueAt k (mkUpdate UpdatePut j v) t)).
      cbv zeta in IH.
      destruct IH as (Hok2 & Hi2 & Hd2 & Hn2 & Hq2);
        [by apply (cache_ok_columns owner t)|].
      split_and!; [done|congruence|congruence|congruence|].
      intros name. rewrite Hq2, Hq1, Hu, <- app_assoc.
      f_equal. rewrite puts_cons. unfold registered.
      case_decide as Hk.
      * subst name. rewrite <- Hc.
        by rewrite bool_decide_eq_true_2 by (by eexists).
      * by destruct (bool_decide _).
    + specialize (IH t Hok1). cbv zeta in IH.
      destruct IH as (Hok2 & Hi2 & Hd2 & Hn2 & Hq2).
      split_and!; [done|congruence|congruence|congruence|].
      intros name. rewrite Hq2, Hu. f_equal. rewrite puts_cons.
      unfold registered. case_decide; [|done]. subst name.
      rewrite <- Hc. by rewrite bool_decide_eq_false_2 by (by intros [? ?]).
Qed.

End Insert.

(** ** Iteration *)

Lemma iterate_ind {S : Type} (P : S → Prop) (fn : N → S → bool * S) l s :
  P s → (∀ x s, x ∈ l → P s → P (fn x s).2) → P (iterate fn l s).
Proof.
  revert s. induction l as [|x l IH]; intros s Hs Hfn; simpl; [done|].
  pose proof (Hfn x s ltac:(left) Hs) as Hx.
  destruct (fn x s) as [continue s']. simpl in Hx.
  destruct continue; [|done].
  apply IH; [done|]. intros y s0 Hy. apply Hfn. by right.
Qed.

(** A selector either resolves the column through the cache of its
    transaction or loads it from the registry: nothing but the cache is
    written. *)
Lemma Selector_columnAt_frame owner txn sel c r :
  Selector_columnAt owner txn sel c = Some r →
  index r.2 = index txn ∧ deletes r.2 = deletes txn ∧
  inserts r.2 = inserts txn ∧ updates r.2 = updates txn ∧
  (cache_ok owner txn → cache_ok owner r.2).
Proof.
  unfold Selector_columnAt. intros Hr.
  destruct (sel_txn sel); [|destruct (sel_col sel)]; simplify_eq/=; [|done].
  destruct (columnAt_frame owner txn c) as (Hi & Hd & Hn & Hu).
  split_and!; try done. intros Hok. by apply columnAt_cache.
Qed.

Lemma read_columns_frame owner sel reads txn txn' :
  read_columns owner sel txn reads = Some txn' →
  index txn' = index txn ∧ deletes txn' = deletes txn ∧
  inserts txn' = inserts txn ∧ updates txn' = updates txn ∧
  (cache_ok owner txn → cache_ok owner txn').
Proof.
  revert txn. induction reads as [|c reads IH]; intros txn Hr; simpl in Hr.
  - by simplify_eq.
  - destruct (Selector_columnAt owner txn sel c) as [r|] eqn:Hc; [|done].
    simpl in Hr.
    destruct (Selector_columnAt_frame _ _ _ _ _ Hc) as (Hi & Hd & Hn & Hu & Hok).
    destruct (IH _ Hr) as (Hi2 & Hd2 & Hn2 & Hu2 & Hok2).
    split_and!; [congruence..|auto].
Qed.

(** The reads of a selector that has its transaction never fault. *)
Lemma read_columns_Some owner x reads txn :
  is_Some (read_columns owner (mkSelector x true false) txn reads).
Proof.
  revert txn. induction reads as [|c reads IH]; intros txn; simpl; [done|].
  apply IH.
Qed.

(** What every step of [Select] keeps, [Select] keeps; it never faults. *)
Lemma Select_ind {S} (P : Txn → Prop) owner txn (fn : SelectorFn S) s :
  P txn →
  (∀ x t reads t', Contains (index txn) x = true → P t →
     read_columns owner (mkSelector x true false) t reads = Some t' → P t') →
  ∃ r, Select owner txn fn s = Some r ∧ P r.1.
Proof.
  intros H0 Hstep. unfold Select, bitmap.Range.
  apply (iterate_ind (λ st, ∃ r, st = Some r ∧ P r.1)); [by eexists|].
  intros x st Hx ([t s0] & -> & Ht). simpl in Ht.
  apply elem_of_elems in Hx.
  destruct (fn (mkSelector x true false) owner t s0) as [[reads continue] s'].
  destruct (read_columns_Some owner x reads t) as [t' Hr]. rewrite Hr. simpl.
  eexists. split; [done|]. simpl. by apply (Hstep x t reads).
Qed.

(** The same for [DeleteIf], whose steps also stage the row. *)
Lemma DeleteIf_ind {S} (P : Txn → Prop) owner txn (fn : SelectorFn S) s :
  P txn →
  (∀ x t reads t', Contains (index txn) x = true → P t →
     read_columns owner (mkSelector x true false) t reads = Some t' → P t') →
  (∀ x t, Contains (index txn) x = true → P t →
     P (set_deletes t (Set_ (deletes t) x))) →
  ∃ r, DeleteIf owner txn fn s = Some r ∧ P r.1.
Proof.
  intros H0 Hstep Hdel. unfold DeleteIf, bitmap.Range.
  apply (iterate_ind (λ st, ∃ r, st = Some r ∧ P r.1)); [by eexists|].
  intros x st Hx ([t s0] & -> & Ht). simpl in Ht.
  apply elem_of_elems in Hx.
  destruct (fn (mkSelector x true false) owner t s0) as [[reads del] s'].
  destruct (read_columns_Some owner x reads t) as [t' Hr]. rewrite Hr. simpl.
  eexists. split; [done|]. simpl.
  pose proof (Hstep x t reads t' Hx Ht Hr) as Ht'.
  destruct del; [by apply Hdel|done].
Qed.

(** ** Range *)

Lemma cursorFor_error owner txn column :
  cache_ok owner txn →
  match cols_Load owner column with
  | None =>
      cursorFor owner txn column =
      (mkCursor (mkSelector 0 false false) 0 None, Some (Errorf column), txn)
  | Some c =>
      (cursorFor owner txn column).1.2 = None ∧
      cur_column (cursorFor owner txn column).1.1 = Some c
  end.
Proof.
  intros Hok. unfold cursorFor.
  destruct (columnAt_cache owner txn column Hok) as [Hc _].
  pose proof (columnAt_None owner txn column) as Hnone.
  destruct (columnAt owner txn column) as [[r|] t]; simpl in *; rewrite <- Hc.
  - by destruct (list_find _ _) as [[i q]|].
  - by rewrite Hnone.
Qed.

Section RangeErrors.

Variable next : Collection → N * Collection.

(** C8: under a cache that agrees with the registry, [Range] returns an
    error exactly when no column is registered under the name; it then
    returns at once, whatever the callback, with the transaction and the
    state of the closure untouched (the callback has not run); and no other
    operation of a transaction hands back an error. *)
Theorem Range_error (owner : Collection) (txn : Txn) (column : string) :
  cache_ok owner txn →
  (cols_Load owner column = None →
   ∀ (S : Type) (fn : CursorFn S) (s : S),
     Range owner txn column fn s = Some (Some (Errorf column), txn, s)) ∧
  (∀ (S : Type) (fn : CursorFn S) (s s' : S) err txn',
     Range owner txn column fn s = Some (Some err, txn', s') →
     cols_Load owner column = None) ∧
  (∀ (S : Type) (op : Op S) (w w' : World S) err,
     exec next op w = Some (ResError (Some err), w') →
     ∃ c fn, op = OpRange c fn).
Proof.
  intros Hok. pose proof (cursorFor_error owner txn column Hok) as Hcur.
  split_and!.
  - intros Hload S fn s. rewrite Hload in Hcur. unfold Range.
    by rewrite Hcur.
  - intros S fn s s' err txn' Hrange.
    destruct (cols_Load owner column) as [c|]; [|done].
    destruct Hcur as [Herr _]. unfold Range in Hrange.
    destruct (cursorFor owner txn column) as [[cur e] t]. simpl in Herr.
    subst e. destruct (bitmap.Range _ _ _); simplify_eq/=.
  - intros S op w w' err Hexec.
    destruct op; simpl in Hexec; try by eauto.
    all: repeat match type of Hexec with
         | context [WithValue ?a ?b ?c ?d] => destruct (WithValue a b c d)
         | context [WithInt ?a ?b ?c ?d] => destruct (WithInt a b c d)
         | context [WithUint ?a ?b ?c ?d] => destruct (WithUint a b c d)
         | context [WithString ?a ?b ?c ?d] => destruct (WithString a b c d)
         | context [ReadAt ?a ?b] => destruct (ReadAt a b)
         | context [DeleteAt ?a ?b] => destruct (DeleteAt a b)
         | context [DeleteIf ?a ?b ?c ?d] => destruct (DeleteIf a b c d)
         | context [Select ?a ?b ?c ?d] => destruct (Select a b c d)
         | context [Insert ?a ?b ?c ?d] => destruct (Insert a b c d)
         | context [InsertWithTTL ?a ?b ?c ?d ?e ?f] =>
             destruct (InsertWithTTL a b c d e f)
         | context [Commit ?a ?b] => destruct (Commit a b)
         end; simplify_eq/=.
Qed.

End RangeErrors.

(** ** The invariant deletes ⊆ index ∪ inserts *)

Lemma deletes_covered_nil txn : deletes txn = [] → deletes_covered txn.
Proof. intros H x. by rewrite H. Qed.

Lemma deletes_covered_frame txn txn' :
  index txn' = index txn → deletes txn' = deletes txn →
  inserts txn' = inserts txn → deletes_covered txn → deletes_covered txn'.
Proof. intros Hi Hd Hn H x. rewrite Hi, Hd, Hn. apply H. Qed.

Lemma deletes_covered_Set txn txn' i :
  index txn' = index txn → deletes txn' = Set_ (deletes txn) i →
  inserts txn' = inserts txn → Contains (index txn) i = true →
  deletes_covered txn → deletes_covered txn'.
Proof.
  intros Hi Hd Hn Hin H x. rewrite Hi, Hd, Hn, Contains_Set.
  case_bool_decide; [subst; by rewrite Hin|]. apply H.
Qed.

Lemma union_column_covered owner txn c :
  deletes_covered txn → deletes_covered (union_column owner txn c).
Proof.
  intros H. unfold union_column.
  destruct (columnAt_frame owner txn c) as (Hi & Hd & Hn & _).
  destruct (columnAt owner txn c) as [[r|] t]; simpl in *.
  - intros x. simpl. rewrite Hd, Hn. unfold Column_Union.
    rewrite Contains_Or, Hi. intros Hx. specialize (H x Hx).
    apply orb_true_iff in H as [->| ->]; by rewrite ?orb_true_r.
  - by apply (deletes_covered_frame txn).
Qed.

Lemma Union_covered owner txn c extra :
  deletes_covered txn → deletes_covered (Union owner txn c extra).
Proof.
  intros H. unfold Union.
  apply union_column_covered with (owner := owner) (c := c) in H.
  revert H. generalize (union_column owner txn c).
  induction extra as [|e extra IH]; intros t H; simpl; [done|].
  apply IH. by apply union_column_covered.
Qed.

Lemma DeleteAt_covered txn i :
  deletes_covered txn → deletes_covered (DeleteAt txn i).2.
Proof.
  intros H. unfold DeleteAt.
  destruct (Contains (index txn) i) eqn:Hi; simpl; [|done].
  by apply (deletes_covered_Set txn _ i).
Qed.

Lemma DeleteAll_covered txn :
  deletes_covered txn → deletes_covered (DeleteAll txn).
Proof.
  intros H x. unfold DeleteAll. simpl. rewrite Contains_Or.
  intros Hx. apply orb_true_iff in Hx as [Hx| ->]; [by apply H|done].
Qed.

Lemma DeleteIf_covered {S} owner txn (fn : SelectorFn S) s :
  deletes_covered txn →
  ∃ r, DeleteIf owner txn fn s = Some r ∧ deletes_covered r.1.
Proof.
  intros H.
  destruct (DeleteIf_ind (λ t, index t = index txn ∧ deletes_covered t)
              owner txn fn s) as (r & Hr & _ & Hc); [done| | |by eauto].
  - intros x t reads t' Hx [Hi Hc] Hr.
    destruct (read_columns_frame _ _ _ _ _ Hr) as (Hi' & Hd' & Hn' & _).
    split; [congruence|]. by apply (deletes_covered_frame t).
  - intros x t Hx [Hi Hc]. split; [done|].
    apply (deletes_covered_Set t _ x); try done. by rewrite Hi.
Qed.

Lemma Select_covered {S} owner txn (fn : SelectorFn S) s :
  deletes_covered txn →
  ∃ r, Select owner txn fn s = Some r ∧ deletes_covered r.1.
Proof.
  intros H. apply Select_ind; [done|].
  intros x t reads t' Hx Hc Hr.
  destruct (read_columns_frame _ _ _ _ _ Hr) as (Hi' & Hd' & Hn' & _).
  by apply (deletes_covered_frame t).
Qed.

Lemma enqueue_frame cur u txn txn' :
  enqueue cur u txn = Some txn' →
  index txn' = index txn ∧ deletes txn' = deletes txn ∧
  inserts txn' = inserts txn ∧ columns txn' = columns txn.
Proof.
  unfold enqueue. destruct (sel_txn (cur_sel cur)); [|done].
  case_decide; [|done].
  destruct (updates txn !! _); intros; by simplify_eq/=.
Qed.

Lemma Cursor_UpdateAt_Some cur column value txn txn' :
  Cursor_UpdateAt cur column value txn = Some txn' →
  txn' = enqueueAt column (mkUpdate UpdatePut (cur_idx cur) value) txn.
Proof.
  unfold Cursor_UpdateAt. destruct (sel_txn (cur_sel cur)); congruence.
Qed.

Lemma Cursor_AddAt_Some cur column amount txn txn' :
  Cursor_AddAt cur column amount txn = Some txn' →
  txn' = enqueueAt column (mkUpdate UpdateAdd (cur_idx cur) amount) txn.
Proof.
  unfold Cursor_AddAt. destruct (sel_txn (cur_sel cur)); congruence.
Qed.

Lemma Cursor_Delete_Some cur txn txn' :
  Cursor_Delete cur txn = Some txn' →
  txn' = set_deletes txn (Set_ (deletes txn) (cur_idx cur)).
Proof.
  unfold Cursor_Delete. destruct (sel_txn (cur_sel cur)); congruence.
Qed.

Lemma act_read owner cur txn column txn' :
  act owner cur txn (ActRead column) = Some txn' →
  ∃ r, Selector_columnAt owner txn (cur_sel cur) column = Some r ∧ txn' = r.2.
Proof.
  simpl. destruct (Selector_columnAt _ _ _ _) as [r|]; [|done].
  intros [= <-]. by exists r.
Qed.

Lemma act_covered owner cur txn a txn' :
  Contains (index txn) (cur_idx cur) = true →
  act owner cur txn a = Some txn' →
  deletes_covered txn → index txn' = index txn ∧ deletes_covered txn'.
Proof.
  intros Hin Hact H. destruct a.
  - apply act_read in Hact as (r & Hr & ->).
    destruct (Selector_columnAt_frame _ _ _ _ _ Hr) as (Hi & Hd & Hn & _).
    split; [done|]. by apply (deletes_covered_frame txn).
  - apply Cursor_Delete_Some in Hact as ->. split; [done|].
    by apply (deletes_covered_Set txn _ (cur_idx cur)).
  - apply enqueue_frame in Hact as (Hi & Hd & Hn & _).
    split; [done|]. by apply (deletes_covered_frame txn).
  - apply enqueue_frame in Hact as (Hi & Hd & Hn & _).
    split; [done|]. by apply (deletes_covered_frame txn).
  - apply Cursor_UpdateAt_Some in Hact as ->.
    destruct (enqueueAt_frame column (mkUpdate UpdatePut (cur_idx cur) value) txn)
      as (Hi & Hd & Hn & _).
    split; [done|]. by apply (deletes_covered_frame txn).
  - apply Cursor_AddAt_Some in Hact as ->.
    destruct (enqueueAt_frame column (mkUpdate UpdateAdd (cur_idx cur) amount) txn)
      as (Hi & Hd & Hn & _).
    split; [done|]. by apply (deletes_covered_frame txn).
Qed.

Lemma acts_covered owner cur l txn txn' :
  Contains (index txn) (cur_idx cur) = true →
  acts owner cur txn l = Some txn' →
  deletes_covered txn → index txn' = index txn ∧ deletes_covered txn'.
Proof.
  revert txn. induction l as [|a l IH]; intros txn Hin Hacts H; simpl in Hacts.
  - by simplify_eq.
  - destruct (act owner cur txn a) as [t|] eqn:Hact; [|done]. simpl in Hacts.
    destruct (act_covered _ _ _ _ _ Hin Hact H) as [Hi Hc].
    destruct (IH t) as [Hi' Hc']; [by rewrite Hi|done..|].
    split; [congruence|done].
Qed.

Lemma cursorFor_frame owner txn column :
  let txn' := (cursorFor owner txn column).2 in
  index txn' = index txn ∧ deletes txn' = deletes txn ∧
  inserts txn' = inserts txn.
Proof.
  cbv zeta. unfold cursorFor.
  destruct (columnAt_frame owner txn column) as (Hi & Hd & Hn & _).
  destruct (columnAt owner txn column) as [[r|] t]; simpl in *; [|done].
  by destruct (list_find _ _) as [[i q]|].
Qed.

Lemma Range_covered {S} owner txn column (fn : CursorFn S) s r :
  Range owner txn column fn s = Some r →
  deletes_covered txn → deletes_covered r.1.2.
Proof.
  intros Hr H. unfold Range in Hr.
  destruct (cursorFor_frame owner txn column) as (Hi & Hd & Hn).
  destruct (cursorFor owner txn column) as [[cur err] t]. simpl in *.
  assert (deletes_covered t) as Ht by (by apply (deletes_covered_frame txn)).
  destruct err as [e|]; [by simplify_eq/=|].
  unfold bitmap.Range in Hr.
  match type of Hr with context [iterate ?f ?l ?s0] =>
    assert (∀ p, iterate f l s0 = Some p →
                 index p.1 = index t ∧ deletes_covered p.1) as Hind
  end.
  { apply (iterate_ind
      (λ st : option (Txn * S),
         ∀ p, st = Some p → index p.1 = index t ∧ deletes_covered p.1)).
    - by intros p [= <-].
    - intros x [[t0 s0]|] Hx Hp p; [|done].
      destruct (Hp _ eq_refl) as [Hi0 Hc0]. simpl in *.
      destruct (fn (set_idx cur x) owner t0 s0) as [[l continue] s1].
      destruct (acts owner (set_idx cur x) t0 l) as [t1|] eqn:Hacts; [|done].
      simpl. intros [= <-]. simpl.
      destruct (acts_covered owner (set_idx cur x) l t0 t1) as [Hi1 Hc1];
        [|done..|split; [congruence|done]].
      simpl. rewrite Hi0. by apply elem_of_elems. }
  destruct (iterate _ _ _) as [p|]; [|done]. simplify_eq/=.
  by apply (Hind p).
Qed.

Lemma Commit_covered owner txn : deletes_covered (Commit owner txn).2.
Proof. apply deletes_covered_nil, Commit_deletes. Qed.

Lemma Rollback_covered txn : deletes_covered (Rollback txn).
Proof. by apply deletes_covered_nil. Qed.

(** The filters write the working bitmap and the cache, and neither the
    deletes nor the inserts bitmap. *)
Lemma with_column_staged owner txn c :
  deletes (with_column owner txn c) = deletes txn ∧
  inserts (with_column owner txn c) = inserts txn.
Proof.
  unfold with_column.
  destruct (columnAt_frame owner txn c) as (_ & Hd & Hn & _).
  by destruct (columnAt owner txn c) as [[r|] t].
Qed.

Lemma without_column_staged owner txn c :
  deletes (without_column owner txn c) = deletes txn ∧
  inserts (without_column owner txn c) = inserts txn.
Proof.
  unfold without_column.
  destruct (columnAt_frame owner txn c) as (_ & Hd & Hn & _).
  by destruct (columnAt owner txn c) as [[r|] t].
Qed.

Lemma foldl_staged (f : Txn → string → Txn) l txn :
  (∀ t c, deletes (f t c) = deletes t ∧ inserts (f t c) = inserts t) →
  deletes (foldl f txn l) = deletes txn ∧
  inserts (foldl f txn l) = inserts txn.
Proof.
  intros Hf. revert txn. induction l as [|c l IH]; intros txn; simpl; [done|].
  destruct (Hf txn c) as [H1 H2]. destruct (IH (f txn c)) as [H3 H4].
  split; congruence.
Qed.

Lemma WithValue_staged owner txn c p txn' :
  WithValue owner txn c p = Some txn' →
  deletes txn' = deletes txn ∧ inserts txn' = inserts txn.
Proof.
  unfold WithValue.
  destruct (columnAt_frame owner txn c) as (_ & Hd & Hn & _).
  destruct (columnAt owner txn c) as [[r|] t]; simpl in *.
  - destruct (Filter _ _) as [b|]; [|done]. by intros [= <-].
  - by intros [= <-].
Qed.

Lemma WithInt_staged owner txn c p txn' :
  WithInt owner txn c p = Some txn' →
  deletes txn' = deletes txn ∧ inserts txn' = inserts txn.
Proof.
  unfold WithInt.
  destruct (columnAt_frame owner txn c) as (_ & Hd & Hn & _).
  destruct (columnAt owner txn c) as [[r|] t]; simpl in *.
  - destruct (as_numerical _); [|by intros [= <-]].
    destruct (Filter _ _) as [b|]; [|done]. by intros [= <-].
  - by intros [= <-].
Qed.

Lemma WithUint_staged owner txn c p txn' :
  WithUint owner txn c p = Some txn' →
  deletes txn' = deletes txn ∧ inserts txn' = inserts txn.
Proof.
  unfold WithUint.
  destruct (columnAt_frame owner txn c) as (_ & Hd & Hn & _).
  destruct (columnAt owner txn c) as [[r|] t]; simpl in *.
  - destruct (as_numerical _); [|by intros [= <-]].
    destruct (Filter _ _) as [b|]; [|done]. by intros [= <-].
  - by intros [= <-].
Qed.

Lemma none_staged_covered txn : none_staged txn = true → deletes_covered txn.
Proof.
  unfold none_staged. intros Hn%bool_decide_eq_true x Hx.
  apply elem_of_elems in Hx. rewrite Hn in Hx. by apply elem_of_nil in Hx.
Qed.

Section Invariant.

Variable next : Collection → N * Collection.

Lemma insert_bitmaps owner txn object expireAt :
  ∃ txn',
    insert next owner txn object expireAt =
      Some ((next owner).1, (next owner).2, txn') ∧
    index txn' = index txn ∧ deletes txn' = deletes txn ∧
    inserts txn' = Set_ (inserts txn) (next owner).1.
Proof.
  rewrite insert_Some. eexists. split; [reflexivity|]. cbv zeta.
  destruct (next owner) as [j owner']. simpl.
  set (txn1 := set_inserts txn (Set_ (inserts txn) j)).
  assert (∀ t, let t' := foldl (λ t kv,
             match columnAt owner' t kv.1 with
             | (Some _, t') => enqueueAt kv.1 (mkUpdate UpdatePut j kv.2) t'
             | (None, t') => t'
             end) t object in
           index t' = index t ∧ deletes t' = deletes t ∧ inserts t' = inserts t)
    as Hloop.
  { induction object as [|[k v] object IH]; intros t; [done|].
    cbv zeta. simpl.
    destruct (columnAt_frame owner' t k) as (Hi & Hd & Hn & _).
    destruct (columnAt owner' t k) as [[r|] t0]; simpl in *.
    - pose proof (enqueueAt_frame k (mkUpdate UpdatePut j v) t0) as Hf.
      cbv zeta in Hf. destruct Hf as (Hi' & Hd' & Hn' & _).
      specialize (IH (enqueueAt k (mkUpdate UpdatePut j v) t0)).
      cbv zeta in IH.
      destruct IH as (Hi2 & Hd2 & Hn2). split_and!; congruence.
    - specialize (IH t0). cbv zeta in IH.
      destruct IH as (Hi2 & Hd2 & Hn2). split_and!; congruence. }
  specialize (Hloop txn1). cbv zeta in Hloop.
  destruct Hloop as (Hi & Hd & Hn).
  set (txn2 := foldl _ txn1 object) in *. simpl in Hi, Hd, Hn.
  case_bool_decide; [|done].
  pose proof (enqueueAt_frame expireColumn
                (mkUpdate UpdatePut j (anyInt64 expireAt)) txn2) as Hf.
  cbv zeta in Hf. destruct Hf as (Hi' & Hd' & Hn' & _).
  split_and!; [congruence|congruence|by rewrite Hn', Hn].
Qed.

Lemma insert_covered owner txn object expireAt r :
  insert next owner txn object expireAt = Some r →
  deletes_covered txn → deletes_covered r.2.
Proof.
  intros Hr H x.
  destruct (insert_bitmaps owner txn object expireAt)
    as (txn' & Hins & Hi & Hd & Hn).
  rewrite Hins in Hr. simplify_eq/=. rewrite Hi, Hd, Hn.
  rewrite Contains_Set. intros Hx. specialize (H x Hx).
  apply orb_true_iff in H as [->| ->]; by rewrite ?orb_true_r.
Qed.

(** One operation outside the narrowing filters keeps the deletes bitmap
    inside index ∪ inserts. *)
Lemma exec_covered {S} (op : Op S) (w : World S) r w' :
  narrowing op = false → deletes_covered (w_txn w) →
  exec next op w = Some (r, w') → deletes_covered (w_txn w').
Proof.
  intros Hop H Hexec. destruct op; try done; simpl in Hexec.
  - simplify_eq/=. by apply Union_covered.
  - by simplify_eq/=.
  - destruct (ReadAt _ _). by simplify_eq/=.
  - pose proof (DeleteAt_covered (w_txn w) i H) as Hd.
    destruct (DeleteAt _ _). by simplify_eq/=.
  - destruct (DeleteIf_covered (w_owner w) (w_txn w) fn (w_closure w) H)
      as (p & Hp & Hd).
    rewrite Hp in Hexec. by simplify_eq/=.
  - simplify_eq/=. by apply DeleteAll_covered.
  - unfold Insert in Hexec.
    destruct (insert _ _ _ _ _) as [p|] eqn:Hp; [|done]. simplify_eq/=.
    by apply (insert_covered _ _ _ _ _ Hp).
  - unfold InsertWithTTL in Hexec.
    destruct (insert _ _ _ _ _) as [p|] eqn:Hp; [|done]. simplify_eq/=.
    by apply (insert_covered _ _ _ _ _ Hp).
  - destruct (Select_covered (w_owner w) (w_txn w) fn (w_closure w) H)
      as (p & Hp & Hd).
    rewrite Hp in Hexec. by simplify_eq/=.
  - destruct (Range _ _ _ _ _) as [p|] eqn:Hr; [|done]. simplify_eq/=.
    by apply (Range_covered _ _ _ _ _ _ Hr).
  - pose proof (Commit_covered (w_owner w) (w_txn w)) as Hd.
    destruct (Commit _ _). by simplify_eq/=.
  - simplify_eq/=. apply Rollback_covered.
Qed.

(** A narrowing filter leaves the deletes and the inserts bitmap as they
    are. *)
Lemma exec_staged {S} (op : Op S) (w : World S) r w' :
  narrowing op = true → exec next op w = Some (r, w') →
  deletes (w_txn w') = deletes (w_txn w) ∧
  inserts (w_txn w') = inserts (w_txn w).
Proof.
  intros Hop Hexec. destruct op; try done; simpl in Hexec.
  - simplify_eq/=. unfold With.
    destruct (with_column_staged (w_owner w) (w_txn w) column) as [<- <-].
    apply foldl_staged, with_column_staged.
  - simplify_eq/=. unfold Without.
    destruct (without_column_staged (w_owner w) (w_txn w) column) as [<- <-].
    apply foldl_staged, without_column_staged.
  - destruct (WithValue _ _ _ _) as [t|] eqn:Ht; [|done]. simplify_eq/=.
    by apply (WithValue_staged _ _ _ _ _ Ht).
  - destruct (WithInt _ _ _ _) as [t|] eqn:Ht; [|done]. simplify_eq/=.
    by apply (WithInt_staged _ _ _ _ _ Ht).
  - destruct (WithUint _ _ _ _) as [t|] eqn:Ht; [|done]. simplify_eq/=.
    by apply (WithUint_staged _ _ _ _ _ Ht).
  - destruct (WithString _ _ _ _) as [t|] eqn:Ht; [|done]. simplify_eq/=.
    by apply (WithValue_staged _ _ _ _ _ Ht).
Qed.

(** One operation keeps the invariant, a narrowing filter when it is applied
    while no row is staged for deletion. *)
Lemma exec_covered_unstaged {S} (op : Op S) (w : World S) r w' :
  negb (narrowing op) || none_staged (w_txn w) = true →
  deletes_covered (w_txn w) →
  exec next op w = Some (r, w') → deletes_covered (w_txn w').
Proof.
  intros Hg H Hexec. destruct (narrowing op) eqn:Hop.
  - simpl in Hg. apply none_staged_covered. unfold none_staged in *.
    destruct (exec_staged op w r w' Hop Hexec) as [Hd _]. by rewrite Hd.
  - by apply (exec_covered op w r).
Qed.

(** C4, counterexample: a delete followed by a filter.  Row 4 is in the
    working bitmap, [DeleteAt 4] stages it, and [With "active"] then removes
    it from the working bitmap: it is in the deletes bitmap and in neither
    the working bitmap nor the inserts bitmap. *)
Lemma filter_after_delete_uncovers :
  let w := mkWorld people (aquireTxn people newTxn) tt in
  deletes_covered (w_txn w) ∧
  ∃ w', run nextFree [OpDeleteAt 4%N; OpWith "active" []] w = Some w' ∧
        Contains (deletes (w_txn w')) 4%N = true ∧
        Contains (index (w_txn w')) 4%N = false ∧
        Contains (inserts (w_txn w')) 4%N = false.
Proof.
  cbv zeta. split; [by apply deletes_covered_nil|].
  eexists. split; [vm_compute; reflexivity|]. vm_compute. done.
Qed.

(** C4 (as amended): the narrowing filters ([With], [Without], [WithValue],
    [WithInt], [WithUint], [WithString]) write neither the deletes nor the
    inserts bitmap, and every other operation preserves
    deletes ⊆ index ∪ inserts.  So for every sequence of operations in which
    each narrowing filter is applied while no row is staged for deletion,
    at no point of the sequence does the deletes bitmap contain a row that
    is in neither the working bitmap nor the inserts bitmap. *)
Theorem run_covered {S} (ops : list (Op S)) (w : World S) :
  filters_unstaged next ops w = true →
  deletes_covered (w_txn w) →
  (∀ pre w1, pre `prefix_of` ops → run next pre w = Some w1 →
             deletes_covered (w_txn w1)) ∧
  (∀ (op : Op S) (w0 w1 : World S) r,
     narrowing op = true → exec next op w0 = Some (r, w1) →
     deletes (w_txn w1) = deletes (w_txn w0) ∧
     inserts (w_txn w1) = inserts (w_txn w0)).
Proof.
  intros Hg H. split; [|intros op w0 w1 r; apply exec_staged].
  revert w Hg H. induction ops as [|op ops IH]; intros w Hg H pre w1 Hpre Hrun.
  - apply prefix_nil_inv in Hpre as ->. by simplify_eq/=.
  - destruct pre as [|op' pre]; [by simplify_eq/=|].
    pose proof (prefix_cons_inv_1 _ _ _ _ Hpre) as ->.
    apply prefix_cons_inv_2 in Hpre.
    simpl in Hg, Hrun. apply andb_true_iff in Hg as [Hop Hg].
    destruct (exec next op w) as [[r w2]|] eqn:Hexec; [|done].
    simpl in Hrun. apply (IH w2 Hg) with (pre := pre); [|done..].
    by apply (exec_covered_unstaged op w r).
Qed.

End Invariant.

(** ** The update queues across a commit *)

Lemma cols_LoadWithIndex_cols owner owner' name :
  cols owner' = cols owner →
  cols_LoadWithIndex owner' name = cols_LoadWithIndex owner name.
Proof. intros H. unfold cols_LoadWithIndex, lookup_entry. by rewrite H. Qed.

Lemma updateQueuePending_queue txn owner u :
  (updateQueuePending txn owner u).2 = pending_after owner u.
Proof.
  unfold updateQueuePending, pending_after.
  destruct (cols_LoadWithIndex owner (uq_name u)) as [l ex] eqn:Hload.
  assert (ex = false → l = []) as Hex.
  { unfold cols_LoadWithIndex in Hload.
    destruct (lookup_entry owner (uq_name u)); by simplify_eq. }
  simpl. case_decide as Hlen.
  - apply length_zero_iff_nil in Hlen. destruct u as [n b]. simpl in *.
    subst b. by case_decide.
  - destruct ex; simpl.
    + case_bool_decide as Hl.
      * apply length_zero_iff_nil in Hl. by rewrite decide_True.
      * rewrite decide_False; [done|]. intros ->. done.
    + by rewrite decide_True by auto.
Qed.

Lemma updateQueues_queues txn owner l :
  (updateQueues txn owner l).2 = pending_after owner <$> l.
Proof.
  revert owner. induction l as [|u l IH]; intros owner; simpl; [done|].
  pose proof (updateQueuePending_queue txn owner u) as Hu.
  pose proof (updateQueuePending_frame txn owner u) as [_ Hc].
  destruct (updateQueuePending txn owner u) as [o1 u']. simpl in *.
  specialize (IH o1). destruct (updateQueues txn o1 l) as [o2 l'].
  simpl in *. subst. f_equal. apply list_fmap_ext. intros _ q _.
  unfold pending_after. by rewrite (cols_LoadWithIndex_cols owner o1).
Qed.

(** After a commit, a queue is empty iff it was empty or a column is
    registered under its name: the other queues keep their records. *)
Lemma Commit_updates owner txn :
  updates (Commit owner txn).2 = pending_after owner <$> updates txn.
Proof.
  rewrite Commit_phases.
  destruct (insertPending_frame
    (updatePending (deletePending owner txn).1 (deletePending owner txn).2).1
    (updatePending (deletePending owner txn).1 (deletePending owner txn).2).2)
    as (_ & _ & -> & _).
  rewrite updatePending_txn. simpl. rewrite updateQueues_queues.
  rewrite deletePending_updates. apply list_fmap_ext. intros _ q _.
  unfold pending_after.
  by rewrite (cols_LoadWithIndex_cols owner) by apply deletePending_cols.
Qed.

(** C3: the code at the failing input.  A cursor queues an update for the
    column [ghost], which the collection does not have; after [Commit] the
    queue of [ghost] still holds the record, and a following acquire hands
    the transaction out with it. *)
Theorem Commit_leaves_unregistered_queue :
  let w := mkWorld people (aquireTxn people newTxn) tt in
  cols_Load people "ghost" = None ∧
  ∃ w', run nextFree [OpRange "name" update_ghost; OpCommit] w = Some w' ∧
        queue_of "ghost" (updates (w_txn w')) =
          [mkUpdate UpdatePut 1 (anyInt64 1)] ∧
        queue_of "ghost" (updates (aquireTxn (w_owner w') (w_txn w'))) =
          [mkUpdate UpdatePut 1 (anyInt64 1)].
Proof.
  cbv zeta. split; [done|]. eexists. split; [vm_compute; reflexivity|].
  vm_compute. done.
Qed.

(** ** WithString *)

(** [WithString] faults as soon as a row of the working bitmap holds a value
    that is not a string. *)
Lemma WithString_faults owner txn column predicate r x v :
  cache_ok owner txn → cols_Load owner column = Some r →
  Contains (index txn) x = true →
  Column_Value (deref owner r) x = (v, true) → assert_string v = None →
  WithString owner txn column predicate = None.
Proof.
  intros Hok Hload Hx Hv Hs. unfold WithString, WithValue.
  destruct (columnAt_cache owner txn column Hok) as [Hc _].
  destruct (columnAt_frame owner txn column) as (Hi & _).
  destruct (columnAt owner txn column) as [[r'|] t]; simpl in *;
    [|congruence].
  assert (r' = r) as -> by congruence.
  rewrite (Filter_None _ _ x); [done|by rewrite Hi|].
  by rewrite Hv, Hs.
Qed.

(** On a column whose present values are all strings [WithString] does not
    fault and keeps the rows whose string satisfies the predicate. *)
Lemma WithString_strings owner txn column (p : string → bool) r :
  cache_ok owner txn → cols_Load owner column = Some r →
  (∀ x v, Contains (index txn) x = true →
          Column_Value (deref owner r) x = (v, true) →
          is_Some (assert_string v)) →
  ∃ txn', WithString owner txn column (λ s, Some (p s)) = Some txn' ∧
          ∀ x, Contains (index txn') x =
               Contains (index txn) x &&
               match Column_Value (deref owner r) x with
               | (anyString s, true) => p s
               | _ => false
               end.
Proof.
  intros Hok Hload Hstr. unfold WithString, WithValue.
  destruct (columnAt_cache owner txn column Hok) as [Hc _].
  destruct (columnAt_frame owner txn column) as (Hi & _).
  destruct (columnAt owner txn column) as [[r'|] t]; simpl in *;
    [|congruence].
  assert (r' = r) as -> by congruence.
  match goal with |- context [Filter ?b ?f] =>
    destruct (Filter_Some b f) as [b' Hb]
  end.
  { intros x Hx. rewrite Hi in Hx.
    destruct (Column_Value (deref owner r) x) as [v [|]] eqn:Hv; [|by eexists].
    destruct (Hstr x v Hx Hv) as [s ->]. by eexists. }
  rewrite Hb. simpl. eexists. split; [done|]. intros x. simpl.
  rewrite (Filter_Contains _ _ _ x Hb), Hi.
  destruct (Contains (index txn) x) eqn:Hx; [simpl|done].
  destruct (Column_Value (deref owner r) x) as [v [|]] eqn:Hv.
  - destruct (Hstr x v Hx Hv) as [s Hs]. destruct v; simplify_eq/=.
    destruct (p s); [by rewrite bool_decide_eq_true_2|].
    by rewrite bool_decide_eq_false_2.
  - rewrite bool_decide_eq_false_2 by done. by destruct v.
Qed.

(** C7: the code at the failing input.  The column [age] holds integers;
    [WithString] on it panics, where the typed read [StringAt] of the same
    rows returns the zero string and [WithInt] filters. *)
Theorem WithString_faults_on_int_column :
  let txn := aquireTxn people newTxn in
  WithString people txn "age" starts_with_A = None ∧
  fst <$> Selector_StringAt people txn (mkSelector 1 true false) "age"
    = Some EmptyString ∧
  index <$> WithInt people txn "age" (λ v, Some (bool_decide (18 ≤ v)))
    = Some [46].
Proof. vm_compute. done. Qed.

(** ** The cache agrees with the registry in every reachable state *)

Lemma without_column_cache owner txn c :
  cache_ok owner txn → cache_ok owner (without_column owner txn c).
Proof.
  intros Hok. unfold without_column.
  destruct (columnAt_cache owner txn c Hok) as [_ Hok'].
  by destruct (columnAt owner txn c) as [[r|] t].
Qed.

Lemma union_column_cache owner txn c :
  cache_ok owner txn → cache_ok owner (union_column owner txn c).
Proof.
  intros Hok. unfold union_column.
  destruct (columnAt_cache owner txn c Hok) as [_ Hok'].
  by destruct (columnAt owner txn c) as [[r|] t].
Qed.

Lemma foldl_cache owner (f : Txn → string → Txn) l txn :
  (∀ t c, cache_ok owner t → cache_ok owner (f t c)) →
  cache_ok owner txn → cache_ok owner (foldl f txn l).
Proof.
  intros Hf. revert txn. induction l as [|c l IH]; intros txn Hok; [done|].
  simpl. by apply IH, Hf.
Qed.

Lemma WithValue_cache owner txn c p txn' :
  cache_ok owner txn → WithValue owner txn c p = Some txn' →
  cache_ok owner txn'.
Proof.
  intros Hok. unfold WithValue.
  destruct (columnAt_cache owner txn c Hok) as [_ Hok'].
  destruct (columnAt owner txn c) as [[r|] t]; simpl in *.
  - destruct (Filter _ _); intros; by simplify_eq/=.
  - intros. by simplify_eq.
Qed.

Lemma WithInt_cache owner txn c p txn' :
  cache_ok owner txn → WithInt owner txn c p = Some txn' →
  cache_ok owner txn'.
Proof.
  intros Hok. unfold WithInt.
  destruct (columnAt_cache owner txn c Hok) as [_ Hok'].
  destruct (columnAt owner txn c) as [[r|] t]; simpl in *.
  - destruct (as_numerical _); [|intros; by simplify_eq].
    destruct (Filter _ _); intros; by simplify_eq/=.
  - intros. by simplify_eq.
Qed.

Lemma WithUint_cache owner txn c p txn' :
  cache_ok owner txn → WithUint owner txn c p = Some txn' →
  cache_ok owner txn'.
Proof.
  intros Hok. unfold WithUint.
  destruct (columnAt_cache owner txn c Hok) as [_ Hok'].
  destruct (columnAt owner txn c) as [[r|] t]; simpl in *.
  - destruct (as_numerical _); [|intros; by simplify_eq].
    destruct (Filter _ _); intros; by simplify_eq/=.
  - intros. by simplify_eq.
Qed.

Lemma DeleteIf_cache {S} owner txn (fn : SelectorFn S) s :
  cache_ok owner txn →
  ∃ r, DeleteIf owner txn fn s = Some r ∧ cache_ok owner r.1.
Proof.
  intros H. apply DeleteIf_ind; [done| |done].
  intros x t reads t' Hx Hc Hr.
  by apply (read_columns_frame _ _ _ _ _ Hr).
Qed.

Lemma Select_cache {S} owner txn (fn : SelectorFn S) s :
  cache_ok owner txn →
  ∃ r, Select owner txn fn s = Some r ∧ cache_ok owner r.1.
Proof.
  intros H. apply Select_ind; [done|].
  intros x t reads t' Hx Hc Hr.
  by apply (read_columns_frame _ _ _ _ _ Hr).
Qed.

Lemma act_cache owner cur txn a txn' :
  cache_ok owner txn → act owner cur txn a = Some txn' → cache_ok owner txn'.
Proof.
  intros Hok Hact. destruct a.
  - apply act_read in Hact as (r & Hr & ->).
    by apply (Selector_columnAt_frame _ _ _ _ _ Hr).
  - by apply Cursor_Delete_Some in Hact as ->.
  - apply enqueue_frame in Hact as (_ & _ & _ & Hc).
    by apply (cache_ok_columns owner txn).
  - apply enqueue_frame in Hact as (_ & _ & _ & Hc).
    by apply (cache_ok_columns owner txn).
  - apply Cursor_UpdateAt_Some in Hact as ->.
    apply (cache_ok_columns owner txn); [|done]. apply enqueueAt_frame.
  - apply Cursor_AddAt_Some in Hact as ->.
    apply (cache_ok_columns owner txn); [|done]. apply enqueueAt_frame.
Qed.

Lemma acts_cache owner cur l txn txn' :
  cache_ok owner txn → acts owner cur txn l = Some txn' → cache_ok owner txn'.
Proof.
  revert txn. induction l as [|a l IH]; intros txn Hok Hacts; simpl in Hacts.
  - by simplify_eq.
  - destruct (act owner cur txn a) as [t|] eqn:Hact; [|done].
    apply (IH t); [|done]. by apply (act_cache owner cur txn a).
Qed.

Lemma cursorFor_cache owner txn column :
  cache_ok owner txn → cache_ok owner (cursorFor owner txn column).2.
Proof.
  intros Hok. unfold cursorFor.
  destruct (columnAt_cache owner txn column Hok) as [_ Hok'].
  destruct (columnAt owner txn column) as [[r|] t]; simpl in *; [|done].
  by destruct (list_find _ _) as [[i q]|].
Qed.

Lemma Range_cache {S} owner txn column (fn : CursorFn S) s r :
  cache_ok owner txn → Range owner txn column fn s = Some r →
  cache_ok owner r.1.2.
Proof.
  intros Hok Hr. unfold Range in Hr.
  pose proof (cursorFor_cache owner txn column Hok) as Ht.
  destruct (cursorFor owner txn column) as [[cur err] t]. simpl in *.
  destruct err as [e|]; [by simplify_eq/=|].
  unfold bitmap.Range in Hr.
  match type of Hr with context [iterate ?f ?l ?s0] =>
    assert (∀ p, iterate f l s0 = Some p → cache_ok owner p.1) as Hind
  end.
  { apply (iterate_ind
      (λ st : option (Txn * S), ∀ p, st = Some p → cache_ok owner p.1)).
    - by intros p [= <-].
    - intros x [[t0 s0]|] Hx Hp p; [|done].
      specialize (Hp _ eq_refl). simpl in *.
      destruct (fn (set_idx cur x) owner t0 s0) as [[l continue] s1].
      destruct (acts owner (set_idx cur x) t0 l) as [t1|] eqn:Hacts; [|done].
      simpl. intros [= <-]. simpl. by apply (acts_cache _ _ _ _ _ Hp Hacts). }
  destruct (iterate _ _ _) as [p|]; [|done]. simplify_eq/=.
  by apply (Hind p).
Qed.

Section Reachable.

Variable next : Collection → N * Collection.

(** The allocator does not touch the registry. *)
Hypothesis next_cols : ∀ owner, cols (next owner).2 = cols owner.

Lemma insert_cache owner txn object expireAt r :
  cache_ok owner txn →
  insert next owner txn object expireAt = Some r →
  cache_ok r.1.2 r.2.
Proof.
  intros Hok. rewrite insert_Some. intros [= <-]. cbv zeta.
  pose proof (next_cols owner) as Hcols.
  destruct (next owner) as [j owner']. simpl in *.
  set (txn1 := set_inserts txn (Set_ (inserts txn) j)).
  pose proof (insert_loop owner' j object txn1) as Hloop.
  cbv zeta in Hloop. destruct Hloop as (Hok2 & _).
  { apply (cache_ok_columns owner' txn); [done|].
    by apply (cache_ok_cols owner). }
  case_bool_decide; [|done].
  eapply cache_ok_columns; [|exact Hok2]. apply enqueueAt_frame.
Qed.

(** Every operation keeps the cache in agreement with the registry. *)
Lemma exec_cache_ok {S} (op : Op S) (w : World S) r w' :
  cache_ok (w_owner w) (w_txn w) → exec next op w = Some (r, w') →
  cache_ok (w_owner w') (w_txn w').
Proof.
  intros H Hexec. destruct op; simpl in Hexec.
  - simplify_eq/=.
    by destruct (foldl_with_column (w_owner w) (column :: extra) (w_txn w) H).
  - simplify_eq/=. apply foldl_cache; [apply without_column_cache|].
    by apply without_column_cache.
  - simplify_eq/=. apply foldl_cache; [apply union_column_cache|].
    by apply union_column_cache.
  - destruct (WithValue _ _ _ _) eqn:E; [|done]. simplify_eq/=.
    by apply (WithValue_cache _ _ _ _ _ H E).
  - destruct (WithInt _ _ _ _) eqn:E; [|done]. simplify_eq/=.
    by apply (WithInt_cache _ _ _ _ _ H E).
  - destruct (WithUint _ _ _ _) eqn:E; [|done]. simplify_eq/=.
    by apply (WithUint_cache _ _ _ _ _ H E).
  - destruct (WithString _ _ _ _) eqn:E; [|done]. simplify_eq/=.
    by apply (WithValue_cache _ _ _ _ _ H E).
  - by simplify_eq/=.
  - destruct (ReadAt _ _). by simplify_eq/=.
  - unfold DeleteAt in Hexec. destruct (negb _); by simplify_eq/=.
  - destruct (DeleteIf_cache (w_owner w) (w_txn w) fn (w_closure w) H)
      as (p & Hp & Hd).
    rewrite Hp in Hexec. by simplify_eq/=.
  - by simplify_eq/=.
  - unfold Insert in Hexec.
    destruct (insert _ _ _ _ _) as [p|] eqn:Hp; [|done]. simplify_eq/=.
    by apply (insert_cache _ _ _ _ _ H Hp).
  - unfold InsertWithTTL in Hexec.
    destruct (insert _ _ _ _ _) as [p|] eqn:Hp; [|done]. simplify_eq/=.
    by apply (insert_cache _ _ _ _ _ H Hp).
  - destruct (Select_cache (w_owner w) (w_txn w) fn (w_closure w) H)
      as (p & Hp & Hd).
    rewrite Hp in Hexec. by simplify_eq/=.
  - destruct (Range _ _ _ _ _) as [p|] eqn:Hr; [|done]. simplify_eq/=.
    by apply (Range_cache _ _ _ _ _ _ H Hr).
  - pose proof (Commit_columns (w_owner w) (w_txn w)) as Hc.
    pose proof (Commit_cols (w_owner w) (w_txn w)) as Hcols.
    destruct (Commit _ _) as [o t]. simplify_eq/=.
    apply (cache_ok_cols (w_owner w)); [done|].
    by apply (cache_ok_columns _ (w_txn w)).
  - by simplify_eq/=.
Qed.

(** From [aquireTxn] on, whatever the operations. *)
Lemma run_cache_ok {S} (ops : list (Op S)) owner pooled (s : S) w' :
  run next ops (mkWorld owner (aquireTxn owner pooled) s) = Some w' →
  cache_ok (w_owner w') (w_txn w').
Proof.
  assert (∀ w : World S, cache_ok (w_owner w) (w_txn w) →
            run next ops w = Some w' → cache_ok (w_owner w') (w_txn w')) as H.
  { induction ops as [|op ops IH]; intros w Hok Hrun; simpl in Hrun.
    - by simplify_eq.
    - destruct (exec next op w) as [[r w1]|] eqn:Hexec; [|done].
      apply (IH w1); [|done]. by apply (exec_cache_ok op w r). }
  apply H. apply cache_ok_aquire.
Qed.

End Reachable.

Lemma nextFree_cols owner : cols (nextFree owner).2 = cols owner.
Proof. unfold nextFree. by destruct (list_find _ _) as [[? ?]|]. Qed.

(** The allocator of the examples returns a row that is not live and
    leaves the collection as it is. *)
Lemma nextFree_fresh owner :
  Contains (fill owner) (nextFree owner).1 = false ∧
  (nextFree owner).2 = owner.
Proof.
  unfold nextFree.
  destruct (list_find _ _) as [[i k]|] eqn:Hfind; cbn [fst snd].
  - by apply list_find_Some in Hfind as (_ & Hk & _).
  - split; [|done]. unfold Contains. rewrite decide_True; [done|].
    pose proof (blkAt_of_nat (length (fill owner)) 0) as Hb.
    rewrite Nat.add_0_r in Hb. rewrite Hb; lia.
Qed.

(** ** The theorems at concrete inputs, and the scenarios of the
    specification *)

(** The error of [Range] at a column the collection does not have. *)
Lemma Range_error_witness :
  let txn := aquireTxn people newTxn in
  cache_ok people txn ∧
  Range people txn "ghost" update_ghost tt = Some (Some (Errorf "ghost"), txn, tt).
Proof.
  cbv zeta.
  assert (cache_ok people (aquireTxn people newTxn)) as Hok
    by apply cache_ok_aquire.
  split; [exact Hok|].
  apply (Range_error nextFree people (aquireTxn people newTxn) "ghost" Hok).
  reflexivity.
Defined.

(** The invariant along a filter, a delete, a union, an insert, an
    iteration, a commit and a second filter. *)
Lemma run_covered_witness :
  let w := mkWorld people (aquireTxn people newTxn) tt in
  let ops := [OpWith "active" []; OpDeleteAt 1%N; OpUnion "adult" [];
              OpInsert [("age", anyInt64 7)]; OpRange "name" update_ghost;
              OpCommit; OpWithout "adult" []; OpDeleteAll] in
  filters_unstaged nextFree ops w = true ∧
  deletes_covered (w_txn w) ∧
  ∃ w', run nextFree ops w = Some w' ∧ deletes_covered (w_txn w').
Proof.
  cbv zeta.
  assert (deletes_covered (aquireTxn people newTxn)) as H0
    by (apply deletes_covered_nil; reflexivity).
  split; [vm_compute; reflexivity|].
  split; [exact H0|].
  eexists. split; [vm_compute; reflexivity|].
  eapply (proj1 (run_covered nextFree
            [OpWith "active" []; OpDeleteAt 1%N; OpUnion "adult" [];
             OpInsert [("age", anyInt64 7)]; OpRange "name" update_ghost;
             OpCommit; OpWithout "adult" []; OpDeleteAll]
            (mkWorld people (aquireTxn people newTxn) tt) eq_refl H0)).
  - reflexivity.
  - vm_compute. reflexivity.
Defined.

(** Scenario 2 of the specification: insert, then commit. *)
Example insert_then_commit :
  let txn := aquireTxn empty_xy newTxn in
  match Insert nextFree empty_xy txn
          [("x", anyInt64 10); ("y", anyString "hi")] with
  | Some (j, owner1, txn1) =>
      let '(owner2, txn2) := Commit owner1 txn1 in
      j = 0%N ∧ elems (fill owner1) = [] ∧ elems (fill owner2) = [0%N] ∧
      Column_Value (deref owner2 0%nat) 0 = (anyInt64 10, true) ∧
      Column_Value (deref owner2 1%nat) 0 = (anyString "hi", true) ∧
      updates txn2 = [mkQueue "x" []; mkQueue "y" []]
  | None => False
  end.
Proof. vm_compute. done. Qed.

(** Scenario 3 of the specification: an insert with a deadline queues the
    deadline on the TTL column. *)
Example insert_with_ttl :
  let txn := aquireTxn empty_xy newTxn in
  match InsertWithTTL nextFree empty_xy txn [("x", anyInt64 7)]
          60000000000 1000 with
  | Some (j, _, txn1) =>
      queue_of expireColumn (updates txn1) =
        [mkUpdate UpdatePut j (anyInt64 60000001000)]
  | None => False
  end.
Proof. vm_compute. done. Qed.

(** Scenario 4 of the specification: Add 3, Put 0, Add 2 on a row holding 5
    leaves 2. *)
Example add_put_ordering :
  let w := mkWorld counter (aquireTxn counter newTxn) tt in
  (λ w', Column_Value (deref (w_owner w') 0%nat) 0)
    <$> run nextFree [OpRange "n" add_put_add; OpCommit] w
  = Some (anyInt64 2, true).
Proof. vm_compute. done. Qed.

(** Scenario 5 of the specification: delete all, commit, and a fresh
    transaction counts no row. *)
Example delete_all_then_count :
  let txn := aquireTxn hundred newTxn in
  let '(owner', txn') := Commit hundred (DeleteAll txn) in
  Count txn = 100 ∧ Count (aquireTxn owner' newTxn) = 0 ∧
  elems (fill owner') = [].
Proof. vm_compute. done. Qed.

(** * Further properties *)

(** ** Without and Union *)

Lemma without_column_spec owner txn c :
  cache_ok owner txn →
  let txn' := without_column owner txn c in
  cache_ok owner txn' ∧
  (∀ x, Contains (index txn') x =
        Contains (index txn) x && negb (Contains (E owner c) x)) ∧
  (cols_Load owner c = None → txn' = txn) ∧
  deletes txn' = deletes txn ∧ inserts txn' = inserts txn ∧
  updates txn' = updates txn.
Proof.
  intros Hok. cbv zeta. unfold without_column, E.
  destruct (columnAt_cache owner txn c Hok) as [Hc Hok'].
  destruct (columnAt_frame owner txn c) as (Hi & Hd & Hn & Hu).
  pose proof (columnAt_None owner txn c) as Hnone.
  destruct (columnAt owner txn c) as [[r|] t]; simpl in *; rewrite <- Hc.
  - split_and!; try done.
    intros x. unfold Column_Difference. by rewrite Contains_AndNot, Hi.
  - rewrite Hnone by done. split_and!; try done.
    intros x. by rewrite andb_true_r.
Qed.

Lemma union_column_spec owner txn c :
  cache_ok owner txn →
  let txn' := union_column owner txn c in
  cache_ok owner txn' ∧
  (∀ x, Contains (index txn') x =
        Contains (index txn) x || Contains (E owner c) x) ∧
  (cols_Load owner c = None → txn' = txn) ∧
  deletes txn' = deletes txn ∧ inserts txn' = inserts txn ∧
  updates txn' = updates txn.
Proof.
  intros Hok. cbv zeta. unfold union_column, E.
  destruct (columnAt_cache owner txn c Hok) as [Hc Hok'].
  destruct (columnAt_frame owner txn c) as (Hi & Hd & Hn & Hu).
  pose proof (columnAt_None owner txn c) as Hnone.
  destruct (columnAt owner txn c) as [[r|] t]; simpl in *; rewrite <- Hc.
  - split_and!; try done.
    intros x. unfold Column_Union. by rewrite Contains_Or, Hi.
  - rewrite Hnone by done. split_and!; try done.
    intros x. by rewrite orb_false_r.
Qed.

Lemma foldl_without_column owner l txn :
  cache_ok owner txn →
  let txn' := foldl (without_column owner) txn l in
  cache_ok owner txn' ∧
  (∀ x, Contains (index txn') x =
        Contains (index txn) x &&
        forallb (λ c, negb (Contains (E owner c) x)) l) ∧
  ((∀ c, c ∈ l → cols_Load owner c = None) → txn' = txn) ∧
  deletes txn' = deletes txn ∧ inserts txn' = inserts txn ∧
  updates txn' = updates txn.
Proof.
  revert txn. induction l as [|c l IH]; intros txn Hok; cbv zeta; simpl.
  - split_and!; try done. intros x. by rewrite andb_true_r.
  - pose proof (without_column_spec owner txn c Hok) as H1. cbv zeta in H1.
    destruct H1 as (Hok1 & Hx1 & Hmiss & Hd & Hn & Hu).
    specialize (IH _ Hok1). cbv zeta in IH.
    destruct IH as (Hok2 & Hx2 & Hall & Hd2 & Hn2 & Hu2).
    split_and!; [done| |intros Hnone|congruence..].
    + intros x. by rewrite Hx2, Hx1, andb_assoc.
    + rewrite Hall.
      * apply Hmiss, Hnone. by left.
      * intros c' Hc'. apply Hnone. by right.
Qed.

Lemma foldl_union_column owner l txn :
  cache_ok owner txn →
  let txn' := foldl (union_column owner) txn l in
  cache_ok owner txn' ∧
  (∀ x, Contains (index txn') x =
        Contains (index txn) x ||
        existsb (λ c, Contains (E owner c) x) l) ∧
  ((∀ c, c ∈ l → cols_Load owner c = None) → txn' = txn) ∧
  deletes txn' = deletes txn ∧ inserts txn' = inserts txn ∧
  updates txn' = updates txn.
Proof.
  revert txn. induction l as [|c l IH]; intros txn Hok; cbv zeta; simpl.
  - split_and!; try done. intros x. by rewrite orb_false_r.
  - pose proof (union_column_spec owner txn c Hok) as H1. cbv zeta in H1.
    destruct H1 as (Hok1 & Hx1 & Hmiss & Hd & Hn & Hu).
    specialize (IH _ Hok1). cbv zeta in IH.
    destruct IH as (Hok2 & Hx2 & Hall & Hd2 & Hn2 & Hu2).
    split_and!; [done| |intros Hnone|congruence..].
    + intros x. by rewrite Hx2, Hx1, orb_assoc.
    + rewrite Hall.
      * apply Hmiss, Hnone. by left.
      * intros c' Hc'. apply Hnone. by right.
Qed.

(** X1: under a cache that agrees with the registry, [Without] leaves in the
    working bitmap the rows that are in none of the existence bitmaps of the
    named columns that are registered; a name that is not registered is
    skipped, and when none is registered the transaction is unchanged.  The
    deletes, the inserts and the queues are not touched. *)
Theorem Without_spec (owner : Collection) (txn : Txn) (column : string)
  (extra : list string) :
  cache_ok owner txn →
  let txn' := Without owner txn column extra in
  (∀ x, Contains (index txn') x =
        Contains (index txn) x &&
        forallb (λ c, negb (Contains (E owner c) x)) (column :: extra)) ∧
  ((∀ c, c ∈ column :: extra → cols_Load owner c = None) → txn' = txn) ∧
  deletes txn' = deletes txn ∧ inserts txn' = inserts txn ∧
  updates txn' = updates txn.
Proof.
  intros Hok. cbv zeta.
  pose proof (foldl_without_column owner (column :: extra) txn Hok) as H.
  cbv zeta in H. by destruct H as (_ & H).
Qed.

(** X2: under a cache that agrees with the registry, [Union] adds to the
    working bitmap the existence bitmaps of the named columns that are
    registered, whatever the snapshot held; a name that is not registered is
    skipped.  The deletes, the inserts and the queues are not touched. *)
Theorem Union_spec (owner : Collection) (txn : Txn) (column : string)
  (extra : list string) :
  cache_ok owner txn →
  let txn' := Union owner txn column extra in
  (∀ x, Contains (index txn') x =
        Contains (index txn) x ||
        existsb (λ c, Contains (E owner c) x) (column :: extra)) ∧
  ((∀ c, c ∈ column :: extra → cols_Load owner c = None) → txn' = txn) ∧
  deletes txn' = deletes txn ∧ inserts txn' = inserts txn ∧
  updates txn' = updates txn.
Proof.
  intros Hok. cbv zeta.
  pose proof (foldl_union_column owner (column :: extra) txn Hok) as H.
  cbv zeta in H. by destruct H as (_ & H).
Qed.

(** X19: narrowing filters commute and [With] is idempotent: under a cache
    that agrees with the registry, [With] followed by [Without] selects the
    same rows as [Without] followed by [With], and repeating a [With]
    selects the same rows as doing it once. *)
Theorem filters_commute (owner : Collection) (txn : Txn) (a b : string)
  (ea eb : list string) :
  cache_ok owner txn →
  (∀ x, Contains (index (Without owner (With owner txn a ea) b eb)) x =
        Contains (index (With owner (Without owner txn b eb) a ea)) x) ∧
  (∀ x, Contains (index (With owner (With owner txn a ea) a ea)) x =
        Contains (index (With owner txn a ea)) x).
Proof.
  intros Hok.
  pose proof (foldl_with_column owner (a :: ea) txn Hok) as Hw.
  cbv zeta in Hw. destruct Hw as (Hokw & Hxw & _).
  pose proof (foldl_without_column owner (b :: eb) txn Hok) as Ho.
  cbv zeta in Ho. destruct Ho as (Hoko & Hxo & _).
  pose proof (foldl_without_column owner (b :: eb) _ Hokw) as Hwo.
  cbv zeta in Hwo. destruct Hwo as (_ & Hxwo & _).
  pose proof (foldl_with_column owner (a :: ea) _ Hoko) as How.
  cbv zeta in How. destruct How as (_ & Hxow & _).
  pose proof (foldl_with_column owner (a :: ea) _ Hokw) as Hww.
  cbv zeta in Hww. destruct Hww as (_ & Hxww & _).
  unfold With, Without. split; intros x.
  - change (Contains (index (foldl (without_column owner)
              (foldl (with_column owner) txn (a :: ea)) (b :: eb))) x =
            Contains (index (foldl (with_column owner)
              (foldl (without_column owner) txn (b :: eb)) (a :: ea))) x).
    rewrite Hxwo, Hxw, Hxow, Hxo.
    rewrite <- !andb_assoc. f_equal. apply andb_comm.
  - change (Contains (index (foldl (with_column owner)
              (foldl (with_column owner) txn (a :: ea)) (a :: ea))) x =
            Contains (index (foldl (with_column owner) txn (a :: ea))) x).
    rewrite Hxww, Hxw. rewrite <- andb_assoc. f_equal. apply andb_diag.
Qed.

(** ** The value filters *)

(** X3: under a cache that agrees with the registry, [WithValue] with a
    predicate that does not panic never faults; it keeps the rows of the
    working bitmap that are present in the column and whose value satisfies
    the predicate, and on a column that is not registered it returns the
    transaction unchanged.  The deletes, the inserts and the queues are not
    touched. *)
Theorem WithValue_spec (owner : Collection) (txn : Txn) (column : string)
  (p : any → bool) :
  cache_ok owner txn →
  ∃ txn', WithValue owner txn column (λ v, Some (p v)) = Some txn' ∧
    (∀ x, Contains (index txn') x =
          Contains (index txn) x && keeps_value owner column p x) ∧
    (cols_Load owner column = None → txn' = txn) ∧
    deletes txn' = deletes txn ∧ inserts txn' = inserts txn ∧
    updates txn' = updates txn.
Proof.
  intros Hok. unfold WithValue, keeps_value.
  destruct (columnAt_cache owner txn column Hok) as [Hc _].
  destruct (columnAt_frame owner txn column) as (Hi & Hd & Hn & Hu).
  pose proof (columnAt_None owner txn column) as Hnone.
  destruct (columnAt owner txn column) as [[r|] t]; simpl in *; rewrite <- Hc.
  - match goal with |- context [Filter ?b ?f] =>
      destruct (Filter_Some b f) as [b' Hb]
    end.
    { intros x _. by destruct (Column_Value (deref owner r) x) as [v [|]]. }
    rewrite Hb. simpl. eexists. split; [done|]. simpl.
    split_and!; try done. intros x.
    rewrite (Filter_Contains _ _ _ x Hb), Hi. f_equal.
    destruct (Column_Value (deref owner r) x) as [v [|]].
    + destruct (p v); [by rewrite bool_decide_eq_true_2|].
      by rewrite bool_decide_eq_false_2.
    + by rewrite bool_decide_eq_false_2.
  - rewrite Hnone by done. eexists. split; [done|].
    split_and!; try done. intros x. by rewrite andb_true_r.
Qed.

Lemma with_number_spec owner txn column (conv : Column → N → Z * bool)
  (p : Z → bool) :
  cache_ok owner txn →
  ∃ txn',
    match columnAt owner txn column with
    | (Some c, t) =>
        match as_numerical (deref owner c) with
        | Some n =>
            b ← Filter (index t)
                  (λ x, let '(v, ok) := conv n x in
                        if ok then Some (p v) else Some false);
            Some (set_index t b)
        | None => Some t
        end
    | (None, t) => Some t
    end = Some txn' ∧
    (∀ x, Contains (index txn') x =
          Contains (index txn) x && keeps_number owner column conv p x) ∧
    (cols_Load owner column = None → txn' = txn) ∧
    deletes txn' = deletes txn ∧ inserts txn' = inserts txn ∧
    updates txn' = updates txn.
Proof.
  intros Hok. unfold keeps_number.
  destruct (columnAt_cache owner txn column Hok) as [Hc _].
  destruct (columnAt_frame owner txn column) as (Hi & Hd & Hn & Hu).
  pose proof (columnAt_None owner txn column) as Hnone.
  destruct (columnAt owner txn column) as [[r|] t]; simpl in *; rewrite <- Hc.
  - unfold as_numerical. destruct (col_numerical (deref owner r)).
    + match goal with |- context [Filter ?b ?f] =>
        destruct (Filter_Some b f) as [b' Hb]
      end.
      { intros x _. by destruct (conv (deref owner r) x) as [v [|]]. }
      rewrite Hb. simpl. eexists. split; [done|]. simpl.
      split_and!; try done. intros x.
      rewrite (Filter_Contains _ _ _ x Hb), Hi. f_equal.
      destruct (conv (deref owner r) x) as [v [|]].
      * destruct (p v); [by rewrite bool_decide_eq_true_2|].
        by rewrite bool_decide_eq_false_2.
      * by rewrite bool_decide_eq_false_2.
    + eexists. split; [done|]. split_and!; try done.
      intros x. by rewrite Hi, andb_true_r.
  - rewrite Hnone by done. eexists. split; [done|].
    split_and!; try done. intros x. by rewrite andb_true_r.
Qed.

(** X4: under a cache that agrees with the registry, [WithInt] and
    [WithUint] with a predicate that does not panic never fault; on a
    numerical column they keep the rows whose converted value satisfies the
    predicate, and on a column that is not numerical, or not registered,
    they keep every row of the working bitmap. *)
Theorem WithInt_WithUint_spec (owner : Collection) (txn : Txn)
  (column : string) (p : Z → bool) :
  cache_ok owner txn →
  (∃ txn', WithInt owner txn column (λ v, Some (p v)) = Some txn' ∧
     (∀ x, Contains (index txn') x =
           Contains (index txn) x &&
           keeps_number owner column Column_Int64 p x) ∧
     (cols_Load owner column = None → txn' = txn) ∧
     deletes txn' = deletes txn ∧ inserts txn' = inserts txn ∧
     updates txn' = updates txn) ∧
  (∃ txn', WithUint owner txn column (λ v, Some (p v)) = Some txn' ∧
     (∀ x, Contains (index txn') x =
           Contains (index txn) x &&
           keeps_number owner column Column_Uint64 p x) ∧
     (cols_Load owner column = None → txn' = txn) ∧
     deletes txn' = deletes txn ∧ inserts txn' = inserts txn ∧
     updates txn' = updates txn).
Proof.
  intros Hok. split.
  - apply (with_number_spec owner txn column Column_Int64 p Hok).
  - apply (with_number_spec owner txn column Column_Uint64 p Hok).
Qed.

(** ** The order of the iteration *)

Lemma StronglySorted_filter_lt (P : nat → Prop) `{∀ x, Decision (P x)} l :
  StronglySorted lt l → StronglySorted lt (filter P l).
Proof.
  induction 1 as [|x l Hl IH Hx]; [constructor|].
  rewrite filter_cons. case_decide; [|done].
  constructor; [done|]. apply Forall_forall. intros y Hy.
  apply list_elem_of_filter in Hy as [_ Hy].
  by apply (proj1 (Forall_forall _ _) Hx).
Qed.

Lemma StronglySorted_seq j n : StronglySorted lt (seq j n).
Proof.
  revert j. induction n as [|n IH]; intros j; simpl; [constructor|].
  constructor; [apply IH|]. apply Forall_forall. intros y Hy.
  apply elem_of_seq in Hy. lia.
Qed.

Lemma word_bits_sorted i w : StronglySorted N.lt (word_bits i w).
Proof.
  unfold word_bits.
  apply (StronglySorted_fmap _ lt); [intros x y Hxy; lia|].
  apply StronglySorted_filter_lt, StronglySorted_seq.
Qed.

Lemma blkAt_lt x y : (blkAt x < blkAt y)%nat → (x < y)%N.
Proof.
  unfold blkAt. rewrite !N.shiftr_div_pow2. change (2 ^ 6)%N with 64%N.
  intros H. assert (x `div` 64 < y `div` 64)%N as Hd by lia.
  destruct (N.lt_ge_cases x y) as [|Hge]; [done|].
  apply (N.Div0.div_le_mono _ _ 64) in Hge. lia.
Qed.

Lemma elems_from_sorted k (b : Bitmap) :
  StronglySorted N.lt (mjoin (imap (λ i, word_bits (k + i)) b)) ∧
  ∀ x, x ∈ mjoin (imap (λ i, word_bits (k + i)) b) → (k ≤ blkAt x)%nat.
Proof.
  revert k. induction b as [|w b IH]; intros k; simpl.
  - split; [constructor|]. intros x Hx. by apply elem_of_nil in Hx.
  - rewrite (imap_ext _ (λ i, word_bits (S k + i))) by
      (intros; simpl; f_equal; lia).
    destruct (IH (S k)) as [Hs Hge]. rewrite Nat.add_0_r. split.
    + apply StronglySorted_app_2; [|apply word_bits_sorted|done].
      intros x1 x2 H1 H2. apply elem_of_word_bits in H1 as [H1 _].
      apply Hge in H2. apply blkAt_lt. lia.
    + intros x Hx. apply elem_of_app in Hx as [Hx|Hx].
      * apply elem_of_word_bits in Hx as [Hx _]. lia.
      * apply Hge in Hx. lia.
Qed.

Lemma elems_sorted b : StronglySorted N.lt (elems b).
Proof. apply (elems_from_sorted 0 b). Qed.

Lemma elems_NoDup b : NoDup (elems b).
Proof.
  pose proof (elems_sorted b) as H. induction H as [|x l Hl IH Hx].
  - constructor.
  - constructor; [|done]. intros Hin.
    pose proof (proj1 (Forall_forall _ _) Hx x Hin). lia.
Qed.

(** ** Iteration with any callback *)





(** The iteration with callbacks that read a column: [Select] goes through
    the five rows, [DeleteIf] stages the even ones. *)
Example select_reading_callback :
  let txn := aquireTxn people newTxn in
  (λ r, (r.2.2.*1, cc_name <$> columns r.1))
    <$> Select people txn (traced read_name) (tt, []) =
  Some ((λ x, mkSelector x true false) <$> [1; 2; 3; 4; 5]%N, ["name"]).
Proof. vm_compute. done. Qed.

Example delete_if_reading_callback :
  let txn := aquireTxn people newTxn in
  (λ r, (r.2.2.*1, elems (deletes r.1)))
    <$> DeleteIf people txn (traced read_name_even) (tt, []) =
  Some ((λ x, mkSelector x true false) <$> [1; 2; 3; 4; 5]%N, [2; 4]%N).
Proof. vm_compute. done. Qed.

(** ** Commits that have nothing to do *)

Lemma updateQueues_inert txn owner l :
  Forall (λ q, uq_update q = [] ∨
               (cols_LoadWithIndex owner (uq_name q)).1 = []) l →
  updateQueues txn owner l = (owner, l).
Proof.
  induction 1 as [|q l Hq Hl IH]; simpl; [done|].
  assert (updateQueuePending txn owner q = (owner, q)) as ->.
  { unfold updateQueuePending. case_decide as Hlen; [done|].
    destruct Hq as [Hq|Hq]; [by rewrite Hq in Hlen|].
    destruct (cols_LoadWithIndex owner (uq_name q)) as [cs ex].
    simpl in Hq. subst cs. by rewrite orb_true_r. }
  by rewrite IH.
Qed.

Lemma Commit_inert owner txn :
  deletes txn = [] → inserts txn = [] →
  Forall (λ q, uq_update q = [] ∨
               (cols_LoadWithIndex owner (uq_name q)).1 = []) (updates txn) →
  Commit owner txn = (owner, txn).
Proof.
  intros Hd Hn Hu. unfold Commit, deletePending, updatePending, insertPending.
  rewrite Hd. simpl. rewrite (updateQueues_inert _ _ _ Hu).
  simpl. rewrite Hn. simpl. by destruct txn.
Qed.

(** X7: a commit with nothing pending is a no-op: when the deletes and the
    inserts are empty and every update queue is empty, [Commit] returns the
    collection and the transaction as they were. *)
Theorem Commit_noop (owner : Collection) (txn : Txn) :
  nothing_pending txn → Commit owner txn = (owner, txn).
Proof.
  intros (Hd & Hn & Hu). apply Commit_inert; [done..|].
  eapply Forall_impl; [exact Hu|]. intros q Hq. by left.
Qed.

(** X8: [Commit] is idempotent: a second commit right after a commit
    changes neither the collection nor the transaction, also when the first
    one left records in the queue of a column that is not registered. *)
Theorem Commit_idempotent (owner : Collection) (txn : Txn) :
  Commit (Commit owner txn).1 (Commit owner txn).2 = Commit owner txn.
Proof.
  rewrite (Commit_inert (Commit owner txn).1 (Commit owner txn).2).
  - by destruct (Commit owner txn).
  - apply Commit_deletes.
  - apply Commit_inserts.
  - rewrite Commit_updates. apply Forall_fmap, Forall_forall. intros q _.
    simpl.
    rewrite (cols_LoadWithIndex_cols owner (Commit owner txn).1)
      by apply Commit_cols.
    unfold pending_after. case_decide as Hq; [by right|by left].
Qed.

(** X9: a rollback discards everything: a commit after [Rollback] changes
    neither the collection nor the transaction, and a transaction that goes
    back to the pool after a rollback comes out of the next acquire with
    nothing pending, an empty cache and the fill of the new owner as its
    working bitmap. *)
Theorem Rollback_discards (owner owner' : Collection) (txn : Txn) :
  Commit owner (Rollback txn) = (owner, Rollback txn) ∧
  nothing_pending (aquireTxn owner' (Rollback txn)) ∧
  index (aquireTxn owner' (Rollback txn)) = fill owner' ∧
  columns (aquireTxn owner' (Rollback txn)) = [].
Proof.
  assert (nothing_pending (Rollback txn)) as Hnp.
  { split_and!; [done..|]. simpl. apply Forall_fmap, Forall_forall.
    by intros q _. }
  split_and!; [|exact Hnp|done..].
  apply Commit_inert; [done..|].
  destruct Hnp as (_ & _ & Hu). eapply Forall_impl; [exact Hu|].
  intros q Hq. by left.
Qed.

(** ** What a commit publishes *)

(** X10: [DeleteAll] followed by [Commit] removes from [fill] every row of
    the working bitmap and every row staged before, and publishes the staged
    inserts; on an unfiltered snapshot of the collection, what is left in
    [fill] is exactly the rows this transaction inserted. *)
Theorem DeleteAll_Commit (owner : Collection) (txn : Txn) :
  let owner' := (Commit owner (DeleteAll txn)).1 in
  (∀ x, Contains (fill owner') x =
        Contains (fill owner) x && negb (Contains (deletes txn) x) &&
        negb (Contains (index txn) x) || Contains (inserts txn) x) ∧
  ((∀ x, Contains (index txn) x = Contains (fill owner) x) →
   ∀ x, Contains (fill owner') x = Contains (inserts txn) x) ∧
  index (Commit owner (DeleteAll txn)).2 = index txn.
Proof.
  cbv zeta.
  assert (∀ x, Contains (fill (Commit owner (DeleteAll txn)).1) x =
        Contains (fill owner) x && negb (Contains (deletes txn) x) &&
        negb (Contains (index txn) x) || Contains (inserts txn) x) as Hx.
  { intros x. rewrite Commit_fill. unfold DeleteAll. simpl.
    rewrite Contains_Or, negb_orb. by rewrite andb_assoc. }
  split_and!; [done| |by rewrite Commit_index].
  intros Hsnap x. rewrite Hx, Hsnap.
  by destruct (Contains (fill owner) x), (Contains (deletes txn) x).
Qed.

(** X11: a delete that is committed is seen by the next transaction: when
    row [i] is in the working bitmap and is not a staged insert, after
    [DeleteAt i] and [Commit] the row is not in [fill], and a transaction
    acquired afterwards does not read it. *)
Theorem DeleteAt_Commit (owner : Collection) (txn pooled : Txn) (i : N) :
  Contains (index txn) i = true → Contains (inserts txn) i = false →
  let owner' := (Commit owner (DeleteAt txn i).2).1 in
  (DeleteAt txn i).1 = true ∧
  Contains (fill owner') i = false ∧
  ReadAt (aquireTxn owner' pooled) i = (mkSelector 0 false false, false).
Proof.
  intros Hi Hn. cbv zeta.
  assert (Contains (fill (Commit owner (DeleteAt txn i).2).1) i = false) as Hf.
  { rewrite Commit_fill. unfold DeleteAt. rewrite Hi. simpl.
    rewrite Contains_Set, bool_decide_eq_true_2 by done.
    by rewrite Hn, andb_false_r. }
  split_and!; [by unfold DeleteAt; rewrite Hi|done|].
  unfold ReadAt, aquireTxn, Clone. simpl. by rewrite Hf.
Qed.

(** ** The delete phase on the columns *)

Lemma deref_assign_DeleteMany owner c (d : Bitmap) r x :
  Contains (col_fill (deref (assign owner c
              (Column_DeleteMany (deref owner c) d)) r)) x =
  Contains (col_fill (deref owner r)) x &&
  negb (bool_decide (r = c) && Contains d x).
Proof.
  unfold deref, assign. simpl. case_bool_decide as Hr; simpl.
  - subst r. destruct (store owner !! c) as [col|] eqn:Hc; simpl.
    + rewrite list_lookup_insert_eq by (by eapply lookup_lt_Some).
      simpl. apply Contains_AndNot.
    + rewrite list_insert_ge by (by apply lookup_ge_None).
      by rewrite Hc.
  - rewrite list_lookup_insert_ne by done. by rewrite andb_true_r.
Qed.

Lemma foldl_DeleteMany (d : Bitmap) l owner r x :
  Contains (col_fill (deref
    (foldl (λ o c, assign o c (Column_DeleteMany (deref o c) d)) owner l) r)) x =
  Contains (col_fill (deref owner r)) x &&
  negb (bool_decide (r ∈ l) && Contains d x).
Proof.
  revert owner. induction l as [|c l IH]; intros owner; simpl.
  - by rewrite andb_true_r.
  - rewrite IH, deref_assign_DeleteMany, <- andb_assoc. f_equal.
    destruct (Contains d x); [|by rewrite !andb_false_r].
    rewrite !andb_true_r, <- negb_orb. f_equal.
    destruct (decide (r = c)) as [->|Hne].
    + rewrite bool_decide_eq_true_2 by done.
      by rewrite (bool_decide_eq_true_2 (c ∈ c :: l)) by (by left).
    + rewrite (bool_decide_eq_false_2 (r = c)) by done. simpl.
      apply bool_decide_ext. rewrite elem_of_cons.
      split; [by right|by intros [?|?]].
Qed.

(** X12: the delete phase of a commit fans out to the columns: after
    [deletePending] a row staged for deletion is absent from every column
    the registry holds, base or computed, the other rows of these columns
    stay as they were, and a column the registry does not hold is not
    touched. *)
Theorem deletePending_columns_rows (owner : Collection) (txn : Txn)
  (r : ColRef) (x : N) :
  Contains (col_fill (deref (deletePending owner txn).1 r)) x =
  Contains (col_fill (deref owner r)) x &&
  negb (bool_decide (r ∈ cols_Range owner) && Contains (deletes txn) x).
Proof.
  unfold deletePending. case_decide as Hlen; simpl.
  - apply length_zero_iff_nil in Hlen. rewrite Hlen. simpl.
    by rewrite andb_false_r, andb_true_r.
  - apply foldl_DeleteMany.
Qed.

Section Publish.

Variable next : Collection → N * Collection.

(** X13: an insert that is committed is seen by the next transaction: for
    every allocator, after [Insert] and [Commit] the reserved row is in
    [fill], so a transaction acquired afterwards reads it, while the
    transaction that inserted it reads the row exactly as it did before the
    insert. *)
Theorem Insert_Commit (owner : Collection) (txn pooled : Txn)
  (object : Object) :
  ∃ r, Insert next owner txn object = Some r ∧
  let c := Commit r.1.2 r.2 in
  Contains (fill c.1) r.1.1 = true ∧
  ReadAt (aquireTxn c.1 pooled) r.1.1 = (mkSelector r.1.1 true false, true) ∧
  (∀ x, ReadAt c.2 x = ReadAt txn x) ∧
  inserts c.2 = [].
Proof.
  unfold Insert.
  destruct (insert_bitmaps next owner txn object 0)
    as (txn1 & Hins & Hi & Hd & Hn).
  eexists. split; [exact Hins|]. cbv zeta. simpl.
  assert (Contains (fill (Commit (next owner).2 txn1).1) (next owner).1 = true)
    as Hf.
  { rewrite Commit_fill, Hn, Contains_Set.
    rewrite bool_decide_eq_true_2 by done. by rewrite orb_true_r. }
  split_and!; [done| | |apply Commit_inserts].
  - unfold ReadAt, aquireTxn, Clone. simpl. by rewrite Hf.
  - intros x. unfold ReadAt. by rewrite Commit_index, Hi.
Qed.

End Publish.

(** ** The cursor of [Range] and its update queue *)

Lemma queue_of_app_empty name l q :
  uq_update q = [] → queue_of name (l ++ [q]) = queue_of name l.
Proof.
  intros Hq. induction l as [|q' l IH]; simpl.
  - by case_decide.
  - by case_decide.
Qed.

Lemma int16_small z : 0 ≤ z < 2 ^ 15 → int16 z = z.
Proof. intros Hz. unfold int16. rewrite Z.mod_small; lia. Qed.

Lemma int16_wraps z : 2 ^ 15 ≤ z < 2 ^ 16 → int16 z < 0.
Proof.
  intros Hz. unfold int16.
  replace (z + 2 ^ 15) with ((z - 2 ^ 15) + 1 * 2 ^ 16) by lia.
  rewrite Z.mod_add by lia. rewrite Z.mod_small; lia.
Qed.

(** The queue [cursorFor] binds the cursor to. *)
Lemma cursorFor_find owner txn column c :
  cache_ok owner txn → cols_Load owner column = Some c →
  let r := cursorFor owner txn column in
  r.1.2 = None ∧ cur_column r.1.1 = Some c ∧
  index r.2 = index txn ∧ deletes r.2 = deletes txn ∧
  inserts r.2 = inserts txn ∧
  (∀ name, queue_of name (updates r.2) = queue_of name (updates txn)) ∧
  ∃ i q, list_find (λ q, uq_name q = column) (updates r.2) = Some (i, q) ∧
         cur_update r.1.1 = int16 (Z.of_nat i) ∧
         sel_txn (cur_sel r.1.1) = true ∧
         (i ≤ length (updates txn))%nat ∧
         (list_find (λ q, uq_name q = column) (updates txn) = None →
          i = length (updates txn)).
Proof.
  intros Hok Hload. cbv zeta. unfold cursorFor.
  destruct (columnAt_cache owner txn column Hok) as [Hc _].
  destruct (columnAt_frame owner txn column) as (Hi & Hd & Hn & Hu).
  rewrite Hload in Hc.
  destruct (columnAt owner txn column) as [[r|] t]; simpl in *; [|done].
  simplify_eq. rewrite <- Hu.
  destruct (list_find _ (updates t)) as [[i q]|] eqn:Hfind; simpl.
  - split_and!; try done. exists i, q. split_and!; try done.
    apply list_find_Some in Hfind as (Hq & _). apply lookup_lt_Some in Hq. lia.
  - split_and!; try done.
    + intros name. by apply queue_of_app_empty.
    + exists (length (updates t)), (mkQueue column []).
      split_and!; try done.
      rewrite list_find_app_r by done. simpl. by rewrite decide_True.
Qed.

Lemma enqueue_found cur u txn i q column :
  list_find (λ q, uq_name q = column) (updates txn) = Some (i, q) →
  cur_update cur = Z.of_nat i → sel_txn (cur_sel cur) = true →
  ∃ t, enqueue cur u txn = Some t ∧
       index t = index txn ∧ deletes t = deletes txn ∧
       inserts t = inserts txn ∧
       ∀ name, queue_of name (updates t) =
               queue_of name (updates txn)
               ++ (if decide (column = name) then [u] else []).
Proof.
  intros Hfind Hcur Htxn. unfold enqueue. rewrite Htxn, Hcur.
  rewrite decide_True by lia. rewrite Nat2Z.id.
  pose proof Hfind as Hq. apply list_find_Some in Hq as (Hq & _).
  rewrite Hq. simpl. eexists. split; [done|]. split_and!; try done.
  intros name. simpl.
  pose proof (queue_of_enqueue_list column u name (updates txn)) as H.
  by rewrite Hfind in H.
Qed.

(** X14: under a cache that agrees with the registry and with fewer than
    2^15 update queues, [cursorFor] on a registered column returns no error
    and a cursor bound to the column and to the first queue of that name,
    creating an empty one when there is none; the pending updates of every
    column are as before, and [Update] and [Add] through the cursor append
    their record, at the row of the cursor, to the queue of that column and
    to no other. *)
Theorem cursorFor_queue (owner : Collection) (txn : Txn) (column : string)
  (c : ColRef) :
  cache_ok owner txn → cols_Load owner column = Some c →
  Z.of_nat (length (updates txn)) < 2 ^ 15 →
  let r := cursorFor owner txn column in
  r.1.2 = None ∧ cur_column r.1.1 = Some c ∧
  (∀ name, queue_of name (updates r.2) = queue_of name (updates txn)) ∧
  (∀ x v, ∃ t, Cursor_Update (set_idx r.1.1 x) v r.2 = Some t ∧
     ∀ name, queue_of name (updates t) =
             queue_of name (updates txn)
             ++ (if decide (column = name) then [mkUpdate UpdatePut x v]
                 else [])) ∧
  (∀ x v, ∃ t, Cursor_Add (set_idx r.1.1 x) v r.2 = Some t ∧
     ∀ name, queue_of name (updates t) =
             queue_of name (updates txn)
             ++ (if decide (column = name) then [mkUpdate UpdateAdd x v]
                 else [])).
Proof.
  intros Hok Hload Hlen. cbv zeta.
  pose proof (cursorFor_find owner txn column c Hok Hload) as H.
  cbv zeta in H.
  destruct H
    as (Herr & Hcol & _ & _ & _ & Hq & i & q & Hfind & Hcur & Htxn & Hi & _).
  assert (cur_update (cursorFor owner txn column).1.1 = Z.of_nat i) as Hcur'.
  { rewrite Hcur. apply int16_small. lia. }
  split_and!; try done.
  - intros x v. unfold Cursor_Update.
    destruct (enqueue_found (set_idx (cursorFor owner txn column).1.1 x)
                (mkUpdate UpdatePut x v) (cursorFor owner txn column).2
                i q column Hfind Hcur' Htxn) as (t & Ht & _ & _ & _ & Hqt).
    exists t. split; [done|]. intros name. by rewrite Hqt, Hq.
  - intros x v. unfold Cursor_Add.
    destruct (enqueue_found (set_idx (cursorFor owner txn column).1.1 x)
                (mkUpdate UpdateAdd x v) (cursorFor owner txn column).2
                i q column Hfind Hcur' Htxn) as (t & Ht & _ & _ & _ & Hqt).
    exists t. split; [done|]. intros name. by rewrite Hqt, Hq.
Qed.

(** X15: the cursor keeps the index of its queue in an [int16].  With at
    least 2^15 (and fewer than 2^16) update queues and none for the column,
    the index of the queue [cursorFor] creates wraps to a negative number,
    and [Update] and [Add] through the cursor panic. *)
Theorem cursorFor_int16_overflow (owner : Collection) (txn : Txn)
  (column : string) (c : ColRef) :
  cache_ok owner txn → cols_Load owner column = Some c →
  list_find (λ q, uq_name q = column) (updates txn) = None →
  2 ^ 15 ≤ Z.of_nat (length (updates txn)) < 2 ^ 16 →
  let r := cursorFor owner txn column in
  r.1.2 = None ∧ cur_update r.1.1 < 0 ∧
  (∀ x v, Cursor_Update (set_idx r.1.1 x) v r.2 = None) ∧
  (∀ x v, Cursor_Add (set_idx r.1.1 x) v r.2 = None).
Proof.
  intros Hok Hload Hnone Hlen. cbv zeta.
  pose proof (cursorFor_find owner txn column c Hok Hload) as H.
  cbv zeta in H.
  destruct H as (Herr & _ & _ & _ & _ & _ & i & q & _ & Hcur & _ & _ & Hi).
  specialize (Hi Hnone). subst i.
  assert (cur_update (cursorFor owner txn column).1.1 < 0) as Hneg.
  { rewrite Hcur. by apply int16_wraps. }
  split_and!; try done.
  - intros x v. unfold Cursor_Update, enqueue. simpl.
    destruct (sel_txn _); [|done]. by rewrite decide_False by lia.
  - intros x v. unfold Cursor_Add, enqueue. simpl.
    destruct (sel_txn _); [|done]. by rewrite decide_False by lia.
Qed.

(** ** Reads through a selector *)

(** X16: under a cache that agrees with the registry, the typed reads of
    a selector that has its transaction or its collection never fault:
    [StringAt] returns the string the column holds at the row and the empty
    string when the row is absent or holds a value that is not a string,
    [IntAt] returns zero on a column that is not numerical, [BoolAt] returns
    the presence bit, and on a column that is not registered every read
    returns its zero value and leaves the transaction, cache included, as it
    was.  A selector with neither, as the [Selector{}] of a failed [ReadAt],
    faults on every read; the selector of a successful [ReadAt] has its
    transaction and the row. *)
Theorem Selector_reads (owner : Collection) (txn : Txn) (sel : Selector)
  (column : string) :
  cache_ok owner txn →
  (sel_txn sel = true ∨ sel_col sel = true →
   fst <$> Selector_StringAt owner txn sel column =
     Some match cols_Load owner column with
          | Some r =>
              match Column_Value (deref owner r) (idx sel) with
              | (anyString s, true) => s
              | _ => EmptyString
              end
          | None => EmptyString
          end ∧
   fst <$> Selector_IntAt owner txn sel column =
     Some match cols_Load owner column with
          | Some r =>
              if col_numerical (deref owner r)
              then (Column_Int64 (deref owner r) (idx sel)).1 else 0
          | None => 0
          end ∧
   fst <$> Selector_BoolAt owner txn sel column =
     Some match cols_Load owner column with
          | Some r => Contains (col_fill (deref owner r)) (idx sel)
          | None => false
          end ∧
   (cols_Load owner column = None →
    Selector_ValueAt owner txn sel column = Some (anyNil, txn) ∧
    Selector_StringAt owner txn sel column = Some (EmptyString, txn) ∧
    Selector_IntAt owner txn sel column = Some (0, txn) ∧
    Selector_UintAt owner txn sel column = Some (0, txn) ∧
    Selector_BoolAt owner txn sel column = Some (false, txn))) ∧
  (sel_txn sel = false → sel_col sel = false →
   Selector_ValueAt owner txn sel column = None ∧
   Selector_StringAt owner txn sel column = None ∧
   Selector_IntAt owner txn sel column = None ∧
   Selector_UintAt owner txn sel column = None ∧
   Selector_BoolAt owner txn sel column = None) ∧
  (∀ i, Contains (index txn) i = false →
        (ReadAt txn i).2 = false ∧
        Selector_ValueAt owner txn (ReadAt txn i).1 column = None) ∧
  (∀ i, Contains (index txn) i = true →
        ReadAt txn i = (mkSelector i true false, true)).
Proof.
  intros Hok.
  unfold Selector_StringAt, Selector_IntAt, Selector_BoolAt, Selector_ValueAt,
    Selector_UintAt, Selector_columnAt.
  split_and!.
  - intros Hsel.
    destruct (columnAt_cache owner txn column Hok) as [Hc _].
    pose proof (columnAt_None owner txn column) as Hnone.
    assert (∃ t, (if sel_txn sel then Some (columnAt owner txn column)
                  else if sel_col sel then Some (cols_Load owner column, txn)
                       else None) = Some (cols_Load owner column, t) ∧
                 (cols_Load owner column = None → t = txn)) as (t & -> & Ht).
    { destruct (sel_txn sel).
      - destruct (columnAt owner txn column) as [o t] eqn:Hat. simpl in *.
        exists t. subst o. split; [done|]. intros Hn. rewrite Hn in Hnone.
        by apply Hnone.
      - destruct Hsel as [|Hcol]; [done|]. rewrite Hcol. by exists txn. }
    simpl. destruct (cols_Load owner column) as [r|]; simpl.
    + split_and!; try done.
      * by destruct (Column_Value (deref owner r) (idx sel)) as [[] [|]].
      * unfold as_numerical. by destruct (col_numerical (deref owner r)).
    + rewrite Ht by done. by split_and!.
  - by intros -> ->.
  - intros i Hi. unfold ReadAt. by rewrite Hi.
  - intros i Hi. unfold ReadAt. by rewrite Hi.
Qed.

(** The zero cursor, as [cursorFor] returns it beside an error: [Int] and
    [Uint] return zero, the other reads and the writes fault. *)
Example zero_cursor :
  let txn := aquireTxn people newTxn in
  let cur := (cursorFor people txn "ghost").1.1 in
  Cursor_Int people cur = 0 ∧ Cursor_Uint people cur = 0 ∧
  Cursor_Value people cur = None ∧ Cursor_String people cur = None ∧
  Cursor_Bool people cur = None ∧
  Cursor_Delete cur txn = None ∧ Cursor_Update cur anyNil txn = None ∧
  Cursor_UpdateAt cur "name" anyNil txn = None.
Proof. vm_compute. done. Qed.

(** ** Two invariants of a transaction *)

Lemma index_within_refl txn txn' : index txn' = index txn → index_within txn txn'.
Proof. intros H x. by rewrite H. Qed.

Lemma index_within_trans t1 t2 t3 :
  index_within t1 t2 → index_within t2 t3 → index_within t1 t3.
Proof. intros H1 H2 x Hx. by apply H1, H2. Qed.

Lemma names_unique_updates txn txn' :
  updates txn' = updates txn → queue_names_unique txn →
  queue_names_unique txn'.
Proof. unfold queue_names_unique. by intros ->. Qed.

Lemma with_column_narrows owner txn c :
  index_within txn (with_column owner txn c) ∧
  updates (with_column owner txn c) = updates txn.
Proof.
  unfold with_column.
  destruct (columnAt_frame owner txn c) as (Hi & _ & _ & Hu).
  destruct (columnAt owner txn c) as [[r|] t]; simpl in *; (split; [|done]).
  - intros x. simpl. unfold Column_Intersect. rewrite Contains_And, Hi.
    by intros [? _]%andb_true_iff.
  - by intros x.
Qed.

Lemma without_column_narrows owner txn c :
  index_within txn (without_column owner txn c) ∧
  updates (without_column owner txn c) = updates txn.
Proof.
  unfold without_column.
  destruct (columnAt_frame owner txn c) as (Hi & _ & _ & Hu).
  destruct (columnAt owner txn c) as [[r|] t]; simpl in *; (split; [|done]).
  - intros x. simpl. unfold Column_Difference. rewrite Contains_AndNot, Hi.
    by intros [? _]%andb_true_iff.
  - by apply index_within_refl.
Qed.

Lemma union_column_updates owner txn c :
  updates (union_column owner txn c) = updates txn.
Proof.
  unfold union_column.
  destruct (columnAt_frame owner txn c) as (_ & _ & _ & Hu).
  by destruct (columnAt owner txn c) as [[r|] t].
Qed.

Lemma foldl_narrows (f : Txn → string → Txn) l txn :
  (∀ t c, index_within t (f t c) ∧ updates (f t c) = updates t) →
  index_within txn (foldl f txn l) ∧ updates (foldl f txn l) = updates txn.
Proof.
  intros Hf. revert txn. induction l as [|c l IH]; intros txn; simpl.
  - split; [by apply index_within_refl|done].
  - destruct (Hf txn c) as [H1 H2]. destruct (IH (f txn c)) as [H3 H4].
    split; [by eapply index_within_trans|congruence].
Qed.

Lemma filter_narrows txn t (f : N → option bool) b :
  index t = index txn → updates t = updates txn →
  Filter (index t) f = Some b →
  index_within txn (set_index t b) ∧ updates (set_index t b) = updates txn.
Proof.
  intros Hi Hu Hb. split; [|done]. intros x. simpl.
  rewrite (Filter_Contains _ _ _ x Hb), Hi. by intros [? _]%andb_true_iff.
Qed.

Lemma WithValue_narrows owner txn c p txn' :
  WithValue owner txn c p = Some txn' →
  index_within txn txn' ∧ updates txn' = updates txn.
Proof.
  unfold WithValue.
  destruct (columnAt_frame owner txn c) as (Hi & _ & _ & Hu).
  destruct (columnAt owner txn c) as [[r|] t]; simpl in *.
  - destruct (Filter _ _) as [b|] eqn:Hb; [|done]. intros [= <-].
    by apply (filter_narrows txn t _ b Hi Hu Hb).
  - intros [= <-]. split; [by apply index_within_refl|done].
Qed.

Lemma WithInt_narrows owner txn c p txn' :
  WithInt owner txn c p = Some txn' →
  index_within txn txn' ∧ updates txn' = updates txn.
Proof.
  unfold WithInt.
  destruct (columnAt_frame owner txn c) as (Hi & _ & _ & Hu).
  destruct (columnAt owner txn c) as [[r|] t]; simpl in *.
  - destruct (as_numerical _).
    + destruct (Filter _ _) as [b|] eqn:Hb; [|done]. intros [= <-].
      by apply (filter_narrows txn t _ b Hi Hu Hb).
    + intros [= <-]. split; [by apply index_within_refl|done].
  - intros [= <-]. split; [by apply index_within_refl|done].
Qed.

Lemma WithUint_narrows owner txn c p txn' :
  WithUint owner txn c p = Some txn' →
  index_within txn txn' ∧ updates txn' = updates txn.
Proof.
  unfold WithUint.
  destruct (columnAt_frame owner txn c) as (Hi & _ & _ & Hu).
  destruct (columnAt owner txn c) as [[r|] t]; simpl in *.
  - destruct (as_numerical _).
    + destruct (Filter _ _) as [b|] eqn:Hb; [|done]. intros [= <-].
      by apply (filter_narrows txn t _ b Hi Hu Hb).
    + intros [= <-]. split; [by apply index_within_refl|done].
  - intros [= <-]. split; [by apply index_within_refl|done].
Qed.

Lemma DeleteIf_updates {S} owner txn (fn : SelectorFn S) s :
  ∃ r, DeleteIf owner txn fn s = Some r ∧
       index r.1 = index txn ∧ updates r.1 = updates txn.
Proof.
  apply (DeleteIf_ind (λ t, index t = index txn ∧ updates t = updates txn));
    [done| |done].
  intros x t reads t' Hx [Hi Hu] Hr.
  destruct (read_columns_frame _ _ _ _ _ Hr) as (Hi' & _ & _ & Hu' & _).
  split; congruence.
Qed.

Lemma Select_updates {S} owner txn (fn : SelectorFn S) s :
  ∃ r, Select owner txn fn s = Some r ∧
       index r.1 = index txn ∧ updates r.1 = updates txn.
Proof.
  apply (Select_ind (λ t, index t = index txn ∧ updates t = updates txn));
    [done|].
  intros x t reads t' Hx [Hi Hu] Hr.
  destruct (read_columns_frame _ _ _ _ _ Hr) as (Hi' & _ & _ & Hu' & _).
  split; congruence.
Qed.

(** *** The names of the update queues *)

Lemma enqueue_list_names (column : string) (u : Update) l :
  NoDup (uq_name <$> l) →
  NoDup (uq_name <$>
    match list_find (λ q, uq_name q = column) l with
    | Some (i, q) => <[i := mkQueue (uq_name q) (uq_update q ++ [u])]> l
    | None => l ++ [mkQueue column [u]]
    end).
Proof.
  intros Hnd. destruct (list_find _ l) as [[i q]|] eqn:Hfind.
  - apply list_find_Some in Hfind as (Hq & _).
    rewrite list_fmap_insert. simpl. rewrite list_insert_id; [done|].
    by rewrite list_lookup_fmap, Hq.
  - rewrite fmap_app. simpl. apply NoDup_app. split_and!; [done| |].
    + intros name Hname Hin. apply list_elem_of_singleton in Hin. subst name.
      apply list_elem_of_fmap in Hname as (q & Hq & Hin).
      apply list_find_None in Hfind.
      by apply (proj1 (Forall_forall _ _) Hfind q Hin).
    + apply NoDup_singleton.
Qed.

Lemma enqueueAt_names c u txn :
  queue_names_unique txn → queue_names_unique (enqueueAt c u txn).
Proof.
  unfold queue_names_unique. intros Hnd.
  pose proof (enqueue_list_names c u (updates txn) Hnd) as H.
  unfold enqueueAt. by destruct (list_find _ _) as [[i q]|].
Qed.

Lemma enqueue_names cur u txn txn' :
  enqueue cur u txn = Some txn' →
  queue_names_unique txn → queue_names_unique txn'.
Proof.
  unfold enqueue, queue_names_unique.
  destruct (sel_txn (cur_sel cur)); [|done]. case_decide; [|done].
  destruct (updates txn !! _) as [q|] eqn:Hq; [|done]. simpl.
  intros [= <-] Hnd. simpl. rewrite list_fmap_insert. simpl.
  rewrite list_insert_id; [done|]. by rewrite list_lookup_fmap, Hq.
Qed.

Lemma cursorFor_names owner txn column :
  queue_names_unique txn →
  queue_names_unique (cursorFor owner txn column).2.
Proof.
  unfold cursorFor, queue_names_unique.
  destruct (columnAt_frame owner txn column) as (_ & _ & _ & Hu).
  destruct (columnAt owner txn column) as [[r|] t]; simpl in *;
    [|by rewrite Hu].
  rewrite <- Hu. intros Hnd.
  destruct (list_find _ (updates t)) as [[i q]|] eqn:Hfind; simpl; [done|].
  rewrite fmap_app. simpl. apply NoDup_app. split_and!; [done| |].
  - intros name Hname Hin. apply list_elem_of_singleton in Hin. subst name.
    apply list_elem_of_fmap in Hname as (q & Hq & Hin).
    apply list_find_None in Hfind.
    by apply (proj1 (Forall_forall _ _) Hfind q Hin).
  - apply NoDup_singleton.
Qed.

Lemma act_names owner cur txn a txn' :
  act owner cur txn a = Some txn' →
  index txn' = index txn ∧
  (queue_names_unique txn → queue_names_unique txn').
Proof.
  intros Hact. destruct a.
  - apply act_read in Hact as (r & Hr & ->).
    destruct (Selector_columnAt_frame _ _ _ _ _ Hr) as (Hi & _ & _ & Hu & _).
    split; [done|]. by apply names_unique_updates.
  - by apply Cursor_Delete_Some in Hact as ->.
  - split; [by apply enqueue_frame in Hact as (? & _)|].
    by apply (enqueue_names _ _ _ _ Hact).
  - split; [by apply enqueue_frame in Hact as (? & _)|].
    by apply (enqueue_names _ _ _ _ Hact).
  - apply Cursor_UpdateAt_Some in Hact as ->.
    split; [apply enqueueAt_frame|apply enqueueAt_names].
  - apply Cursor_AddAt_Some in Hact as ->.
    split; [apply enqueueAt_frame|apply enqueueAt_names].
Qed.

Lemma acts_names owner cur l txn txn' :
  acts owner cur txn l = Some txn' →
  index txn' = index txn ∧
  (queue_names_unique txn → queue_names_unique txn').
Proof.
  revert txn. induction l as [|a l IH]; intros txn Hacts; simpl in Hacts.
  - by simplify_eq.
  - destruct (act owner cur txn a) as [t|] eqn:Hact; [|done]. simpl in Hacts.
    destruct (act_names _ _ _ _ _ Hact) as [Hi Hn].
    destruct (IH t Hacts) as [Hi' Hn']. split; [congruence|auto].
Qed.

Lemma Range_names {S} owner txn column (fn : CursorFn S) s r :
  Range owner txn column fn s = Some r →
  index r.1.2 = index txn ∧
  (queue_names_unique txn → queue_names_unique r.1.2).
Proof.
  intros Hr. unfold Range in Hr.
  destruct (cursorFor_frame owner txn column) as (Hi & _ & _).
  pose proof (cursorFor_names owner txn column) as Hn.
  destruct (cursorFor owner txn column) as [[cur err] t]. simpl in *.
  destruct err as [e|]; [by simplify_eq/=|].
  unfold bitmap.Range in Hr.
  match type of Hr with context [iterate ?f ?l ?s0] =>
    assert (∀ p, iterate f l s0 = Some p →
                 index p.1 = index t ∧
                 (queue_names_unique t → queue_names_unique p.1)) as Hind
  end.
  { apply (iterate_ind
      (λ st : option (Txn * S),
         ∀ p, st = Some p →
              index p.1 = index t ∧
              (queue_names_unique t → queue_names_unique p.1))).
    - by intros p [= <-].
    - intros x [[t0 s0]|] Hx Hp p; [|done].
      destruct (Hp _ eq_refl) as [Hi0 Hn0]. simpl in *.
      destruct (fn (set_idx cur x) owner t0 s0) as [[l continue] s1].
      destruct (acts owner (set_idx cur x) t0 l) as [t1|] eqn:Hacts; [|done].
      simpl. intros [= <-]. simpl.
      destruct (acts_names _ _ _ _ _ Hacts) as [Hi1 Hn1].
      split; [congruence|auto]. }
  destruct (iterate _ _ _) as [p|]; [|done]. simplify_eq/=.
  destruct (Hind p eq_refl) as [Hi' Hn']. split; [congruence|auto].
Qed.

Lemma Commit_names owner txn :
  queue_names_unique txn → queue_names_unique (Commit owner txn).2.
Proof.
  unfold queue_names_unique. rewrite Commit_updates.
  rewrite <- list_fmap_compose.
  assert ((uq_name ∘ pending_after owner) <$> updates txn =
          uq_name <$> updates txn) as ->; [|done].
  apply list_fmap_ext. intros _ q _. simpl. unfold pending_after.
  by case_decide.
Qed.

Lemma Rollback_names txn :
  queue_names_unique txn → queue_names_unique (Rollback txn).
Proof.
  unfold queue_names_unique. simpl. rewrite <- list_fmap_compose.
  assert ((uq_name ∘ (λ q, mkQueue (uq_name q) [])) <$> updates txn =
          uq_name <$> updates txn) as ->; [|done].
  by apply list_fmap_ext.
Qed.

Section Invariants.

Variable next : Collection → N * Collection.

Lemma insert_names owner txn object expireAt r :
  insert next owner txn object expireAt = Some r →
  queue_names_unique txn → queue_names_unique r.2.
Proof.
  rewrite insert_Some. intros [= <-] Hnd. cbv zeta.
  destruct (next owner) as [j owner']. simpl.
  set (txn1 := set_inserts txn (Set_ (inserts txn) j)).
  assert (queue_names_unique txn1) as H1 by done.
  assert (∀ t, queue_names_unique t →
            queue_names_unique (foldl (λ t kv,
              match columnAt owner' t kv.1 with
              | (Some _, t') => enqueueAt kv.1 (mkUpdate UpdatePut j kv.2) t'
              | (None, t') => t'
              end) t object)) as Hloop.
  { induction object as [|[k v] object IH]; intros t Ht; [done|].
    simpl. apply IH.
    destruct (columnAt_frame owner' t k) as (_ & _ & _ & Hu).
    destruct (columnAt owner' t k) as [[c|] t0]; simpl in *.
    - apply enqueueAt_names. by apply (names_unique_updates t).
    - by apply (names_unique_updates t). }
  specialize (Hloop txn1 H1).
  case_bool_decide; [|done]. by apply enqueueAt_names.
Qed.

(** What one operation does to the working bitmap and to the queue names. *)
Lemma exec_frame {S} (op : Op S) (w : World S) r w' :
  exec next op w = Some (r, w') →
  (is_union op = false → index_within (w_txn w) (w_txn w')) ∧
  (queue_names_unique (w_txn w) → queue_names_unique (w_txn w')).
Proof.
  intros Hexec. destruct op; simpl in Hexec.
  - simplify_eq/=.
    destruct (foldl_narrows (with_column (w_owner w)) (column :: extra)
                (w_txn w) (with_column_narrows (w_owner w))) as [Hi Hu].
    split; [done|]. by apply names_unique_updates.
  - simplify_eq/=.
    destruct (foldl_narrows (without_column (w_owner w)) (column :: extra)
                (w_txn w) (without_column_narrows (w_owner w))) as [Hi Hu].
    split; [done|]. by apply names_unique_updates.
  - simplify_eq/=. split; [done|]. apply names_unique_updates.
    unfold Union.
    change (foldl (union_column (w_owner w))
              (union_column (w_owner w) (w_txn w) column) extra)
      with (foldl (union_column (w_owner w)) (w_txn w) (column :: extra)).
    generalize (column :: extra). intros l. generalize (w_txn w).
    induction l as [|c l IH]; intros t; simpl; [done|].
    by rewrite IH, union_column_updates.
  - destruct (WithValue _ _ _ _) eqn:E; [|done]. simplify_eq/=.
    destruct (WithValue_narrows _ _ _ _ _ E) as [Hi Hu].
    split; [done|]. by apply names_unique_updates.
  - destruct (WithInt _ _ _ _) eqn:E; [|done]. simplify_eq/=.
    destruct (WithInt_narrows _ _ _ _ _ E) as [Hi Hu].
    split; [done|]. by apply names_unique_updates.
  - destruct (WithUint _ _ _ _) eqn:E; [|done]. simplify_eq/=.
    destruct (WithUint_narrows _ _ _ _ _ E) as [Hi Hu].
    split; [done|]. by apply names_unique_updates.
  - destruct (WithString _ _ _ _) eqn:E; [|done]. simplify_eq/=.
    destruct (WithValue_narrows _ _ _ _ _ E) as [Hi Hu].
    split; [done|]. by apply names_unique_updates.
  - simplify_eq/=. split; [by intros _; apply index_within_refl|done].
  - destruct (ReadAt _ _). simplify_eq/=.
    split; [by intros _; apply index_within_refl|done].
  - unfold DeleteAt in Hexec. destruct (negb _); simplify_eq/=;
      (split; [by intros _; apply index_within_refl|done]).
  - destruct (DeleteIf_updates (w_owner w) (w_txn w) fn (w_closure w))
      as (p & Hp & Hi & Hu).
    rewrite Hp in Hexec. simplify_eq/=.
    split; [by intros _; apply index_within_refl|].
    by apply names_unique_updates.
  - simplify_eq/=. split; [by intros _; apply index_within_refl|done].
  - destruct (insert_bitmaps next (w_owner w) (w_txn w) object 0)
      as (t & Hins & Hi & _).
    pose proof (insert_names (w_owner w) (w_txn w) object 0 _ Hins) as Hn.
    unfold Insert in Hexec. rewrite Hins in Hexec.
    simplify_eq/=. split; [by intros _; apply index_within_refl|done].
  - destruct (insert_bitmaps next (w_owner w) (w_txn w) object
                (int64 (now + ttl))) as (t & Hins & Hi & _).
    pose proof (insert_names (w_owner w) (w_txn w) object
                  (int64 (now + ttl)) _ Hins) as Hn.
    unfold InsertWithTTL in Hexec. rewrite Hins in Hexec.
    simplify_eq/=. split; [by intros _; apply index_within_refl|done].
  - destruct (Select_updates (w_owner w) (w_txn w) fn (w_closure w))
      as (p & Hp & Hi & Hu).
    rewrite Hp in Hexec. simplify_eq/=.
    split; [by intros _; apply index_within_refl|].
    by apply names_unique_updates.
  - destruct (Range _ _ _ _ _) as [p|] eqn:Hr; [|done]. simplify_eq/=.
    destruct (Range_names _ _ _ _ _ _ Hr) as [Hi Hn].
    split; [by intros _; apply index_within_refl|done].
  - pose proof (Commit_index (w_owner w) (w_txn w)) as Hi.
    pose proof (Commit_names (w_owner w) (w_txn w)) as Hn.
    destruct (Commit _ _). simplify_eq/=.
    split; [by intros _; apply index_within_refl|done].
  - simplify_eq/=. split; [by intros _; apply index_within_refl|].
    apply Rollback_names.
Qed.

Lemma run_within {S} (ops : list (Op S)) (w w' : World S) :
  Forall (λ op, is_union op = false) ops →
  run next ops w = Some w' → index_within (w_txn w) (w_txn w').
Proof.
  revert w. induction ops as [|op ops IH]; intros w Hops Hrun;
    simpl in Hrun.
  - simplify_eq. by apply index_within_refl.
  - apply Forall_cons_1 in Hops as [Hop Hops].
    destruct (exec next op w) as [[r w1]|] eqn:Hexec; [|done].
    simpl in Hrun. destruct (exec_frame op w r w1 Hexec) as [Hi _].
    eapply index_within_trans; [by apply Hi|by apply IH].
Qed.

(** X17: the working bitmap is a snapshot that only [Union] can extend:
    along every sequence of operations without a [Union], whatever is
    committed or inserted on the way, every row of the working bitmap at the
    end was in the working bitmap at the start, and [Count] has not
    grown. *)
Theorem run_index_within {S} (ops : list (Op S)) (w w' : World S) :
  Forall (λ op, is_union op = false) ops →
  run next ops w = Some w' →
  index_within (w_txn w) (w_txn w') ∧ Count (w_txn w') ≤ Count (w_txn w).
Proof.
  intros Hops Hrun. pose proof (run_within ops w w' Hops Hrun) as Hin.
  split; [done|]. unfold Count, bitmap.Count.
  apply inj_le, submseteq_length, NoDup_submseteq.
  - apply elems_NoDup.
  - intros x Hx. apply elem_of_elems. apply Hin. by apply elem_of_elems.
Qed.

(** X18: the operations keep at most one update queue per column name:
    when the names of the queues are distinct before a sequence of
    operations, they are distinct after it, so the first queue of a name is
    the only one. *)
Theorem run_queue_names_unique {S} (ops : list (Op S)) (w w' : World S) :
  queue_names_unique (w_txn w) →
  run next ops w = Some w' → queue_names_unique (w_txn w').
Proof.
  revert w. induction ops as [|op ops IH]; intros w Hnd Hrun;
    simpl in Hrun.
  - by simplify_eq.
  - destruct (exec next op w) as [[r w1]|] eqn:Hexec; [|done].
    simpl in Hrun. destruct (exec_frame op w r w1 Hexec) as [_ Hn].
    apply (IH w1); [by apply Hn|done].
Qed.

End Invariants.

(** ** The row of an insert before the commit *)

(** C5, counterexample: the new row is visible before the commit.  A
    transaction snapshots a collection whose row 0 is live, deletes the row
    and commits: row 0 has left [fill] and is still in the working bitmap of
    the transaction.  The insert that follows is given row 0, which is
    neither live nor reserved by a pending insert; the working bitmap is not
    written, and the transaction sees the row before it commits: [ReadAt]
    finds it, [Count] counts it, the filter [Without] keeps it and [Select]
    visits it. *)
Lemma insert_visible_before_commit :
  let w := mkWorld counter (aquireTxn counter newTxn) tt in
  ∃ w1 txn2,
    run nextFree [OpDeleteAt 0%N; OpCommit] w = Some w1 ∧
    cache_ok (nextFree (w_owner w1)).2 (w_txn w1) ∧
    Contains (fill (w_owner w1)) 0%N = false ∧
    Contains (inserts (w_txn w1)) 0%N = false ∧
    insert nextFree (w_owner w1) (w_txn w1) [("n", anyInt64 7)] 0 =
      Some (0%N, w_owner w1, txn2) ∧
    Contains (inserts txn2) 0%N = true ∧
    ReadAt txn2 0%N = (mkSelector 0 true false, true) ∧
    Count txn2 = 1 ∧
    Contains (index (Without (w_owner w1) txn2 "n" [])) 0%N = true ∧
    snd <$> Select (w_owner w1) txn2 (traced read_n) (tt, []) =
      Some (tt, [(mkSelector 0 true false, true)]).
Proof.
  cbv zeta. eexists _, _. split; [vm_compute; reflexivity|].
  split; [by apply cache_ok_nil|].
  split; [reflexivity|]. split; [reflexivity|].
  split; [vm_compute; reflexivity|]. vm_compute. done.
Qed.

Section InsertSpec.

Variable next : Collection → N * Collection.

(** C5 (as amended): under a cache that agrees with the registry, [insert]
    returns the index [j] the allocator reserved, sets bit [j] in the inserts
    bitmap, appends to the queue of every registered column the [Put] records
    at [j] of the entries of the object under that name (one for a key of the
    map) and nothing for a name that is not registered, appends a [Put] on
    the TTL column iff [expireAt ≠ 0], and writes neither the working bitmap
    nor the deletes bitmap: [Count] and [ReadAt] see what they saw before.
    So when [j] was not in the working bitmap before the call the new row is
    invisible to the transaction: [ReadAt] fails on it, the iteration does
    not visit it, it stays out of the working bitmap through every sequence
    of later operations without a [Union], and a [Union] brings it in only
    from the existence bitmap of a column it names.  When [j] was in the
    working bitmap, the row is visible. *)
Theorem insert_spec (owner : Collection) (txn : Txn) (object : Object)
  (expireAt : Z) :
  cache_ok (next owner).2 txn →
  let j := (next owner).1 in
  let owner' := (next owner).2 in
  ∃ txn',
    insert next owner txn object expireAt = Some (j, owner', txn') ∧
    (∀ x, Contains (inserts txn') x =
          bool_decide (x = j) || Contains (inserts txn) x) ∧
    (∀ name, queue_of name (updates txn') =
             queue_of name (updates txn)
             ++ (if registered owner' name then puts j name object else [])
             ++ (if bool_decide (expireAt ≠ 0 ∧ name = expireColumn)
                 then [mkUpdate UpdatePut j (anyInt64 expireAt)] else [])) ∧
    (∀ k v, NoDup object.*1 → (k, v) ∈ object →
            puts j k object = [mkUpdate UpdatePut j v]) ∧
    (∀ k, k ∉ object.*1 → puts j k object = []) ∧
    index txn' = index txn ∧ deletes txn' = deletes txn ∧
    Count txn' = Count txn ∧ (∀ x, ReadAt txn' x = ReadAt txn x) ∧
    (Contains (index txn) j = false →
     ReadAt txn' j = (mkSelector 0 false false, false) ∧
     (j ∉ elems (index txn')) ∧
     (∀ (S : Type) (ops : list (Op S)) (s : S) (w : World S),
        Forall (λ op, is_union op = false) ops →
        run next ops (mkWorld owner' txn' s) = Some w →
        Contains (index (w_txn w)) j = false) ∧
     (∀ c e, Contains (index (Union owner' txn' c e)) j =
             existsb (λ c, Contains (E owner' c) j) (c :: e))) ∧
    (Contains (index txn) j = true →
     ReadAt txn' j = (mkSelector j true false, true) ∧
     j ∈ elems (index txn')).
Proof.
  intros Hok. cbv zeta. rewrite insert_Some. cbv zeta.
  destruct (next owner) as [j owner'] eqn:Hnext. simpl in *.
  eexists. split; [reflexivity|].
  set (txn1 := set_inserts txn (Set_ (inserts txn) j)).
  pose proof (insert_loop owner' j object txn1) as Hloop.
  cbv zeta in Hloop.
  destruct Hloop as (Hok2 & Hi & Hd & Hn & Hq);
    [by apply (cache_ok_columns owner' txn)|].
  set (txn2 := foldl _ txn1 object) in *.
  set (u := mkUpdate UpdatePut j (anyInt64 expireAt)).
  assert (∀ t, index (if bool_decide (expireAt ≠ 0)
                      then enqueueAt expireColumn u t else t) = index t ∧
               deletes (if bool_decide (expireAt ≠ 0)
                      then enqueueAt expireColumn u t else t) = deletes t ∧
               inserts (if bool_decide (expireAt ≠ 0)
                      then enqueueAt expireColumn u t else t) = inserts t ∧
               columns (if bool_decide (expireAt ≠ 0)
                      then enqueueAt expireColumn u t else t) = columns t)
    as Httl.
  { intros t. case_bool_decide; [|done].
    by destruct (enqueueAt_frame expireColumn u t) as (-> & -> & -> & ->). }
  destruct (Httl txn2) as (Hi3 & Hd3 & Hn3 & Hc3).
  set (txn3 := if bool_decide (expireAt ≠ 0)
               then enqueueAt expireColumn u txn2 else txn2) in *.
  assert (index txn3 = index txn) as Hindex by (by rewrite Hi3, Hi).
  assert (cache_ok owner' txn3) as Hok3
    by (by apply (cache_ok_columns owner' txn2)).
  split_and!; try done.
  - intros x. rewrite Hn3, Hn. simpl. apply Contains_Set.
  - intros name. unfold txn3. case_bool_decide as Hexp.
    + rewrite queue_of_enqueueAt, Hq. simpl.
      rewrite <- app_assoc. do 2 f_equal.
      case_decide as Hname.
      * by rewrite bool_decide_eq_true_2.
      * rewrite bool_decide_eq_false_2; [done|]. by intros [_ ->].
    + rewrite Hq. simpl.
      rewrite (bool_decide_eq_false_2 (_ ∧ _)) by (intros [? _]; auto).
      by rewrite app_nil_r.
  - intros k v. apply puts_key.
  - intros k. apply puts_not_key.
  - by rewrite Hd3, Hd.
  - unfold Count. by rewrite Hindex.
  - intros x. unfold ReadAt. by rewrite Hindex.
  - intros Hj. split_and!.
    + unfold ReadAt. by rewrite Hindex, Hj.
    + by rewrite not_elem_of_elems, Hindex.
    + intros S ops s w Hops Hrun.
      apply not_true_is_false. intros Hw.
      apply (run_within next ops _ _ Hops Hrun j) in Hw. simpl in Hw.
      by rewrite Hindex, Hj in Hw.
    + intros c e. unfold Union.
      change (foldl (union_column owner') (union_column owner' txn3 c) e)
        with (foldl (union_column owner') txn3 (c :: e)).
      pose proof (foldl_union_column owner' (c :: e) txn3 Hok3) as Hu.
      cbv zeta in Hu. destruct Hu as (_ & Hx & _).
      by rewrite Hx, Hindex, Hj.
  - intros Hj. split.
    + unfold ReadAt. by rewrite Hindex, Hj.
    + by rewrite elem_of_elems, Hindex.
Qed.

End InsertSpec.

(** ** The queues of the registered columns after a commit *)

Lemma queue_of_pending_after owner name l :
  (cols_LoadWithIndex owner name).1 ≠ [] →
  queue_of name (pending_after owner <$> l) = [].
Proof.
  intros Hreg. induction l as [|q l IH]; [done|].
  rewrite fmap_cons. simpl.
  assert (uq_name (pending_after owner q) = uq_name q) as ->
    by (unfold pending_after; by case_decide).
  case_decide as Hn; [|apply IH].
  unfold pending_after. rewrite Hn. by rewrite decide_False.
Qed.

(** X20: [Commit] empties the queue of every column that is registered:
    when the registry holds at least one column under a name, no update is
    pending for that name after the commit; the queues themselves stay, with
    their names in their order. *)
Theorem Commit_resets_registered (owner : Collection) (txn : Txn)
  (name : string) :
  (cols_LoadWithIndex owner name).1 ≠ [] →
  queue_of name (updates (Commit owner txn).2) = [] ∧
  uq_name <$> updates (Commit owner txn).2 = uq_name <$> updates txn.
Proof.
  intros Hreg. rewrite Commit_updates. split.
  - by apply queue_of_pending_after.
  - rewrite <- list_fmap_compose. apply list_fmap_ext. intros _ q _.
    simpl. unfold pending_after. by case_decide.
Qed.

(** ** The further theorems at concrete inputs *)

(** The insert theorem at an object with two registered keys and an unknown
    one, on an empty collection: the row is new to the transaction. *)
Lemma insert_spec_witness :
  let txn := aquireTxn empty_xy newTxn in
  let object := [("x", anyInt64 10); ("y", anyString "hi"); ("z", anyNil)] in
  cache_ok (nextFree empty_xy).2 txn ∧
  ∃ txn',
    insert nextFree empty_xy txn object 0 =
      Some ((nextFree empty_xy).1, (nextFree empty_xy).2, txn') ∧
    index txn' = index txn ∧
    ReadAt txn' (nextFree empty_xy).1 = (mkSelector 0 false false, false).
Proof.
  cbv zeta.
  assert (cache_ok (nextFree empty_xy).2 (aquireTxn empty_xy newTxn)) as Hok
    by (apply cache_ok_nil; reflexivity).
  split; [exact Hok|].
  destruct (insert_spec nextFree empty_xy (aquireTxn empty_xy newTxn)
              [("x", anyInt64 10); ("y", anyString "hi"); ("z", anyNil)] 0 Hok)
    as (txn' & Hins & _ & _ & _ & _ & Hi & _ & _ & _ & Hnew & _).
  exists txn'. split; [exact Hins|]. split; [exact Hi|].
  apply Hnew. reflexivity.
Defined.

(** [Without] at a registered column and a name that is not registered. *)
Lemma Without_spec_witness :
  let txn := aquireTxn people newTxn in
  cache_ok people txn ∧
  ∀ x, Contains (index (Without people txn "active" ["ghost"])) x =
       Contains (index txn) x &&
       forallb (λ c, negb (Contains (E people c) x)) ["active"; "ghost"].
Proof.
  cbv zeta.
  assert (cache_ok people (aquireTxn people newTxn)) as Hok
    by apply cache_ok_aquire.
  split; [exact Hok|].
  apply (Without_spec people (aquireTxn people newTxn) "active" ["ghost"] Hok).
Defined.

(** [Union] at two registered columns. *)
Lemma Union_spec_witness :
  let txn := With people (aquireTxn people newTxn) "ghost" [] in
  cache_ok people txn ∧
  ∀ x, Contains (index (Union people txn "active" ["adult"])) x =
       Contains (index txn) x ||
       existsb (λ c, Contains (E people c) x) ["active"; "adult"].
Proof.
  cbv zeta.
  assert (cache_ok people (With people (aquireTxn people newTxn) "ghost" []))
    as Hok by (apply cache_ok_nil; reflexivity).
  split; [exact Hok|].
  apply (Union_spec people _ "active" ["adult"] Hok).
Defined.

(** The commuting filters at two registered columns. *)
Lemma filters_commute_witness :
  let txn := aquireTxn people newTxn in
  cache_ok people txn ∧
  ∀ x, Contains (index (Without people (With people txn "active" []) "adult" [])) x =
       Contains (index (With people (Without people txn "adult" []) "active" [])) x.
Proof.
  cbv zeta.
  assert (cache_ok people (aquireTxn people newTxn)) as Hok
    by apply cache_ok_aquire.
  split; [exact Hok|].
  apply (filters_commute people (aquireTxn people newTxn) "active" "adult"
           [] [] Hok).
Defined.

(** [WithValue] at the column of names. *)
Lemma WithValue_spec_witness :
  let txn := aquireTxn people newTxn in
  cache_ok people txn ∧
  ∃ txn', WithValue people txn "name" (λ v, Some (is_bob v)) = Some txn' ∧
          (∀ x, Contains (index txn') x =
                Contains (index txn) x && keeps_value people "name" is_bob x).
Proof.
  cbv zeta.
  assert (cache_ok people (aquireTxn people newTxn)) as Hok
    by apply cache_ok_aquire.
  split; [exact Hok|].
  destruct (WithValue_spec people (aquireTxn people newTxn) "name" is_bob Hok)
    as (t & Ht & Hx & _).
  exists t. split; [exact Ht|exact Hx].
Defined.

(** [WithInt] and [WithUint] at the column of names, which is not
    numerical. *)
Lemma WithInt_WithUint_spec_witness :
  let txn := aquireTxn people newTxn in
  cache_ok people txn ∧
  ∃ txn', WithInt people txn "name" (λ v, Some (is_adult v)) = Some txn' ∧
          (∀ x, Contains (index txn') x =
                Contains (index txn) x &&
                keeps_number people "name" Column_Int64 is_adult x).
Proof.
  cbv zeta.
  assert (cache_ok people (aquireTxn people newTxn)) as Hok
    by apply cache_ok_aquire.
  split; [exact Hok|].
  destruct (WithInt_WithUint_spec people (aquireTxn people newTxn) "name"
              is_adult Hok) as [(t & Ht & Hx & _) _].
  exists t. split; [exact Ht|exact Hx].
Defined.

(** A commit right after the acquire. *)
Lemma Commit_noop_witness :
  let txn := aquireTxn people newTxn in
  nothing_pending txn ∧ Commit people txn = (people, txn).
Proof.
  cbv zeta.
  assert (nothing_pending (aquireTxn people newTxn)) as H
    by (split_and!; [reflexivity|reflexivity|constructor]).
  split; [exact H|]. apply (Commit_noop people _ H).
Defined.

(** The delete of row 4, committed. *)
Lemma DeleteAt_Commit_witness :
  let txn := aquireTxn people newTxn in
  Contains (index txn) 4%N = true ∧ Contains (inserts txn) 4%N = false ∧
  Contains (fill (Commit people (DeleteAt txn 4%N).2).1) 4%N = false.
Proof.
  cbv zeta.
  assert (Contains (index (aquireTxn people newTxn)) 4%N = true) as H1
    by reflexivity.
  assert (Contains (inserts (aquireTxn people newTxn)) 4%N = false) as H2
    by reflexivity.
  split; [exact H1|]. split; [exact H2|].
  apply (DeleteAt_Commit people (aquireTxn people newTxn) newTxn 4%N H1 H2).
Defined.

(** The cursor of the column of names. *)
Lemma cursorFor_queue_witness :
  let txn := aquireTxn people newTxn in
  cache_ok people txn ∧ cols_Load people "name" = Some 2%nat ∧
  Z.of_nat (length (updates txn)) < 2 ^ 15 ∧
  (cursorFor people txn "name").1.2 = None.
Proof.
  cbv zeta.
  assert (cache_ok people (aquireTxn people newTxn)) as Hok
    by apply cache_ok_aquire.
  assert (cols_Load people "name" = Some 2%nat) as Hload by reflexivity.
  assert (Z.of_nat (length (updates (aquireTxn people newTxn))) < 2 ^ 15)
    as Hlen by reflexivity.
  split_and!; [exact Hok|exact Hload|exact Hlen|].
  pose proof (cursorFor_queue people (aquireTxn people newTxn) "name" 2%nat
                Hok Hload Hlen) as Hq.
  cbv zeta in Hq. exact (proj1 Hq).
Defined.

(** The cursor of the column of names when the transaction carries 2^15
    update queues: the update through the cursor panics, and so does a
    [Range] whose function updates. *)
Lemma cursorFor_int16_overflow_witness :
  cache_ok people many_queues ∧ cols_Load people "name" = Some 2%nat ∧
  list_find (λ q, uq_name q = "name") (updates many_queues) = None ∧
  2 ^ 15 ≤ Z.of_nat (length (updates many_queues)) < 2 ^ 16 ∧
  cur_update (cursorFor people many_queues "name").1.1 < 0 ∧
  Range people many_queues "name" add_put_add tt = None.
Proof.
  assert (cache_ok people many_queues) as Hok
    by (apply cache_ok_nil; reflexivity).
  assert (cols_Load people "name" = Some 2%nat) as Hload by reflexivity.
  assert (list_find (λ q, uq_name q = "name") (updates many_queues) = None)
    as Hnone by (vm_compute; reflexivity).
  assert (2 ^ 15 ≤ Z.of_nat (length (updates many_queues)) < 2 ^ 16) as Hlen
    by (split; [apply Z.leb_le|apply Z.ltb_lt]; vm_compute; reflexivity).
  refine (conj Hok (conj Hload (conj Hnone (conj Hlen (conj _ _))))).
  - pose proof (cursorFor_int16_overflow people many_queues "name" 2%nat
                  Hok Hload Hnone Hlen) as Hq.
    cbv zeta in Hq. exact (proj1 (proj2 Hq)).
  - vm_compute. reflexivity.
Defined.

(** The reads of row 1 through a selector that has its transaction and
    through one that has its collection, and a read through the selector of
    a failed [ReadAt]. *)
Lemma Selector_reads_witness :
  let txn := aquireTxn people newTxn in
  cache_ok people txn ∧
  fst <$> Selector_StringAt people txn (mkSelector 1 true false) "age"
    = Some EmptyString ∧
  fst <$> Selector_IntAt people txn (mkSelector 1 false true) "name"
    = Some 0 ∧
  Selector_ValueAt people txn (ReadAt txn 0).1 "name" = None.
Proof.
  cbv zeta.
  assert (cache_ok people (aquireTxn people newTxn)) as Hok
    by apply cache_ok_aquire.
  split; [exact Hok|].
  pose proof (Selector_reads people (aquireTxn people newTxn)
                (mkSelector 1 true false) "age" Hok) as (Hs & _ & Hz & _).
  pose proof (Selector_reads people (aquireTxn people newTxn)
                (mkSelector 1 false true) "name" Hok) as (Hi & _).
  split; [exact (proj1 (Hs (or_introl eq_refl)))|].
  split; [exact (proj1 (proj2 (Hi (or_intror eq_refl))))|].
  exact (proj2 (Hz 0%N eq_refl)).
Defined.

(** A filter, an insert and a commit. *)
Lemma run_index_within_witness :
  let w := mkWorld people (aquireTxn people newTxn) tt in
  let ops := [OpWith "active" []; OpInsert [("age", anyInt64 7)]; OpCommit] in
  ∃ w', run nextFree ops w = Some w' ∧
        index_within (w_txn w) (w_txn w') ∧
        Count (w_txn w') ≤ Count (w_txn w).
Proof.
  cbv zeta. eexists. split; [vm_compute; reflexivity|].
  eapply (run_index_within nextFree
            [OpWith "active" []; OpInsert [("age", anyInt64 7)]; OpCommit]
            (mkWorld people (aquireTxn people newTxn) tt)).
  - repeat constructor.
  - vm_compute. reflexivity.
Defined.

(** An iteration that updates, an insert and a commit. *)
Lemma run_queue_names_unique_witness :
  let w := mkWorld people (aquireTxn people newTxn) tt in
  let ops := [OpRange "name" update_ghost; OpInsert [("name", anyString "Zoe")];
              OpCommit] in
  queue_names_unique (w_txn w) ∧
  ∃ w', run nextFree ops w = Some w' ∧ queue_names_unique (w_txn w').
Proof.
  cbv zeta.
  assert (queue_names_unique (aquireTxn people newTxn)) as H
    by constructor.
  split; [exact H|].
  eexists. split; [vm_compute; reflexivity|].
  eapply (run_queue_names_unique nextFree
            [OpRange "name" update_ghost; OpInsert [("name", anyString "Zoe")];
             OpCommit]
            (mkWorld people (aquireTxn people newTxn) tt)).
  - exact H.
  - vm_compute. reflexivity.
Defined.

(** The queue of the column of names after a commit. *)
Lemma Commit_resets_registered_witness :
  ∃ txn,
    snd <$> insert nextFree people (aquireTxn people newTxn)
              [("name", anyString "Zoe")] 0 = Some txn ∧
    (cols_LoadWithIndex people "name").1 ≠ [] ∧
    queue_of "name" (updates txn) ≠ [] ∧
    queue_of "name" (updates (Commit people txn).2) = [].
Proof.
  eexists. split; [vm_compute; reflexivity|].
  assert ((cols_LoadWithIndex people "name").1 ≠ []) as H by discriminate.
  split; [exact H|]. split; [vm_compute; discriminate|].
  apply (Commit_resets_registered people _ "name" H).
Defined.
